(** * CubeGen: the DSL editor, the Generate handler, the project store and
    the icon lookup, embedded shallowly and verified.

    Sources embedded here:
    - [src/components/CodeEditor.tsx]   ([esc], [span], [highlightLine], the
      gutter's [isError]);
    - [pages/CodePlayground] (the Generate handler [handleGenerate] and the
      [errorLine] prop it feeds to the editor);
    - [src/services/projectStore.ts]    ([saveProject], [loadProject],
      [archiveProject], [listArchivedProjects]);
    - [src/components/content/iconConstants.tsx] (the [ICONS] proxy).

    JavaScript strings are sequences of UTF-16 code units; they are modelled
    as lists of numbers, so that every test the source performs on a
    character ([ch === '<'], [/\d/], [trimStart]) is a test on a number. *)

From Stdlib Require Import List NArith ZArith Lia Bool String Ascii Sorted Permutation.
From stdpp Require Import base option list strings gmap fin_maps.
Import ListNotations.

Set Default Proof Using "Type".

(* ===================================================================== *)
(** ** JavaScript strings *)
(* ===================================================================== *)

Module JS.

Abbreviation jsstring := (list N).

(** A string literal of the source, as code units. *)
Definition lit (s : string) : jsstring :=
  List.map N_of_ascii (list_ascii_of_string s).

Definition dquote : N := 34.   (* the double-quote character *)
Definition space  : N := 32.
Definition tab    : N := 9.
Definition newline : N := 10.
Definition amp : N := 38.
Definition lt  : N := 60.
Definition gt  : N := 62.
Definition minus : N := 45.
Definition slash : N := 47.
Definition colon : N := 58.
Definition equals : N := 61.
Definition lbrace : N := 123.
Definition rbrace : N := 125.
Definition underscore : N := 95.
Definition dot : N := 46.

(** Equality of two strings ([===] on strings). *)
Fixpoint str_eqb (a b : jsstring) : bool :=
  match a, b with
  | [], [] => true
  | x :: a', y :: b' => N.eqb x y && str_eqb a' b'
  | _, _ => false
  end.

(** [s.startsWith(p)]. *)
Fixpoint startsWith (s p : jsstring) {struct p} : bool :=
  match p, s with
  | [], _ => true
  | y :: p', x :: s' => N.eqb x y && startsWith s' p'
  | _ :: _, [] => false
  end.

(** [needle] occurs in [s] as a contiguous substring ([s.includes(needle)]). *)
Fixpoint includes (s needle : jsstring) : bool :=
  startsWith s needle
  || match s with
     | [] => false
     | _ :: s' => includes s' needle
     end.

(** [s.substring(a, b)]: both indices are clamped to the length and swapped
    when out of order. *)
Definition substring (s : jsstring) (a b : nat) : jsstring :=
  let a' := Nat.min a (List.length s) in
  let b' := Nat.min b (List.length s) in
  let lo := Nat.min a' b' in
  let hi := Nat.max a' b' in
  firstn (hi - lo) (skipn lo s).

(** [s.replace(/c/g, r)] for a single character [c]. *)
Definition replaceAll (c : N) (r : jsstring) (s : jsstring) : jsstring :=
  flat_map (fun x => if N.eqb x c then r else [x]) s.

(** [' '.repeat(n)]. *)
Definition spaces (n : nat) : jsstring := repeat space n.

(** The longest prefix whose characters all satisfy [p]: what a loop
    [while (i < s.length && p(s[i])) { acc += s[i]; i++ }] accumulates. *)
Fixpoint while_prefix (p : N -> bool) (s : jsstring) : jsstring :=
  match s with
  | [] => []
  | x :: s' => if p x then x :: while_prefix p s' else []
  end.

(** ECMAScript WhiteSpace and LineTerminator code units, the characters
    [trimStart] and [trim] strip. *)
Definition is_js_space (c : N) : bool :=
  (N.leb 9 c && N.leb c 13)            (* TAB LF VT FF CR *)
  || N.eqb c 32 || N.eqb c 160         (* SP, NBSP *)
  || N.eqb c 5760                      (* U+1680 *)
  || (N.leb 8192 c && N.leb c 8202)    (* U+2000..U+200A *)
  || N.eqb c 8232 || N.eqb c 8233      (* LS, PS *)
  || N.eqb c 8239 || N.eqb c 8287      (* U+202F, U+205F *)
  || N.eqb c 12288 || N.eqb c 65279.   (* U+3000, BOM *)

Fixpoint trimStart (s : jsstring) : jsstring :=
  match s with
  | [] => []
  | x :: s' => if is_js_space x then trimStart s' else s
  end.

Definition trimEnd (s : jsstring) : jsstring := rev (trimStart (rev s)).
Definition trim (s : jsstring) : jsstring := trimEnd (trimStart s).

Definition is_digit (c : N) : bool := N.leb 48 c && N.leb c 57.

(** [/^\d+$/.test(s)]. *)
Definition all_digits (s : jsstring) : bool :=
  match s with
  | [] => false
  | _ => forallb is_digit s
  end.

(** [s.split('\n')]. *)
Fixpoint split_lines_aux (cur : jsstring) (s : jsstring) : list jsstring :=
  match s with
  | [] => [rev cur]
  | x :: s' => if N.eqb x newline then rev cur :: split_lines_aux [] s'
               else split_lines_aux (x :: cur) s'
  end.
Definition split_lines (s : jsstring) : list jsstring := split_lines_aux [] s.

End JS.

(* ===================================================================== *)
(** ** src/components/CodeEditor.tsx *)
(* ===================================================================== *)

Module CodeEditor.
Import JS.

(** The colour table [T] (only the entries the highlighter uses). *)
Module T.
Definition gutter  := lit "#6272a4".
Definition keyword := lit "#ff79c6".
Definition ident   := lit "#50fa7b".
Definition string  := lit "#f1fa8c".
Definition number  := lit "#bd93f9".
Definition arrow   := lit "#ff5555".
Definition prop    := lit "#8be9fd".
Definition propVal := lit "#ffb86c".
Definition comment := lit "#6272a4".
Definition plain   := lit "#f8f8f2".
End T.

(** [esc]: three global replacements, in the order of the source. *)
Definition esc (s : jsstring) : jsstring :=
  replaceAll gt (lit "&gt;") (replaceAll lt (lit "&lt;") (replaceAll amp (lit "&amp;") s)).

Definition span_open (color : jsstring) (bold : bool) : jsstring :=
  lit "<span style=" ++ [dquote] ++ lit "color:" ++ color
    ++ (if bold then lit ";font-weight:700" else []) ++ [dquote] ++ lit ">".

Definition span_close : jsstring := lit "</span>".

(** [span(color, text, bold = false)]. *)
Definition span (color text : jsstring) (bold : bool) : jsstring :=
  span_open color bold ++ esc text ++ span_close.

Definition comment_open : jsstring :=
  lit "<span style=" ++ [dquote] ++ lit "color:" ++ T.comment
    ++ lit ";font-style:italic" ++ [dquote] ++ lit ">".

(** [/[a-zA-Z0-9_\-]/.test(c)]. *)
Definition is_word_char (c : N) : bool :=
  (N.leb 97 c && N.leb c 122) || (N.leb 65 c && N.leb c 90)
  || is_digit c || N.eqb c underscore || N.eqb c minus.

(** The guard of the value loop after [=]:
    the character is none of space, tab and the double quote. *)
Definition is_value_char (c : N) : bool :=
  negb (N.eqb c space) && negb (N.eqb c tab) && negb (N.eqb c dquote).

Definition not_dquote (c : N) : bool := negb (N.eqb c dquote).

(** One iteration of the [while (i < line.length)] loop of [highlightLine],
    entered with [ch = line[i]]: the text appended to [out] and the value of
    [i] at the next iteration. *)
Definition step (line : jsstring) (i : nat) (ch : N) : jsstring * nat :=
  (* Whitespace *)
  if N.eqb ch space || N.eqb ch tab then ([ch], S i)
  (* String *)
  else if N.eqb ch dquote then
    let j := S i + List.length (while_prefix not_dquote (skipn (S i) line)) in
    (span T.string (substring line i (S j)) false, S j)
  (* Arrows *)
  else if str_eqb (substring line i (i + 3)) (lit "<->") then
    (span T.arrow (lit "<->") true, i + 3)
  else if str_eqb (substring line i (i + 2)) (lit "->") then
    (span T.arrow (lit "->") true, i + 2)
  (* Braces *)
  else if N.eqb ch lbrace || N.eqb ch rbrace then (span T.plain [ch] true, S i)
  (* Colon *)
  else if N.eqb ch colon then (span T.gutter (lit ":") false, S i)
  (* Equals, then value *)
  else if N.eqb ch equals then
    let val := while_prefix is_value_char (skipn (S i) line) in
    (span T.plain (lit "=") false
       ++ match val with
          | [] => []
          | _ => if all_digits val then span T.number val false
                 else span T.propVal val false
          end,
     S i + List.length val)
  else
    (* Word token *)
    let word := while_prefix is_word_char (skipn i line) in
    match word with
    | _ :: _ =>
        let i' := i + List.length word in
        ((if str_eqb word (lit "node") || str_eqb word (lit "container")
          then span T.keyword word true
          else if match nth_error line i' with
                  | Some c => N.eqb c equals
                  | None => false
                  end
          then span T.prop word false
          else if all_digits word then span T.number word false
          else span T.ident word false),
         i')
    | [] =>
        (* Fallback *)
        (esc [ch], S i)
    end.

(** The loop itself.  [fuel] bounds the number of iterations; [None] means
    the bound was hit before the guard [i < line.length] failed. *)
Fixpoint scan (fuel : nat) (line : jsstring) (i : nat) (out : jsstring)
  : option jsstring :=
  match nth_error line i with
  | None => Some out                      (* i >= line.length *)
  | Some ch =>
      match fuel with
      | O => None
      | S fuel' =>
          let '(emitted, i') := step line i ch in
          scan fuel' line i' (out ++ emitted)
      end
  end.

Definition is_comment_line (line : jsstring) : bool :=
  startsWith (trimStart line) (lit "//").

(** [highlightLine(line)].  The loop is given [line.length] iterations. *)
Definition highlightLine (line : jsstring) : option jsstring :=
  match line with
  | [] => Some [newline]
  | _ =>
      let trimmed := trimStart line in
      if startsWith trimmed (lit "//") then
        let indent := List.length line - List.length trimmed in
        Some (spaces indent ++ comment_open ++ esc trimmed ++ span_close)
      else scan (List.length line) line 0 []
  end.

(** The loop invariant's carrier: [reaches line i out] holds when the loop
    of [highlightLine] stands at the top of an iteration with index [i] and
    accumulated output [out]. *)
Inductive reaches (line : jsstring) : nat -> jsstring -> Prop :=
| reaches_start : reaches line 0 []
| reaches_step i out ch emitted i' :
    reaches line i out ->
    nth_error line i = Some ch ->
    step line i ch = (emitted, i') ->
    reaches line i' (out ++ emitted).

(** The colours the highlighter passes to [span]. *)
Definition span_colors : list jsstring :=
  [T.string; T.arrow; T.plain; T.gutter; T.number; T.propVal;
   T.keyword; T.prop; T.ident].

(** Every piece of markup the highlighter itself writes: the opening tags
    (plain and bold) for each colour, the comment's opening tag and the
    closing tag.  None of them depends on the line. *)
Definition markup : list jsstring :=
  List.map (fun c => span_open c false) span_colors
  ++ List.map (fun c => span_open c true) span_colors
  ++ [comment_open; span_close].

(** The three entities [esc] writes. *)
Definition entities : list jsstring := [lit "&amp;"; lit "&lt;"; lit "&gt;"].

(** Strings made of the highlighter's own markup and of escaped text. *)
Inductive escaped_html : jsstring -> Prop :=
| escaped_nil : escaped_html []
| escaped_text t rest : escaped_html rest -> escaped_html (esc t ++ rest)
| escaped_markup m rest :
    In m markup -> escaped_html rest -> escaped_html (m ++ rest).

(** *** Escaping: what the output is checked against *)

(** What [esc] does to one character. *)
Definition esc_char (c : N) : jsstring :=
  if N.eqb c amp then lit "&amp;"
  else if N.eqb c lt then lit "&lt;"
  else if N.eqb c gt then lit "&gt;"
  else [c].

(** [c] occurs in [m], counted from position [p], at index [k] only. *)
Fixpoint only_at (c : N) (k p : nat) (m : jsstring) : bool :=
  match m with
  | [] => true
  | x :: r => implb (N.eqb x c) (Nat.eqb p k) && only_at c k (S p) r
  end.

(** In a piece of markup or an entity each special character has its
    place: [<] opens it, [>] closes it, [&] opens an entity. *)
Definition markup_shape (m : jsstring) : bool :=
  only_at lt 0 0 m && only_at gt (List.length m - 1) 0 m
  && only_at amp (List.length m) 0 m
  && negb (Nat.eqb (List.length m) 0).

Definition entity_shape (e : jsstring) : bool :=
  only_at amp 0 0 e && only_at lt (List.length e) 0 e
  && only_at gt (List.length e) 0 e.

(** Where the special characters of a string stand:
    every [<] opens a piece of the highlighter's markup, every [>] closes
    one, and every [&] opens one of the three entities. *)
Definition specials_placed (out : jsstring) : Prop :=
  (forall p, nth_error out p = Some lt ->
     exists m, In m markup /\ startsWith (skipn p out) m = true)
  /\ (forall p, nth_error out p = Some gt ->
     exists m q, In m markup /\ q + List.length m = S p
                 /\ startsWith (skipn q out) m = true)
  /\ (forall p, nth_error out p = Some amp ->
     exists e, In e entities /\ startsWith (skipn p out) e = true).

(** The text a line is shown as: the empty line as a line feed, a comment
    line with each character of its indentation as a space, every other
    line as it is. *)
Definition shown_text (line : jsstring) : jsstring :=
  match line with
  | [] => [newline]
  | _ =>
      if is_comment_line line
      then spaces (List.length line - List.length (trimStart line))
             ++ trimStart line
      else line
  end.

(** [renders text out]: [out] is [text] written out piece by piece, from
    left to right, each piece [t] of the text as [esc t], with pieces of
    the highlighter's markup in between. *)
Inductive renders : jsstring -> jsstring -> Prop :=
| renders_nil : renders [] []
| renders_text t text out :
    renders text out -> renders (t ++ text) (esc t ++ out)
| renders_markup m text out :
    In m markup -> renders text out -> renders text (m ++ out).

(** *** Where the loop can stand *)

(** What the characters before an index leave the loop in: outside any
    token that runs over other tokens' characters ([Normal]), inside a
    quoted string ([InString]: after an opening double quote, up to the
    closing one), or inside an attribute value ([InValue]: after an equals
    sign, up to the next space, tab or double quote). *)
Inductive LexMode := Normal | InString | InValue.

Definition lex_char (m : LexMode) (c : N) : LexMode :=
  match m with
  | Normal =>
      if N.eqb c dquote then InString
      else if N.eqb c equals then InValue
      else Normal
  | InString => if N.eqb c dquote then Normal else InString
  | InValue =>
      if N.eqb c dquote then InString
      else if N.eqb c space || N.eqb c tab then Normal
      else InValue
  end.

Definition lex_mode_before (line : jsstring) (i : nat) : LexMode :=
  fold_left lex_char (firstn i line) Normal.

(** A character that opens neither a string nor a value. *)
Definition plain_char (c : N) : bool :=
  negb (N.eqb c dquote) && negb (N.eqb c equals).

(** What the characters before it leave an index in at which an iteration
    can start: outside strings and values, or at the character that ends a
    value. *)
Definition token_start (line : jsstring) (j : nat) : Prop :=
  match nth_error line j with
  | Some c =>
      lex_mode_before line j = Normal
      \/ (lex_mode_before line j = InValue /\ is_value_char c = false)
  | None => True
  end.

(** *** The gutter *)

(** One rendered row of the mirror: its 1-based number, whether it is drawn
    as the error row ([isError]: red background and red bold number), whether
    the gutter shows the error marker, and the highlighted code. *)
Record Row := {
  lineNum : Z;
  isError : bool;
  marker : bool;
  html : option jsstring
}.

(** [lineNum === errorLine], with [errorLine] possibly [undefined]. *)
Definition is_error_row (errorLine : option Z) (lineNum : Z) : bool :=
  match errorLine with
  | Some l => Z.eqb lineNum l
  | None => false
  end.

Fixpoint render_rows (errorLine : option Z) (idx : nat) (lines : list jsstring)
  : list Row :=
  match lines with
  | [] => []
  | l :: rest =>
      let n := (Z.of_nat idx + 1)%Z in
      {| lineNum := n;
         isError := is_error_row errorLine n;
         marker := is_error_row errorLine n;
         html := highlightLine l |}
      :: render_rows errorLine (S idx) rest
  end.

(** [highlightedLines.map((html, idx) => ...)] over [value.split('\n')]. *)
Definition rows (value : jsstring) (errorLine : option Z) : list Row :=
  render_rows errorLine 0 (split_lines value).

End CodeEditor.

(* ===================================================================== *)
(** ** utils/cubegenDSL *)
(* ===================================================================== *)

Module CubegenDSL.
Import JS.

(** The two types the Generate handler imports and reads:
    [result.success], [result.data], [result.errors], [err.line],
    [err.message]. *)
Record ParseError := { line : Z; message : jsstring }.

Record ParseResult (D : Type) := {
  success : bool;
  data : option D;          (* [None]: the field is absent *)
  errors : list ParseError
}.
Arguments success {D} _.
Arguments data {D} _.
Arguments errors {D} _.

(** Order of two diagnostics by line. *)
Definition line_le (a b : ParseError) : Prop := (line a <= line b)%Z.

(** Modelled from the spec: the parser module itself ([utils/cubegenDSL]:
    [parseCubeGenDSL] and everything under it) is not among the sources; only
    its caller is.  What follows is the pipeline of sections 4.1, 4.4 and
    4.5 of the specification: classify each line, collect declarations,
    links and diagnostics, resolve the links against the declared
    identifiers, order the diagnostics by line, and return either the
    document or the diagnostics.  The grammar of a single declaration or
    link statement (sections 4.2 and 4.3) is a parameter. *)

Inductive LineKind := Comment | Blank | DeclarationLine | LinkLine | Unknown.

(** Is there an arrow outside of any quoted string? *)
Fixpoint arrow_outside_quotes (in_quote : bool) (s : jsstring) : bool :=
  match s with
  | [] => false
  | c :: s' =>
      if N.eqb c dquote then arrow_outside_quotes (negb in_quote) s'
      else if in_quote then arrow_outside_quotes in_quote s'
      else startsWith s (lit "<->") || startsWith s (lit "->")
           || arrow_outside_quotes in_quote s'
  end.

Definition first_token (s : jsstring) : jsstring :=
  while_prefix (fun c => negb (is_js_space c)) s.

(** Section 4.1, on the trimmed line. *)
Definition classify (trimmed : jsstring) : LineKind :=
  match trimmed with
  | [] => Blank
  | _ =>
      if startsWith trimmed (lit "//") then Comment
      else if str_eqb (first_token trimmed) (lit "node")
              || str_eqb (first_token trimmed) (lit "container")
      then DeclarationLine
      else if arrow_outside_quotes false trimmed then LinkLine
      else Unknown
  end.

Inductive DeclKind := NodeDecl | ContainerDecl.

Section Parser.

(** Numeric attribute values. *)
Variable Num : Type.

Record Declaration := {
  decl_kind : DeclKind;
  decl_id : jsstring;
  decl_label : jsstring;
  decl_icon : option jsstring;
  decl_x : option Num;
  decl_y : option Num;
  decl_width : option Num;
  decl_height : option Num;
  decl_parent : option jsstring
}.

Record LinkStatement := {
  link_source : jsstring;
  link_target : jsstring;
  link_bidirectional : bool;
  link_label : option jsstring
}.

Record DiagramDocument := {
  doc_title : jsstring;
  doc_nodes : list Declaration;
  doc_containers : list Declaration;
  doc_links : list LinkStatement
}.

(** Sections 4.2 and 4.3: one statement, or the message of its error. *)
Variable parseDeclaration : jsstring -> Declaration + jsstring.
Variable parseLink : jsstring -> LinkStatement + jsstring.
Variable defaultTitle : jsstring.

Record ScanState := {
  decls : list Declaration;                 (* in source order *)
  links : list (Z * LinkStatement);         (* with their line numbers *)
  diags : list ParseError                   (* in order of detection *)
}.

Definition declared (ds : list Declaration) (id : jsstring) : bool :=
  existsb (fun d => str_eqb (decl_id d) id) ds.

Definition scan_line (n : Z) (raw : jsstring) (st : ScanState) : ScanState :=
  let report msg :=
    {| decls := decls st; links := links st;
       diags := diags st ++ [{| line := n; message := msg |}] |} in
  match classify (trim raw) with
  | Comment | Blank => st
  | Unknown => report (lit "unrecognized statement")
  | DeclarationLine =>
      match parseDeclaration (trim raw) with
      | inr msg => report msg
      | inl d =>
          if declared (decls st) (decl_id d)
          then report (lit "duplicate identifier: " ++ decl_id d)
          else {| decls := decls st ++ [d]; links := links st; diags := diags st |}
      end
  | LinkLine =>
      match parseLink (trim raw) with
      | inr msg => report msg
      | inl l => {| decls := decls st; links := links st ++ [(n, l)]; diags := diags st |}
      end
  end.

(** State [Scanning]: lines 1..N, numbered against the original text. *)
Fixpoint scan_lines (n : Z) (ls : list jsstring) (st : ScanState) : ScanState :=
  match ls with
  | [] => st
  | l :: rest => scan_lines (n + 1) rest (scan_line n l st)
  end.

Definition unresolved (n : Z) (id : jsstring) : ParseError :=
  {| line := n; message := lit "unresolved reference: " ++ id |}.

(** State [Resolving]: both endpoints of every link must be declared. *)
Fixpoint resolve (ds : list Declaration) (ls : list (Z * LinkStatement))
  : list LinkStatement * list ParseError :=
  match ls with
  | [] => ([], [])
  | (n, l) :: rest =>
      let '(ok, errs) := resolve ds rest in
      let src_ok := declared ds (link_source l) in
      let tgt_ok := declared ds (link_target l) in
      ((if src_ok && tgt_ok then l :: ok else ok),
       (if src_ok then [] else [unresolved n (link_source l)])
       ++ (if tgt_ok then [] else [unresolved n (link_target l)])
       ++ errs)
  end.

(** Ordering of the diagnostics by ascending line number (stable). *)
Fixpoint insert_error (e : ParseError) (es : list ParseError) : list ParseError :=
  match es with
  | [] => [e]
  | e' :: rest =>
      if (line e <=? line e')%Z then e :: es else e' :: insert_error e rest
  end.

Fixpoint order_errors (es : list ParseError) : list ParseError :=
  match es with
  | [] => []
  | e :: rest => insert_error e (order_errors rest)
  end.

Definition is_node (d : Declaration) : bool :=
  match decl_kind d with NodeDecl => true | ContainerDecl => false end.

(** The diagnostics in order of detection: those of the scan, then those
    of the resolver. *)
Definition detected (code : jsstring) : list ParseError :=
  let st := scan_lines 1 (split_lines code)
              {| decls := []; links := []; diags := [] |} in
  diags st ++ snd (resolve (decls st) (links st)).

(** State [Done]. *)
Definition parseCubeGenDSL (code : jsstring) : ParseResult DiagramDocument :=
  let st := scan_lines 1 (split_lines code)
              {| decls := []; links := []; diags := [] |} in
  let '(resolved, unresolved_errs) := resolve (decls st) (links st) in
  match order_errors (diags st ++ unresolved_errs) with
  | [] =>
      {| success := true;
         data := Some {| doc_title := defaultTitle;
                         doc_nodes := List.filter is_node (decls st);
                         doc_containers :=
                           List.filter (fun d => negb (is_node d)) (decls st);
                         doc_links := resolved |};
         errors := [] |}
  | errs => {| success := false; data := None; errors := errs |}
  end.

End Parser.

End CubegenDSL.

(* ===================================================================== *)
(** ** The CodePlayground page: the Generate handler *)
(* ===================================================================== *)

Module CodePlayground.
Import JS CubegenDSL.

(** What [setError] is given. *)
Inductive Banner :=
| PleaseEnterCode                                   (* "Please enter some code." *)
| SyntaxError (l : option Z) (msg : option jsstring). (* "Syntax error on line ..: .." *)

Section Page.

(** [DiagramData] comes from [types], which is not among the sources. *)
Variable DiagramData : Type.

(** The part of the component's state the handler reads or writes. *)
Record State := {
  code : jsstring;
  parseErrors : list ParseError;
  history : list (option DiagramData);
  historyIndex : nat;
  selectedIds : list jsstring;
  error : option Banner;
  successMessage : option jsstring
}.

Variable parseCubeGenDSL : jsstring -> ParseResult DiagramData.

(** [handleGenerate], as the state after the handler's [set...] calls. *)
Definition handleGenerate (st : State) : State :=
  match trim (code st) with
  | [] =>
      {| code := code st; parseErrors := parseErrors st;
         history := history st; historyIndex := historyIndex st;
         selectedIds := selectedIds st;
         error := Some PleaseEnterCode;
         successMessage := successMessage st |}
  | _ :: _ =>
      let result := parseCubeGenDSL (code st) in
      match success result, data result with
      | true, Some d =>
          {| code := code st; parseErrors := [];
             history := [Some d]; historyIndex := 0;
             selectedIds := [];
             error := None;
             successMessage := Some (lit "Diagram Generated!") |}
      | _, _ =>
          {| code := code st; parseErrors := errors result;
             history := history st; historyIndex := historyIndex st;
             selectedIds := selectedIds st;
             error := Some (SyntaxError
                              (option_map line (head (errors result)))
                              (option_map message (head (errors result))));
             successMessage := successMessage st |}
      end
  end.

(** The prop [errorLine={parseErrors[0]?.line}] of the editor. *)
Definition errorLine (st : State) : option Z :=
  option_map line (head (parseErrors st)).

(** The rows the editor draws for the page's state. *)
Definition editor_rows (st : State) : list CodeEditor.Row :=
  CodeEditor.rows (code st) (errorLine st).

(** Modelled from the spec: the parser is not among the sources.  Section
    4.5 of the specification: when the error list is non-empty the function
    signals failure (and returns all collected errors, never a half-built
    document). *)
Definition signals_failure_on_errors (r : ParseResult DiagramData) : Prop :=
  errors r <> [] -> success r = false.

(** The parser reports failure: [!(result.success && result.data)]. *)
Definition reports_failure (r : ParseResult DiagramData) : Prop :=
  success r = false \/ data r = None.

End Page.

Arguments code {DiagramData} _.
Arguments parseErrors {DiagramData} _.
Arguments history {DiagramData} _.
Arguments historyIndex {DiagramData} _.
Arguments selectedIds {DiagramData} _.
Arguments error {DiagramData} _.
Arguments successMessage {DiagramData} _.
Arguments handleGenerate {DiagramData} _ _.
Arguments errorLine {DiagramData} _.
Arguments editor_rows {DiagramData} _.
Arguments reports_failure {DiagramData} _.
Arguments signals_failure_on_errors {DiagramData} _.

(** A page state and a parse result to run the handler on. *)
Definition sample_state : State nat :=
  {| code := lit "node a" ++ [newline] ++ lit "oops";
     parseErrors := [];
     history := [Some 5]; historyIndex := 0;
     selectedIds := [lit "a"];
     error := None; successMessage := None |}.

Definition sample_failure (_ : jsstring) : ParseResult nat :=
  {| success := false; data := None;
     errors := [ {| line := 2; message := lit "unrecognized statement" |};
                 {| line := 5; message := lit "missing label" |} ] |}.

End CodePlayground.

(* ===================================================================== *)
(** ** src/services/projectStore.ts *)
(* ===================================================================== *)

Module ProjectStore.
Import JS.

Definition STORAGE_PREFIX : jsstring := lit "cubegen-project:".

Section Store.

(** [DiagramData] comes from [types], which is not among the sources. *)
Variable DiagramData : Type.

Record SavedProject := {
  key : jsstring;
  diagramData : DiagramData;
  code : option jsstring;
  savedAt : jsstring
}.

(** [{ ...parsed, storageKey: k }]. *)
Record ArchivedProject := {
  project : SavedProject;
  storageKey : jsstring
}.

(** The environment of the module.
    - [JSON.stringify] on an entry: [None] when it throws.
    - [JSON.parse(raw) as SavedProject]: [None] when it throws.
    - [localStorage.key(i)] for [i = 0 .. length-1]: the order in which the
      browser enumerates the keys of a store.
    - [new Date(s).getTime()]: [None] for an invalid date (NaN). *)
Variable JSON_stringify : SavedProject -> option jsstring.
Variable JSON_parse : jsstring -> option SavedProject.
Variable storage_keys : gmap jsstring jsstring -> list jsstring.
Variable getTime : jsstring -> option Z.

(** [localStorage] is a finite map from keys to strings; the clock reading
    [new Date().toISOString()] is the argument [now]. *)

Definition saveProject (now : jsstring) (k : jsstring) (d : DiagramData)
  (c : option jsstring) (ls : gmap jsstring jsstring) : gmap jsstring jsstring :=
  let entry := {| key := k; diagramData := d; code := c; savedAt := now |} in
  match JSON_stringify entry with
  | Some raw => <[STORAGE_PREFIX ++ k := raw]> ls
  | None => ls                            (* caught, logged *)
  end.

Definition loadProject (k : jsstring) (ls : gmap jsstring jsstring)
  : option SavedProject :=
  match ls !! (STORAGE_PREFIX ++ k) with
  | None => None
  | Some [] => None                       (* [if (!raw) return null] *)
  | Some raw => JSON_parse raw            (* [None]: caught, null *)
  end.

(** [now.replace(/[:.]/g, '-')]. *)
Definition archive_timestamp (now : jsstring) : jsstring :=
  List.map (fun c => if N.eqb c colon || N.eqb c dot then minus else c) now.

Definition archiveKey (k now : jsstring) : jsstring :=
  STORAGE_PREFIX ++ lit "archive:" ++ k ++ lit ":" ++ archive_timestamp now.

Definition archiveProject (now : jsstring) (k : jsstring)
  (ls : gmap jsstring jsstring) : gmap jsstring jsstring :=
  match ls !! (STORAGE_PREFIX ++ k) with
  | None => ls
  | Some [] => ls
  | Some raw => delete (STORAGE_PREFIX ++ k) (<[archiveKey k now := raw]> ls)
  end.

(** The body of the [for] loop of [listArchivedProjects], over the keys in
    enumeration order.  A [JSON.parse] that throws leaves the loop through
    the [catch]: what was pushed so far is kept. *)
Fixpoint collect_archives (archivePrefix : jsstring)
  (ls : gmap jsstring jsstring) (ks : list jsstring) : list ArchivedProject :=
  match ks with
  | [] => []
  | k :: rest =>
      if startsWith k archivePrefix then
        match ls !! k with
        | None | Some [] => collect_archives archivePrefix ls rest
        | Some raw =>
            match JSON_parse raw with
            | Some parsed =>
                {| project := parsed; storageKey := k |}
                :: collect_archives archivePrefix ls rest
            | None => []
            end
        end
      else collect_archives archivePrefix ls rest
  end.

(** The comparator [(a, b) => getTime(b.savedAt) - getTime(a.savedAt)];
    a NaN result counts as zero. *)
Definition newest_first (a b : ArchivedProject) : Z :=
  match getTime (savedAt (project b)), getTime (savedAt (project a)) with
  | Some tb, Some ta => (tb - ta)%Z
  | _, _ => 0%Z
  end.

(** [Array.prototype.sort] (stable). *)
Fixpoint sort_insert (cmp : ArchivedProject -> ArchivedProject -> Z)
  (a : ArchivedProject) (l : list ArchivedProject) : list ArchivedProject :=
  match l with
  | [] => [a]
  | b :: rest =>
      if (cmp a b <=? 0)%Z then a :: l else b :: sort_insert cmp a rest
  end.

Definition sort (cmp : ArchivedProject -> ArchivedProject -> Z)
  (l : list ArchivedProject) : list ArchivedProject :=
  fold_right (sort_insert cmp) [] l.

Definition listArchivedProjects (playgroundKey : jsstring)
  (ls : gmap jsstring jsstring) : list ArchivedProject :=
  let archivePrefix := STORAGE_PREFIX ++ lit "archive:" ++ playgroundKey ++ lit ":" in
  sort newest_first (collect_archives archivePrefix ls (storage_keys ls)).

End Store.

Arguments key {DiagramData} _.
Arguments diagramData {DiagramData} _.
Arguments code {DiagramData} _.
Arguments savedAt {DiagramData} _.
Arguments project {DiagramData} _.
Arguments storageKey {DiagramData} _.
Arguments saveProject {DiagramData} _ _ _ _ _ _.
Arguments loadProject {DiagramData} _ _ _.
Arguments archiveProject _ _ _ : clear implicits.
Arguments listArchivedProjects {DiagramData} _ _ _ _ _.
Arguments collect_archives {DiagramData} _ _ _ _.
Arguments sort_insert {DiagramData} _ _ _.
Arguments sort {DiagramData} _ _.
Arguments newest_first {DiagramData} _ _ _.

(** A small serialiser with which the store can be run: every field is
    written as its length followed by its characters.  It stands in for
    [JSON.stringify] and [JSON.parse] where a concrete codec is needed. *)
Module Codec.

Definition put (s : jsstring) : jsstring := N.of_nat (List.length s) :: s.

Definition get (s : jsstring) : option (jsstring * jsstring) :=
  match s with
  | [] => None
  | n :: rest =>
      if (N.to_nat n <=? List.length rest)%nat
      then Some (firstn (N.to_nat n) rest, skipn (N.to_nat n) rest)
      else None
  end.

Definition stringify (e : SavedProject jsstring) : option jsstring :=
  Some (lbrace :: put (key e) ++ put (diagramData e)
          ++ match code e with
             | Some c => 1%N :: put c
             | None => [0%N]
             end
          ++ put (savedAt e)).

Definition parse (s : jsstring) : option (SavedProject jsstring) :=
  match s with
  | b :: s0 =>
      if N.eqb b lbrace then
        match get s0 with
        | Some (k, s1) =>
            match get s1 with
            | Some (d, tag :: s2) =>
                if N.eqb tag 1 then
                  match get s2 with
                  | Some (c, s3) =>
                      match get s3 with
                      | Some (t, []) =>
                          Some {| key := k; diagramData := d;
                                  code := Some c; savedAt := t |}
                      | _ => None
                      end
                  | None => None
                  end
                else
                  match get s2 with
                  | Some (t, []) =>
                      Some {| key := k; diagramData := d;
                              code := None; savedAt := t |}
                  | _ => None
                  end
            | _ => None
            end
        | None => None
        end
      else None
  | [] => None
  end.

(** Keys in the order [map_to_list] gives them. *)
Definition keys (ls : gmap jsstring jsstring) : list jsstring :=
  List.map fst (map_to_list ls).

(** A clock reading, a project and a store to run the module on. *)
Definition sample_now : jsstring := lit "2024-05-01T10:00:00.000Z".
Definition sample_key : jsstring := lit "code-playground".
Definition sample_diagram : jsstring := lit "{nodes:[],links:[]}".
Definition sample_code : option jsstring := Some (lit "node a: x").

Definition sample_entry : SavedProject jsstring :=
  {| key := sample_key; diagramData := sample_diagram;
     code := sample_code; savedAt := sample_now |}.

Definition sample_raw : jsstring :=
  match stringify sample_entry with
  | Some raw => raw
  | None => []
  end.

Definition sample_store : gmap jsstring jsstring :=
  <[STORAGE_PREFIX ++ sample_key := sample_raw]> ∅.

(** A reading of [new Date(s).getTime()] to run the listing with: the
    digits of the text, in order, as one number.  For times written in the
    format of [toISOString] it orders them as the dates do. *)
Definition clock (s : jsstring) : option Z :=
  Some (fold_left (fun acc c => if is_digit c
                                then (acc * 10 + (Z.of_N c - 48))%Z
                                else acc) s 0%Z).

(** A store with two archives: the sample project archived, then a project
    saved a day later and archived as well. *)
Definition sample_later : jsstring := lit "2024-05-02T09:30:00.000Z".

Definition sample_later_entry : SavedProject jsstring :=
  {| key := sample_key; diagramData := lit "{nodes:[a],links:[]}";
     code := None; savedAt := sample_later |}.

Definition sample_archives : gmap jsstring jsstring :=
  archiveProject sample_later sample_key
    (saveProject stringify sample_later sample_key
       (lit "{nodes:[a],links:[]}") None
       (archiveProject sample_now sample_key sample_store)).

(** The sample store with, under an archive key of the project, a text
    that is no JSON. *)
Definition sample_unreadable : gmap jsstring jsstring :=
  <[STORAGE_PREFIX ++ lit "archive:" ++ sample_key ++ lit ":old" := lit "not json"]>
    sample_store.

End Codec.

End ProjectStore.

(* ===================================================================== *)
(** ** src/components/content/iconConstants.tsx *)
(* ===================================================================== *)

Module IconConstants.
Import JS.

Section Icons.

(** React elements: the values of [BASE_ICONS]. *)
Variable Element : Type.

(** A [React.ReactNode] of the table: an element (base icons) or a string
    (the cloud library is a [Record<string, string>]). *)
Inductive ReactNode :=
| Node (e : Element)
| Text (s : jsstring).

(** [BASE_ICONS] (module [baseIcons]) and [IconType.Generic] (module
    [types]) are not among the sources; they are parameters.  A lookup that
    gives [None] is JavaScript's [undefined]. *)
Variable BASE_ICONS : gmap jsstring ReactNode.
Variable Generic : jsstring.

(** [BASE_ICONS] and the cloud library are ordinary objects: next to their
    own entries they have the properties they inherit from
    [Object.prototype] ([toString], [constructor], [hasOwnProperty], ...),
    whose values are no icons.  The maps above hold the own entries;
    [Object_prototype] holds the inherited ones. *)
Variable Inherited : Type.
Variable Object_prototype : gmap jsstring Inherited.

(** What a property access can give. *)
Inductive PropertyValue :=
| IconValue (icon : ReactNode)
| InheritedValue (v : Inherited).

(** [prop in obj]: an own entry, or one found along the prototype chain. *)
Definition has_property {V : Type} (own : gmap jsstring V) (prop : jsstring)
  : bool :=
  bool_decide (is_Some (own !! prop))
  || bool_decide (is_Some (Object_prototype !! prop)).

(** [obj[prop]]: the own entry, else the inherited one, else [undefined]
    ([None]).  [as_node] reads an own entry as a React node. *)
Definition get_property {V : Type} (as_node : V -> ReactNode)
  (own : gmap jsstring V) (prop : jsstring) : option PropertyValue :=
  match own !! prop with
  | Some v => Some (IconValue (as_node v))
  | None => InheritedValue <$> Object_prototype !! prop
  end.

(** The module-level variables. *)
Record CloudState := {
  CLOUD_ICONS_LOADED : bool;
  CLOUD_ICONS_CACHE : gmap jsstring jsstring;
  cloudIconsLoadPromise : bool        (* [true]: not null *)
}.

Definition initial : CloudState :=
  {| CLOUD_ICONS_LOADED := false; CLOUD_ICONS_CACHE := ∅;
     cloudIconsLoadPromise := false |}.

(** The three states of the cache. *)
Inductive Phase := Unloaded | Loading | Loaded.

Definition phase (st : CloudState) : Phase :=
  if CLOUD_ICONS_LOADED st then Loaded
  else if cloudIconsLoadPromise st then Loading
  else Unloaded.

(** The synchronous part of [loadCloudIcons]: start the import unless the
    library is loaded or an import is under way. *)
Definition loadCloudIcons (st : CloudState) : CloudState :=
  if CLOUD_ICONS_LOADED st then st
  else if cloudIconsLoadPromise st then st
  else {| CLOUD_ICONS_LOADED := false;
          CLOUD_ICONS_CACHE := CLOUD_ICONS_CACHE st;
          cloudIconsLoadPromise := true |}.

(** The import settles: with the library, or with an error (caught; the
    cache stays as it was and the library counts as loaded). *)
Definition import_settled (lib : option (gmap jsstring jsstring))
  (st : CloudState) : CloudState :=
  match lib with
  | Some icons =>
      {| CLOUD_ICONS_LOADED := true; CLOUD_ICONS_CACHE := icons;
         cloudIconsLoadPromise := cloudIconsLoadPromise st |}
  | None =>
      {| CLOUD_ICONS_LOADED := true;
         CLOUD_ICONS_CACHE := CLOUD_ICONS_CACHE st;
         cloudIconsLoadPromise := cloudIconsLoadPromise st |}
  end.

(** The [get] trap of the [ICONS] proxy: the value of [ICONS[prop]] and the
    module state after the access. *)
Definition ICONS_get (st : CloudState) (prop : jsstring)
  : option PropertyValue * CloudState :=
  (* [if (prop in BASE_ICONS) return BASE_ICONS[prop]] *)
  if has_property BASE_ICONS prop
  then (get_property (fun icon => icon) BASE_ICONS prop, st)
  (* [if (CLOUD_ICONS_LOADED && prop in CLOUD_ICONS_CACHE)
         return CLOUD_ICONS_CACHE[prop]] *)
  else if CLOUD_ICONS_LOADED st && has_property (CLOUD_ICONS_CACHE st) prop
  then (get_property Text (CLOUD_ICONS_CACHE st) prop, st)
  (* [if (!CLOUD_ICONS_LOADED) loadCloudIcons();
      return BASE_ICONS[IconType.Generic]] *)
  else
    (get_property (fun icon => icon) BASE_ICONS Generic,
     if negb (CLOUD_ICONS_LOADED st) then loadCloudIcons st else st).

End Icons.

(** A value of [IconType.Generic] to run the lookup with. *)
Definition sample_generic : jsstring := lit "generic".

Arguments Node {Element} _.
Arguments Text {Element} _.
Arguments IconValue {Element Inherited} _.
Arguments InheritedValue {Element Inherited} _.
Arguments has_property {Inherited} _ {V} _ _.
Arguments get_property {Element Inherited} _ {V} _ _ _.
Arguments ICONS_get {Element} _ _ {Inherited} _ _ _.

(** Objects to run the lookup on: a table of base icons that holds the
    generic icon only, and some of the properties every ordinary object
    inherits (their values are functions, written here as their source
    text). *)
Definition sample_base : gmap jsstring (ReactNode nat) :=
  <[sample_generic := Node 0]> ∅.

Definition sample_prototype : gmap jsstring jsstring :=
  <[lit "toString" := lit "function toString() { [native code] }"]>
    (<[lit "constructor" := lit "function Object() { [native code] }"]>
       (<[lit "hasOwnProperty" := lit "function hasOwnProperty() { [native code] }"]> ∅)).

(** The module state once a cloud library with one icon has been loaded. *)
Definition sample_loaded : CloudState :=
  {| CLOUD_ICONS_LOADED := true;
     CLOUD_ICONS_CACHE := <[lit "aws-s3" := lit "<svg/>"]> ∅;
     cloudIconsLoadPromise := true |}.

End IconConstants.

(* ===================================================================== *)
(** ** src/components/CodeEditor.tsx: the component around the highlighter *)
(* ===================================================================== *)

Module EditorView.
Import JS CodeEditor.

(** What a browser shows for a string of tags and character data (the
    [textContent] of the element it is set on as [innerHTML]): a tag, from
    its [<] to the next [>], shows nothing; the entities [&amp;], [&lt;],
    [&gt;] show their character; every other character shows itself.
    [in_tag]: inside a tag; [skip]: characters of an entity still to pass. *)
Fixpoint html_text (in_tag : bool) (skip : nat) (s : jsstring) : jsstring :=
  match s with
  | [] => []
  | c :: r =>
      match skip with
      | S k => html_text in_tag k r
      | O =>
          if in_tag then html_text (negb (N.eqb c gt)) 0 r
          else if N.eqb c lt then html_text true 0 r
          else if N.eqb c amp then
            if startsWith r (lit "amp;") then amp :: html_text false 4 r
            else if startsWith r (lit "lt;") then lt :: html_text false 3 r
            else if startsWith r (lit "gt;") then gt :: html_text false 3 r
            else amp :: html_text false 0 r
          else c :: html_text false 0 r
      end
  end.

Definition textContent (s : jsstring) : jsstring := html_text false 0 s.

(** [lines.length] for [lines = value.split('\\n')]. *)
Definition lineCount (value : jsstring) : nat :=
  List.length (split_lines value).

(** [updateActiveLine]: the line number set for the cursor position [pos]
    ([textarea.selectionStart]):
    [value.substring(0, pos).split('\\n').length]. *)
Definition updateActiveLine (value : jsstring) (pos : nat) : nat :=
  List.length (split_lines (substring value 0 pos)).

(** The index of the last occurrence of [c] in [l], counted from [idx],
    or [acc] when there is none. *)
Fixpoint last_index (c : N) (l : jsstring) (idx acc : Z) : Z :=
  match l with
  | [] => acc
  | x :: r => last_index c r (idx + 1) (if N.eqb x c then idx else acc)
  end.

(** [s.lastIndexOf(c, position)] for a one-character search string: the
    start of the backwards search is [position] clamped between 0 and
    [s.length - 1]; -1 when there is no occurrence at or before it. *)
Definition lastIndexOf (s : jsstring) (c : N) (position : Z) : Z :=
  let start := Z.min (Z.max position 0) (Z.of_nat (List.length s) - 1) in
  last_index c (firstn (Z.to_nat (start + 1)) s) 0 (-1).

(** The column of the status bar, for the cursor position [pos]:
    [lineStart = value.lastIndexOf('\\n', pos - 1) + 1] and
    [pos - lineStart + 1]. *)
Definition cursorColumn (value : jsstring) (pos : nat) : Z :=
  let lineStart := (lastIndexOf value newline (Z.of_nat pos - 1) + 1)%Z in
  (Z.of_nat pos - lineStart + 1)%Z.

(** The Tab key in [handleKeyDown], with the selection from [start] to
    [stop]: the new value given to [onChange] and the cursor position set
    afterwards. *)
Definition handleTab (value : jsstring) (start stop : nat) : jsstring * nat :=
  (substring value 0 start ++ lit "    "
     ++ substring value stop (List.length value),
   start + 4).

(** The line number set after the Tab key.  [handleKeyDown] ends with
    [requestAnimationFrame(updateActiveLine)]: the callback it passes is the
    one of the render in which the key was pressed, which closes over the
    text [value] of that render, not over the new text given to [onChange];
    it runs after the callback that puts the cursor behind the four
    spaces. *)
Definition activeLineAfterTab (value : jsstring) (start stop : nat) : nat :=
  updateActiveLine value (snd (handleTab value start stop)).

(** The text between the last line feed of [s] and its end: the last
    element of [s.split('\\n')]. *)
Definition currentLine (s : jsstring) : jsstring := List.last (split_lines s) [].

(** The empty rows under the text: [lineCount < 15 && Array.from({ length:
    15 - lineCount })]. *)
Definition padRows (value : jsstring) : nat :=
  if lineCount value <? 15 then 15 - lineCount value else 0.

(** [minHeight: Math.max(lineCount, 15) * 24] of the textarea, and the
    [minHeight: 24] of every row of the mirror. *)
Definition textareaMinHeight (value : jsstring) : nat :=
  Nat.max (lineCount value) 15 * 24.

Definition mirrorMinHeight (value : jsstring) (errorLine : option Z) : nat :=
  (List.length (rows value errorLine) + padRows value) * 24.

End EditorView.

(* ===================================================================== *)
(** ** The CodePlayground page: history, resume and new project *)
(* ===================================================================== *)

Module PageHandlers.
Import JS CubegenDSL CodePlayground.

Definition CODE_PROJECT_KEY : jsstring := lit "code-playground".

(** A quoted label of the example. *)
Definition quoted (s : string) : jsstring := [dquote] ++ lit s ++ [dquote].

(** Joins lines with line feeds, as the template literal has them. *)
Fixpoint join_lines (ls : list jsstring) : jsstring :=
  match ls with
  | [] => []
  | [l] => l
  | l :: rest => l ++ [newline] ++ join_lines rest
  end.

Definition EXAMPLE_CODE : jsstring :=
  join_lines
    [ lit "// Simple Web Application Architecture";
      lit "node user: " ++ quoted "User" ++ lit " icon=User x=100 y=200";
      lit "node lb: " ++ quoted "Load Balancer" ++ lit " icon=LoadBalancer x=300 y=200";
      lit "node api: " ++ quoted "API Server" ++ lit " icon=Api x=500 y=200";
      lit "node db: " ++ quoted "Database" ++ lit " icon=Database x=700 y=200";
      [];
      lit "user -> lb: " ++ quoted "HTTPS";
      lit "lb -> api: " ++ quoted "Route";
      lit "api -> db: " ++ quoted "Query" ].

(** [copy[i] = x] on a JavaScript array: an index past the end grows the
    array, the slots in between are holes, which read as [undefined]
    ([hole]). *)
Definition array_set {A : Type} (hole : A) (l : list A) (i : nat) (x : A)
  : list A :=
  if i <? List.length l then <[i:=x]> l
  else l ++ repeat hole (i - List.length l) ++ [x].

Section Handlers.

Variable DiagramData : Type.

(** [diagramData.nodes.length], of a type that is not among the sources. *)
Variable nodeCount : DiagramData -> nat.

(** The modal and mode flags of the page, next to its [State]. *)
Record Page := {
  state : State DiagramData;
  isPlaygroundMode : bool;
  showResumeModal : bool;
  hasChosen : bool
}.

Definition with_history (st : State DiagramData)
  (h : list (option DiagramData)) (i : nat) (sel : list jsstring)
  : State DiagramData :=
  {| code := code st; parseErrors := parseErrors st;
     history := h; historyIndex := i; selectedIds := sel;
     error := error st; successMessage := successMessage st |}.

(** [const diagramData = history[historyIndex]]; out of range it is
    [undefined], which the page treats like [null] ([!diagramData]). *)
Definition diagramData (st : State DiagramData) : option DiagramData :=
  match nth_error (history st) (historyIndex st) with
  | Some d => d
  | None => None
  end.

(** [handleDiagramUpdate(newData, fromHistory)] (the same code in
    VisualPlayground). *)
Definition handleDiagramUpdate (newData : DiagramData) (fromHistory : bool)
  (st : State DiagramData) : State DiagramData :=
  if fromHistory then
    with_history st
      (array_set None (history st) (historyIndex st) (Some newData))
      (historyIndex st) (selectedIds st)
  else
    let newHistory := firstn (historyIndex st + 1) (history st) in
    with_history st (newHistory ++ [Some newData]) (List.length newHistory)
      (selectedIds st).

Definition canUndo (st : State DiagramData) : bool := 0 <? historyIndex st.

Definition canRedo (st : State DiagramData) : bool :=
  historyIndex st <? List.length (history st) - 1.

Definition handleUndo (st : State DiagramData) : State DiagramData :=
  if 0 <? historyIndex st
  then with_history st (history st) (historyIndex st - 1) []
  else st.

Definition handleRedo (st : State DiagramData) : State DiagramData :=
  if historyIndex st <? List.length (history st) - 1
  then with_history st (history st) (historyIndex st + 1) []
  else st.

(** [handleResume]. *)
Definition handleResume (p : Page) : Page :=
  {| state := state p; isPlaygroundMode := isPlaygroundMode p;
     showResumeModal := false; hasChosen := true |}.

(** [handleNewProject]: the page after it, and the store after the call of
    [archiveProject] it makes at the time [now]. *)
Definition handleNewProject (now : jsstring) (p : Page)
  (ls : gmap jsstring jsstring) : Page * gmap jsstring jsstring :=
  ({| state := {| code := EXAMPLE_CODE; parseErrors := [];
                  history := [None]; historyIndex := 0; selectedIds := [];
                  error := error (state p);
                  successMessage := successMessage (state p) |};
      isPlaygroundMode := false; showResumeModal := false; hasChosen := true |},
   ProjectStore.archiveProject now CODE_PROJECT_KEY ls).

(** [handleLoadArchived(project)]: [if (project.code) setCode(...)], and the
    diagram of an archived project is an object, so it is set. *)
Definition handleLoadArchived (a : ProjectStore.ArchivedProject DiagramData)
  (p : Page) : Page :=
  let saved := ProjectStore.project a in
  {| state :=
       {| code := match ProjectStore.code saved with
                  | Some (c :: cs) => c :: cs
                  | _ => code (state p)
                  end;
          parseErrors := parseErrors (state p);
          history := [Some (ProjectStore.diagramData saved)];
          historyIndex := 0; selectedIds := [];
          error := error (state p);
          successMessage := successMessage (state p) |};
     isPlaygroundMode := 0 <? nodeCount (ProjectStore.diagramData saved);
     showResumeModal := false; hasChosen := true |}.

(** The state of the page when it mounts, from what [loadProject] finds
    ([saved]): the initialisers of its [useState] calls. *)
Definition mount (saved : option (ProjectStore.SavedProject DiagramData)) : Page :=
  let hasSavedProject :=
    match saved with
    | Some s => 0 <? nodeCount (ProjectStore.diagramData s)
    | None => false
    end in
  {| state :=
       {| code := match saved with
                  | Some s =>
                      match ProjectStore.code s with
                      | Some (c :: cs) => c :: cs      (* [saved?.code || ...] *)
                      | _ => EXAMPLE_CODE
                      end
                  | None => EXAMPLE_CODE
                  end;
          parseErrors := [];
          history := match saved with
                     | Some s => [Some (ProjectStore.diagramData s)]
                     | None => [None]
                     end;
          historyIndex := 0;
          selectedIds := [];
          error := None;
          successMessage := None |};
     isPlaygroundMode := hasSavedProject;
     showResumeModal := hasSavedProject;
     hasChosen := negb hasSavedProject |}.

(** What the page passes to [useAutoSave]: [hasChosen ? diagramData : null]
    and [hasChosen ? code : undefined]; the hook saves nothing for
    [null]. *)
Definition autoSaveArguments (p : Page)
  : option (DiagramData * option jsstring) :=
  if hasChosen p then
    match diagramData (state p) with
    | Some d => Some (d, Some (code (state p)))
    | None => None
    end
  else None.

(** The index points into the history. *)
Definition index_in_range (st : State DiagramData) : Prop :=
  historyIndex st < List.length (history st).

End Handlers.

Arguments state {DiagramData} _.
Arguments isPlaygroundMode {DiagramData} _.
Arguments showResumeModal {DiagramData} _.
Arguments hasChosen {DiagramData} _.
Arguments diagramData {DiagramData} _.
Arguments handleDiagramUpdate {DiagramData} _ _ _.
Arguments canUndo {DiagramData} _.
Arguments canRedo {DiagramData} _.
Arguments handleUndo {DiagramData} _.
Arguments handleRedo {DiagramData} _.
Arguments handleResume {DiagramData} _.
Arguments handleNewProject {DiagramData} _ _ _.
Arguments handleLoadArchived {DiagramData} _ _ _.
Arguments mount {DiagramData} _ _.
Arguments autoSaveArguments {DiagramData} _.
Arguments index_in_range {DiagramData} _.

End PageHandlers.

(* ===================================================================== *)
(** ** src/services/projectStore.ts: listing, deleting, the disk copy *)
(* ===================================================================== *)

Module StoreOps.
Import JS ProjectStore.

Section Ops.

Variable DiagramData : Type.
Variable JSON_stringify : SavedProject DiagramData -> option jsstring.
Variable JSON_parse : jsstring -> option (SavedProject DiagramData).
Variable storage_keys : gmap jsstring jsstring -> list jsstring.
Variable getTime : jsstring -> option Z.

(** [deleteProject(key)]. *)
Definition deleteProject (k : jsstring) (ls : gmap jsstring jsstring)
  : gmap jsstring jsstring :=
  delete (STORAGE_PREFIX ++ k) ls.

(** [deleteArchivedProject(storageKey)]. *)
Definition deleteArchivedProject (sk : jsstring) (ls : gmap jsstring jsstring)
  : gmap jsstring jsstring :=
  delete sk ls.

(** The loop of [listProjects] over the keys in enumeration order; as in
    [listArchivedProjects], a [JSON.parse] that throws ends the loop. *)
Fixpoint collect_projects (ls : gmap jsstring jsstring) (ks : list jsstring)
  : list (SavedProject DiagramData) :=
  match ks with
  | [] => []
  | k :: rest =>
      if startsWith k STORAGE_PREFIX then
        match ls !! k with
        | None | Some [] => collect_projects ls rest
        | Some raw =>
            match JSON_parse raw with
            | Some parsed => parsed :: collect_projects ls rest
            | None => []
            end
        end
      else collect_projects ls rest
  end.

Definition listProjects (ls : gmap jsstring jsstring)
  : list (SavedProject DiagramData) :=
  collect_projects ls (storage_keys ls).

(** [new Date(a.savedAt) > new Date(b.savedAt)]: false when either date is
    invalid. *)
Definition saved_later (a b : SavedProject DiagramData) : bool :=
  match getTime (savedAt a), getTime (savedAt b) with
  | Some ta, Some tb => (tb <? ta)%Z
  | _, _ => false
  end.

(** [JSON.parse(raw)] is [null], without throwing: the text is the JSON
    literal [null].  [JSON_parse] gives [None] for such a text, as it does
    for one that makes [JSON.parse] throw: [loadProject] returns [null] for
    both.  [loadFromDisk] goes on after the parse, so it needs to tell the
    two apart. *)
Variable parses_to_null : jsstring -> bool.

(** [loadFromDisk(key)], after the disk has answered: [autoLoadFromDisk] is
    the bridge function when there is one, and its answer [None] stands for
    [null] (no file, or a failure to read it).  The result is what the
    function resolves to, with the store as it leaves it. *)
Definition loadFromDisk (autoLoadFromDisk : option (jsstring -> option jsstring))
  (k : jsstring) (ls : gmap jsstring jsstring)
  : option (SavedProject DiagramData) * gmap jsstring jsstring :=
  match autoLoadFromDisk with
  | None => (None, ls)
  | Some load =>
      match load k with
      | None | Some [] => (None, ls)
      | Some raw =>
          if parses_to_null raw then
            (* [diskProject] is [null] *)
            match loadProject JSON_parse k ls with
            | None =>
                (* [!localProject]: [setItem(..., JSON.stringify(null))],
                   then [return diskProject] *)
                (None, <[STORAGE_PREFIX ++ k := lit "null"]> ls)
            | Some _ =>
                (* [diskProject.savedAt] throws; caught *)
                (None, ls)
            end
          else
          match JSON_parse raw with
          | None => (None, ls)                       (* caught *)
          | Some diskProject =>
              let localProject := loadProject JSON_parse k ls in
              let take_disk :=
                match JSON_stringify diskProject with
                | Some s => (Some diskProject, <[STORAGE_PREFIX ++ k := s]> ls)
                | None => (None, ls)                 (* caught *)
                end in
              match localProject with
              | None => take_disk
              | Some l =>
                  if saved_later diskProject l then take_disk
                  else (Some l, ls)
              end
          end
      end
  end.

(** [persistAllToDisk()]: the calls [autoSaveToDisk(p.key, JSON.stringify(p))]
    it makes, in order, when the bridge is there; a [JSON.stringify] that
    throws is caught and the loop goes on. *)
Definition persistAllToDisk (bridge : bool) (ls : gmap jsstring jsstring)
  : list (jsstring * jsstring) :=
  if bridge then
    flat_map (fun p => match JSON_stringify p with
                       | Some s => [(key p, s)]
                       | None => []
                       end)
             (listProjects ls)
  else [].

(** The time of an archived project, 0 for an invalid date. *)
Definition saved_time (a : ArchivedProject DiagramData) : Z :=
  match getTime (savedAt (project a)) with
  | Some t => t
  | None => 0%Z
  end.

End Ops.

Arguments deleteProject _ _ : clear implicits.
Arguments deleteArchivedProject _ _ : clear implicits.
Arguments collect_projects {DiagramData} _ _ _.
Arguments listProjects {DiagramData} _ _ _.
Arguments saved_later {DiagramData} _ _ _.
Arguments loadFromDisk {DiagramData} _ _ _ _ _ _ _.
Arguments persistAllToDisk {DiagramData} _ _ _ _ _.
Arguments saved_time {DiagramData} _ _.

End StoreOps.

(* ===================================================================== *)
(** ** src/components/content/iconConstants.tsx: the other traps *)
(* ===================================================================== *)

Module IconProxy.
Import JS IconConstants.

(** [[...new Set(l)]]: the first occurrence of every key, in order. *)
Fixpoint dedup_from (seen : list jsstring) (l : list jsstring) : list jsstring :=
  match l with
  | [] => []
  | x :: r =>
      if existsb (str_eqb x) seen then dedup_from seen r
      else x :: dedup_from (x :: seen) r
  end.

Definition dedup (l : list jsstring) : list jsstring := dedup_from [] l.

Section Proxy.

Variable Element : Type.
Variable BASE_ICONS : gmap jsstring (ReactNode Element).
Variable Generic : jsstring.
Variable Inherited : Type.
Variable Object_prototype : gmap jsstring Inherited.

(** [Object.keys(BASE_ICONS)] and [Object.keys] of a cloud library (the own
    enumerable keys; inherited ones are not among them): the order of
    enumeration is the engine's. *)
Variable base_keys : list jsstring.
Variable object_keys : gmap jsstring jsstring -> list jsstring.

(** The [has] trap: [prop in ICONS]. *)
Definition ICONS_has (st : CloudState) (prop : jsstring) : bool :=
  has_property Object_prototype BASE_ICONS prop
  || (CLOUD_ICONS_LOADED st
      && has_property Object_prototype (CLOUD_ICONS_CACHE st) prop).

(** The [ownKeys] trap. *)
Definition ICONS_ownKeys (st : CloudState) : list jsstring :=
  if CLOUD_ICONS_LOADED st
  then dedup (base_keys ++ object_keys (CLOUD_ICONS_CACHE st))
  else base_keys.

(** The [getOwnPropertyDescriptor] trap: [{ enumerable: true,
    configurable: true }], or [undefined]. *)
Definition ICONS_getOwnPropertyDescriptor (st : CloudState) (prop : jsstring)
  : option (bool * bool) :=
  if has_property Object_prototype BASE_ICONS prop
     || (CLOUD_ICONS_LOADED st
         && has_property Object_prototype (CLOUD_ICONS_CACHE st) prop)
  then Some (true, true)
  else None.

(** [preloadCloudIcons] (its synchronous part) and [areCloudIconsLoaded]. *)
Definition preloadCloudIcons (st : CloudState) : CloudState := loadCloudIcons st.

Definition areCloudIconsLoaded (st : CloudState) : bool := CLOUD_ICONS_LOADED st.

End Proxy.

Arguments ICONS_has {Element} _ {Inherited} _ _ _.
Arguments ICONS_ownKeys _ _ _ : clear implicits.
Arguments ICONS_getOwnPropertyDescriptor {Element} _ {Inherited} _ _ _.

End IconProxy.

(* ===================================================================== *)
(** * Properties *)
(* ===================================================================== *)

(** ** Facts about the string operations *)

Module JSFacts.
Import JS.

Lemma str_eqb_eq (a b : jsstring) : str_eqb a b = true <-> a = b.
Proof.
  revert b; induction a as [|x a IH]; intros [|y b]; simpl; split;
    try congruence; try reflexivity.
  - intros H. apply andb_true_iff in H as [Hx Hab].
    apply N.eqb_eq in Hx. apply IH in Hab. congruence.
  - intros H. injection H as -> ->. rewrite N.eqb_refl. simpl. now apply IH.
Qed.

Lemma startsWith_prefix (s p : jsstring) :
  startsWith s p = true <-> exists r, s = p ++ r.
Proof.
  revert s; induction p as [|y p IH]; intros s; simpl.
  - split; [intros _; now exists s | reflexivity].
  - destruct s as [|x s]; simpl.
    + split; [discriminate | intros [r Hr]; discriminate].
    + rewrite andb_true_iff, N.eqb_eq, IH. split.
      * intros [-> [r ->]]. eauto.
      * intros [r Hr]. injection Hr as -> ->. eauto.
Qed.

Lemma substring_ordered (s : jsstring) (a b : nat) :
  a <= b -> substring s a b = firstn (b - a) (skipn a s).
Proof.
  intros Hab. unfold substring. cbv zeta.
  destruct (Nat.le_gt_cases (List.length s) a) as [Hlen|Hlen].
  - rewrite (Nat.min_r a), (Nat.min_r b) by lia.
    rewrite !skipn_all2 by lia. now rewrite !firstn_nil.
  - rewrite (Nat.min_l a) by lia.
    destruct (Nat.le_gt_cases b (List.length s)) as [Hb|Hb].
    + rewrite (Nat.min_l b) by lia. now rewrite Nat.min_l, Nat.max_r by lia.
    + rewrite (Nat.min_r b) by lia. rewrite Nat.min_l, Nat.max_r by lia.
      rewrite !firstn_all2; try reflexivity; rewrite length_skipn; lia.
Qed.

(** A string that has [p] at index [i] has the first character of [p]
    there. *)
Lemma substring_head (s : jsstring) (i n : nat) (c : N) (p : jsstring) :
  substring s i (i + n) = c :: p -> nth_error s i = Some c.
Proof.
  rewrite substring_ordered by lia. intros H.
  rewrite <- (Nat.add_0_r i) at 1. rewrite <- nth_error_skipn.
  destruct (skipn i s) as [|x r]; [now rewrite firstn_nil in H|].
  destruct (i + n - i) as [|k]; simpl in H; [discriminate|].
  simpl. congruence.
Qed.

Lemma substring_nth (s : jsstring) (i n k : nat) (p : jsstring) (c : N) :
  substring s i (i + n) = p -> nth_error p k = Some c ->
  nth_error s (i + k) = Some c.
Proof.
  rewrite substring_ordered by lia. intros <- H.
  rewrite nth_error_firstn in H.
  destruct (k <? i + n - i); [|discriminate].
  now rewrite nth_error_skipn in H.
Qed.

Lemma while_prefix_all (p : N -> bool) (s : jsstring) :
  forallb p (while_prefix p s) = true.
Proof.
  induction s as [|x s IH]; simpl; [reflexivity|].
  destruct (p x) eqn:E; simpl; [now rewrite E|reflexivity].
Qed.

(** The loop stops at the first character that fails the test, at the
    latest. *)
Lemma while_prefix_stops (p : N -> bool) (s : jsstring) (k : nat) (c : N) :
  nth_error s k = Some c -> p c = false ->
  List.length (while_prefix p s) <= k.
Proof.
  revert k; induction s as [|x s IH]; intros k Hk Hc; simpl.
  - lia.
  - destruct k as [|k]; simpl in Hk.
    + injection Hk as ->. rewrite Hc. simpl. lia.
    + destruct (p x); simpl; [|lia]. specialize (IH k Hk Hc). lia.
Qed.

(** When every character passes the test the loop runs to the end. *)
Lemma while_prefix_whole (p : N -> bool) (s : jsstring) :
  forallb p s = true -> while_prefix p s = s.
Proof.
  induction s as [|x s IH]; simpl; [reflexivity|].
  intros H. apply andb_true_iff in H as [-> Hs]. now rewrite IH.
Qed.

Lemma trimStart_length (s : jsstring) :
  List.length (trimStart s) <= List.length s.
Proof.
  induction s as [|x s IH]; simpl; [lia|].
  destruct (is_js_space x); simpl; lia.
Qed.

Lemma includes_app (pre needle post : jsstring) :
  includes (pre ++ needle ++ post) needle = true.
Proof.
  induction pre as [|x pre IH]; simpl.
  - assert (startsWith (needle ++ post) needle = true) as H
      by (apply startsWith_prefix; eauto).
    destruct (needle ++ post); simpl in *; now rewrite H.
  - rewrite IH. apply orb_true_r.
Qed.

Lemma while_prefix_firstn (p : N -> bool) (s : jsstring) :
  while_prefix p s = firstn (List.length (while_prefix p s)) s.
Proof.
  induction s as [|x s IH]; [reflexivity|]. simpl.
  destruct (p x); [|reflexivity]. simpl. now rewrite <- IH.
Qed.

Lemma substring_cons (line : jsstring) (i n : nat) (ch : N) :
  nth_error line i = Some ch ->
  substring line i (S i + n) = ch :: firstn n (skipn (S i) line).
Proof.
  intros H. rewrite substring_ordered by lia.
  replace (S i + n - i) with (S n) by lia.
  assert (skipn i line = ch :: skipn (S i) line) as ->; [|reflexivity].
  revert i H. induction line as [|x line IH]; intros [|i] H;
    cbn [nth_error skipn] in *; try discriminate.
  - now injection H as ->.
  - now apply IH.
Qed.

Lemma substring_one (line : jsstring) (i : nat) (ch : N) :
  nth_error line i = Some ch -> substring line i (S i) = [ch].
Proof.
  intros H. rewrite <- (Nat.add_0_r (S i)).
  now rewrite (substring_cons _ _ 0 _ H).
Qed.

End JSFacts.

(* ===================================================================== *)
(** ** The highlighter ([CodeEditor.tsx]) *)
(* ===================================================================== *)

Module Highlighter.
Import JS CodeEditor JSFacts.

(** Tries every branch of an iteration of the loop. *)
Ltac step_cases :=
  unfold step;
  repeat match goal with
         | |- context [if ?b then _ else _] => destruct b eqn:?
         end.

(** Every iteration moves the index forward. *)
Lemma step_advances (line : jsstring) (i : nat) (ch : N) :
  i < snd (step line i ch).
Proof. step_cases; simpl; lia. Qed.

(** [line.length - i] iterations are enough from index [i]. *)
Lemma scan_enough_fuel (fuel : nat) : forall (line : jsstring) i out,
  List.length line - i <= fuel -> exists r, scan fuel line i out = Some r.
Proof.
  induction fuel as [|fuel IH]; intros line i out Hf; simpl;
    destruct (nth_error line i) as [ch|] eqn:E; eauto;
    assert (i < List.length line) by (apply nth_error_Some; congruence).
  - exfalso; lia.
  - pose proof (step_advances line i ch) as Ha.
    destruct (step line i ch) as [e i']; simpl in Ha.
    apply IH. lia.
Qed.

(** More fuel than needed changes nothing. *)
Lemma scan_fuel_irrelevant (f1 : nat) : forall f2 (line : jsstring) i out r,
  scan f1 line i out = Some r -> f1 <= f2 -> scan f2 line i out = Some r.
Proof.
  induction f1 as [|f1 IH]; intros f2 line i out r H Hle.
  - simpl in H. destruct (nth_error line i) eqn:E; [discriminate|].
    destruct f2; simpl; now rewrite E.
  - destruct f2 as [|f2]; [lia|]. simpl in *.
    destruct (nth_error line i) as [ch|]; [|assumption].
    destruct (step line i ch) as [e i']. apply IH with (f2 := f2) in H; [assumption|lia].
Qed.

(** The loop only ever appends to [out]. *)
Lemma scan_appends (fuel : nat) : forall (line : jsstring) i out r,
  scan fuel line i out = Some r -> exists post, r = out ++ post.
Proof.
  induction fuel as [|fuel IH]; intros line i out r H; simpl in H;
    destruct (nth_error line i) as [ch|].
  - discriminate.
  - injection H as <-. exists []. now rewrite app_nil_r.
  - destruct (step line i ch) as [e i']. apply IH in H as [post ->].
    exists (e ++ post). now rewrite app_assoc.
  - injection H as <-. exists []. now rewrite app_nil_r.
Qed.

Lemma highlightLine_total (line : jsstring) :
  exists out, highlightLine line = Some out.
Proof.
  unfold highlightLine. destruct line as [|c line]; [eauto|].
  destruct (startsWith _ _); [eauto|].
  apply scan_enough_fuel. lia.
Qed.

(** An opening quote that is never closed: the iteration emits one string
    span holding the rest of the line and leaves the index past the end. *)
Lemma step_unterminated_quote (line : jsstring) (i : nat) :
  nth_error line i = Some dquote ->
  forallb not_dquote (skipn (S i) line) = true ->
  step line i dquote
  = (span T.string (skipn i line) false, S (List.length line)).
Proof.
  intros Hi Hrest.
  assert (i < List.length line) as Hlt by (apply nth_error_Some; congruence).
  unfold step. change (N.eqb dquote space || N.eqb dquote tab) with false.
  change (N.eqb dquote dquote) with true. cbv iota.
  rewrite (while_prefix_whole _ _ Hrest), length_skipn.
  replace (S i + (List.length line - S i)) with (List.length line) by lia.
  rewrite substring_ordered by lia.
  rewrite firstn_all2 by (rewrite length_skipn; lia). reflexivity.
Qed.

(** C6 — [highlightLine] terminates on every line: the scanning loop
    returns within [line.length] iterations; each iteration strictly
    increases the index; and at an opening quote with no closing quote one
    iteration takes the whole rest of the line as a single string span and
    leaves the index beyond the end of the line, where the loop stops. *)
Theorem highlightLine_terminates (line : jsstring) :
  (exists out, highlightLine line = Some out)
  /\ (forall i out, exists r, scan (List.length line - i) line i out = Some r)
  /\ (forall i ch, nth_error line i = Some ch -> i < snd (step line i ch))
  /\ (forall i,
        nth_error line i = Some dquote ->
        forallb not_dquote (skipn (S i) line) = true ->
        step line i dquote
        = (span T.string (skipn i line) false, S (List.length line))
        /\ forall fuel out, scan fuel line (S (List.length line)) out = Some out).
Proof.
  split; [apply highlightLine_total|].
  split; [intros i out; now apply scan_enough_fuel|].
  split; [intros i ch _; apply step_advances|].
  intros i Hi Hrest. split; [now apply step_unterminated_quote|].
  intros fuel out.
  assert (nth_error line (S (List.length line)) = None) as E
    by (apply nth_error_None; lia).
  destruct fuel; cbn [scan]; now rewrite E.
Qed.

(** What the comment branch returns. *)
Lemma highlightLine_comment (line : jsstring) :
  is_comment_line line = true ->
  highlightLine line
  = Some (spaces (List.length line - List.length (trimStart line))
          ++ comment_open ++ esc (trimStart line) ++ span_close).
Proof.
  unfold is_comment_line, highlightLine. intros H.
  destruct line as [|c line]; [discriminate|]. now rewrite H.
Qed.

(** For a comment indented with spaces only, the output is the original
    indentation followed by the comment span. *)
Lemma highlightLine_comment_spaces (n : nat) (text : jsstring) :
  startsWith text (lit "//") = true ->
  highlightLine (spaces n ++ text)
  = Some (spaces n ++ comment_open ++ esc text ++ span_close).
Proof.
  intros H.
  assert (trimStart (spaces n ++ text) = text) as Ht.
  { induction n as [|n IH]; simpl; [|exact IH].
    apply startsWith_prefix in H as [r ->]. reflexivity. }
  rewrite highlightLine_comment by (unfold is_comment_line; now rewrite Ht).
  rewrite Ht, length_app. unfold spaces. rewrite repeat_length.
  now replace (n + List.length text - List.length text) with n by lia.
Qed.

(** C4 — a comment indented with a tab: the line is a comment line, yet the
    output begins with a space where the line has a tab, so what is emitted
    before the comment span is not the original indentation.  (A line that
    is not a comment keeps its tabs: see [step], whitespace branch.) *)
Theorem comment_tab_indent_replaced :
  let line := tab :: lit "// note" in
  is_comment_line line = true
  /\ highlightLine line
     = Some ([space] ++ comment_open ++ esc (lit "// note") ++ span_close)
  /\ highlightLine line
     <> Some ([tab] ++ comment_open ++ esc (lit "// note") ++ span_close)
  /\ highlightLine (tab :: lit "x") = Some (tab :: span T.ident (lit "x") false).
Proof.
  cbv zeta. repeat split; try (vm_compute; reflexivity).
  vm_compute. discriminate.
Qed.

(** Two runs of the highlighter: a link line, and a line whose quote is
    never closed. *)
Example highlight_link_line :
  highlightLine (lit "a <-> b")
  = Some (span T.ident (lit "a") false ++ [space]
          ++ span T.arrow (lit "<->") true ++ [space]
          ++ span T.ident (lit "b") false).
Proof. vm_compute. reflexivity. Qed.

Example highlight_unclosed_quote :
  highlightLine (lit "a: " ++ [dquote] ++ lit "x -> y")
  = Some (span T.ident (lit "a") false ++ span T.gutter (lit ":") false
          ++ [space] ++ span T.string ([dquote] ++ lit "x -> y") false).
Proof. vm_compute. reflexivity. Qed.

(** *** The bidirectional arrow *)

(** With [<->] at the index, the iteration emits the arrow span and moves
    three characters on. *)
Lemma step_bidirectional_arrow (line : jsstring) (i : nat) :
  substring line i (i + 3) = lit "<->" ->
  step line i lt = (span T.arrow (lit "<->") true, i + 3).
Proof.
  intros H. unfold step.
  change (N.eqb lt space || N.eqb lt tab) with false.
  change (N.eqb lt dquote) with false. cbv iota.
  now rewrite H.
Qed.

(** From a state the loop reaches, the loop ends with the result of the
    whole run. *)
Lemma reaches_scan (line : jsstring) (i : nat) (out : jsstring) :
  reaches line i out ->
  scan (List.length line - i) line i out = scan (List.length line) line 0 [].
Proof.
  induction 1 as [|i out ch e i' Hr IH Hch Hstep].
  - now rewrite Nat.sub_0_r.
  - rewrite <- IH.
    assert (i < List.length line) as Hlt by (apply nth_error_Some; congruence).
    pose proof (step_advances line i ch) as Hadv. rewrite Hstep in Hadv. simpl in Hadv.
    destruct (scan_enough_fuel (List.length line - i') line i' (out ++ e))
      as [r Hr']; [lia|].
    rewrite Hr'. symmetry.
    replace (List.length line - i) with (S (List.length line - S i)) by lia.
    cbn [scan]. rewrite Hch, Hstep.
    apply scan_fuel_irrelevant with (f1 := List.length line - i'); [assumption|lia].
Qed.

(** The result of the loop is a state the loop reaches, past the end. *)
Lemma scan_reaches (fuel : nat) : forall (line : jsstring) i out r,
  reaches line i out -> scan fuel line i out = Some r ->
  exists i', reaches line i' r /\ List.length line <= i'.
Proof.
  induction fuel as [|fuel IH]; intros line i out r Hr H; cbn [scan] in H;
    destruct (nth_error line i) as [ch|] eqn:E; try discriminate.
  - injection H as <-. exists i. split; [assumption|now apply nth_error_None].
  - destruct (step line i ch) as [e i'] eqn:Hs.
    eapply IH; [|exact H]. econstructor; eassumption.
  - injection H as <-. exists i. split; [assumption|now apply nth_error_None].
Qed.

(** An iteration that starts before a [<] and on neither a quote nor an
    equals sign does not run past that [<]. *)
Lemma step_stops_at_lt (line : jsstring) (j i : nat) (ch : N) :
  nth_error line j = Some ch ->
  ch <> dquote -> ch <> equals ->
  j < i -> nth_error line i = Some lt ->
  snd (step line j ch) <= i.
Proof.
  intros Hj Hq He Hji Hi.
  assert (forall p k c, str_eqb (substring line j (j + k)) p = true ->
                        forall d, nth_error p d = Some c -> c <> lt ->
                        i <> j + d) as Hpat.
  { intros p k c Hp d Hd Hc ->. apply str_eqb_eq in Hp.
    rewrite (substring_nth _ _ _ _ _ _ Hp Hd) in Hi. congruence. }
  assert (List.length (while_prefix is_word_char (skipn j line)) <= i - j) as Hword.
  { apply while_prefix_stops with (c := lt); [|reflexivity].
    rewrite nth_error_skipn. now replace (j + (i - j)) with i by lia. }
  step_cases; simpl; try lia;
    try (exfalso; apply Hq; now apply N.eqb_eq);
    try (exfalso; apply He; now apply N.eqb_eq);
    match goal with
    | Ha : str_eqb _ (lit "<->") = true |- _ =>
        assert (i <> j + 1)
          by (apply (Hpat _ _ minus Ha 1); [reflexivity|discriminate]);
        assert (i <> j + 2)
          by (apply (Hpat _ _ gt Ha 2); [reflexivity|discriminate]);
        lia
    | Ha : str_eqb _ (lit "->") = true |- _ =>
        assert (i <> j + 1)
          by (apply (Hpat _ _ gt Ha 1); [reflexivity|discriminate]);
        lia
    | _ => simpl in Hword; lia
    end.
Qed.

(** *** Where the loop stands *)

Lemma firstn_snoc_nth (line : jsstring) (j : nat) (c : N) :
  nth_error line j = Some c -> firstn (S j) line = firstn j line ++ [c].
Proof.
  revert j. induction line as [|x line IH]; intros [|j] H;
    cbn [nth_error] in H; try discriminate.
  - now injection H as ->.
  - cbn [firstn app]. now rewrite (IH j H).
Qed.

Lemma lex_mode_before_S (line : jsstring) (j : nat) (c : N) :
  nth_error line j = Some c ->
  lex_mode_before line (S j) = lex_char (lex_mode_before line j) c.
Proof.
  intros H. unfold lex_mode_before.
  now rewrite (firstn_snoc_nth _ _ _ H), fold_left_app.
Qed.

(** Characters that leave a mode as it is leave it so over a whole
    range. *)
Lemma lex_mode_range (line : jsstring) (m : LexMode) (p : N -> bool) (a : nat) :
  (forall c, p c = true -> lex_char m c = m) ->
  lex_mode_before line a = m ->
  forall n,
    (forall k, a <= k < a + n ->
               exists c, nth_error line k = Some c /\ p c = true) ->
    lex_mode_before line (a + n) = m.
Proof.
  intros Hp Ha. induction n as [|n IH]; intros Hrange.
  - now rewrite Nat.add_0_r.
  - destruct (Hrange (a + n)) as (c & Hc & Hpc); [lia|].
    replace (a + S n) with (S (a + n)) by lia.
    rewrite (lex_mode_before_S _ _ _ Hc), IH; [now apply Hp|].
    intros k Hk. apply Hrange. lia.
Qed.

Lemma while_prefix_nth (p : N -> bool) (s : jsstring) (n : nat) :
  n < List.length (while_prefix p s) ->
  exists c, nth_error s n = Some c /\ p c = true.
Proof.
  revert n. induction s as [|x s IH]; intros n Hn; cbn [while_prefix] in Hn.
  - cbn in Hn. lia.
  - destruct (p x) eqn:E; [|cbn in Hn; lia].
    destruct n as [|n]; [cbn; eauto|].
    cbn [List.length] in Hn. cbn [nth_error]. apply IH. lia.
Qed.

Lemma while_prefix_next (p : N -> bool) (s : jsstring) (c : N) :
  nth_error s (List.length (while_prefix p s)) = Some c -> p c = false.
Proof.
  induction s as [|x s IH]; cbn [while_prefix]; [discriminate|].
  destruct (p x) eqn:E; cbn [List.length nth_error]; [exact IH|congruence].
Qed.

(** The characters of a run of the loop's inner [while], by index in the
    line. *)
Lemma while_prefix_range (p : N -> bool) (line : jsstring) (a : nat) :
  forall k, a <= k < a + List.length (while_prefix p (skipn a line)) ->
            exists c, nth_error line k = Some c /\ p c = true.
Proof.
  intros k Hk.
  destruct (while_prefix_nth p (skipn a line) (k - a)) as (c & Hc & Hpc); [lia|].
  rewrite nth_error_skipn in Hc.
  replace (a + (k - a)) with k in Hc by lia. eauto.
Qed.

Lemma plain_char_spec (c : N) :
  plain_char c = true <-> c <> dquote /\ c <> equals.
Proof.
  unfold plain_char.
  rewrite andb_true_iff, !negb_true_iff, !N.eqb_neq. reflexivity.
Qed.

Lemma lex_char_plain (c : N) :
  plain_char c = true -> lex_char Normal c = Normal.
Proof.
  intros H. apply plain_char_spec in H as [Hq He].
  apply N.eqb_neq in Hq, He. cbn [lex_char]. now rewrite Hq, He.
Qed.

(** The characters of a token that starts on neither a quote nor an equals
    sign: none of them is a quote or an equals sign. *)
Lemma step_plain_token (line : jsstring) (j : nat) (ch : N) :
  nth_error line j = Some ch ->
  plain_char ch = true ->
  forall k, j <= k < snd (step line j ch) ->
            exists c, nth_error line k = Some c /\ plain_char c = true.
Proof.
  intros Hj Hplain.
  assert (forall k, j <= k < S j ->
                    exists c, nth_error line k = Some c /\ plain_char c = true)
    as Hone.
  { intros k Hk. replace k with j by lia. eauto. }
  assert (forall p n, str_eqb (substring line j (j + n)) p = true ->
                      forallb plain_char p = true -> List.length p = n ->
                      forall k, j <= k < j + n ->
                      exists c, nth_error line k = Some c /\ plain_char c = true)
    as Hpat.
  { intros p n Hp Hall Hlen k Hk. apply str_eqb_eq in Hp.
    destruct (nth_error p (k - j)) as [c|] eqn:Hc;
      [|apply nth_error_None in Hc; lia].
    exists c. split.
    - replace k with (j + (k - j)) by lia.
      exact (substring_nth _ _ _ _ _ _ Hp Hc).
    - rewrite forallb_forall in Hall. apply Hall.
      eapply nth_error_In; eassumption. }
  assert (forall k,
             j <= k < j + List.length (while_prefix is_word_char (skipn j line)) ->
             exists c, nth_error line k = Some c /\ plain_char c = true)
    as Hword.
  { intros k Hk. destruct (while_prefix_range _ _ _ k Hk) as (c & Hc & Hw).
    exists c. split; [assumption|].
    apply plain_char_spec. split; intros ->; discriminate. }
  apply plain_char_spec in Hplain as [Hq He].
  unfold step.
  destruct (N.eqb ch space || N.eqb ch tab); [exact Hone|].
  destruct (N.eqb ch dquote) eqn:Eq; [apply N.eqb_eq in Eq; congruence|].
  destruct (str_eqb (substring line j (j + 3)) (lit "<->")) eqn:E3;
    [exact (Hpat _ _ E3 eq_refl eq_refl)|].
  destruct (str_eqb (substring line j (j + 2)) (lit "->")) eqn:E2;
    [exact (Hpat _ _ E2 eq_refl eq_refl)|].
  destruct (N.eqb ch lbrace || N.eqb ch rbrace); [exact Hone|].
  destruct (N.eqb ch colon); [exact Hone|].
  destruct (N.eqb ch equals) eqn:Ee; [apply N.eqb_eq in Ee; congruence|].
  destruct (while_prefix is_word_char (skipn j line)) as [|w word] eqn:Ew;
    [exact Hone|exact Hword].
Qed.

(** The step on an equals sign. *)
Lemma step_equals (line : jsstring) (j : nat) :
  nth_error line j = Some equals ->
  snd (step line j equals)
  = S j + List.length (while_prefix is_value_char (skipn (S j) line)).
Proof.
  intros Hj. unfold step.
  change (N.eqb equals space || N.eqb equals tab) with false.
  change (N.eqb equals dquote) with false.
  change (N.eqb equals lbrace || N.eqb equals rbrace) with false.
  change (N.eqb equals colon) with false.
  change (N.eqb equals equals) with true. cbv iota.
  destruct (str_eqb (substring line j (j + 3)) (lit "<->")) eqn:E3.
  { apply str_eqb_eq in E3. change (lit "<->") with (lt :: lit "->") in E3.
    apply substring_head in E3. rewrite Hj in E3. discriminate. }
  destruct (str_eqb (substring line j (j + 2)) (lit "->")) eqn:E2.
  { apply str_eqb_eq in E2. change (lit "->") with (minus :: lit ">") in E2.
    apply substring_head in E2. rewrite Hj in E2. discriminate. }
  reflexivity.
Qed.

Lemma step_dquote (line : jsstring) (j : nat) :
  snd (step line j dquote)
  = S (S j + List.length (while_prefix not_dquote (skipn (S j) line))).
Proof. reflexivity. Qed.

(** One iteration, seen from the modes: it ends where an iteration can
    start, and strictly inside it the loop is in a string or in a value, or
    the character is not a less-than sign. *)
Lemma step_token_start (line : jsstring) (j : nat) (ch : N) :
  nth_error line j = Some ch ->
  token_start line j ->
  token_start line (snd (step line j ch))
  /\ (forall k, j < k < snd (step line j ch) ->
                lex_mode_before line k <> Normal
                \/ nth_error line k <> Some lt).
Proof.
  intros Hj Hstart. unfold token_start in Hstart. rewrite Hj in Hstart.
  destruct (N.eqb ch dquote) eqn:Eq.
  { (* a string: up to the closing quote the loop is inside it *)
    apply N.eqb_eq in Eq. subst ch. rewrite step_dquote.
    set (n := List.length (while_prefix not_dquote (skipn (S j) line))).
    assert (lex_mode_before line (S j) = InString) as Hin.
    { rewrite (lex_mode_before_S _ _ _ Hj).
      destruct Hstart as [->|[-> _]]; reflexivity. }
    assert (forall d, d <= n -> lex_mode_before line (S j + d) = InString)
      as Hrun.
    { intros d Hd.
      apply (lex_mode_range line InString not_dquote (S j)); [|exact Hin|].
      - intros c Hc. unfold not_dquote in Hc. apply negb_true_iff in Hc.
        cbn [lex_char]. now rewrite Hc.
      - intros k Hk. apply (while_prefix_range not_dquote line (S j)).
        fold n. lia. }
    split.
    - unfold token_start.
      destruct (nth_error line (S (S j + n))) as [c|] eqn:Hc; [|exact I].
      left. assert (S j + n < List.length line) as Hlt.
      { assert (S (S j + n) < List.length line)
          by (apply nth_error_Some; congruence). lia. }
      destruct (nth_error line (S j + n)) as [q|] eqn:Hqn;
        [|apply nth_error_None in Hqn; lia].
      rewrite (lex_mode_before_S _ _ _ Hqn), (Hrun n) by lia.
      assert (not_dquote q = false) as Hq.
      { apply (while_prefix_next not_dquote (skipn (S j) line)).
        fold n. now rewrite nth_error_skipn. }
      unfold not_dquote in Hq. apply negb_false_iff in Hq.
      cbn [lex_char]. now rewrite Hq.
    - intros k Hk. left.
      replace k with (S j + (k - S j)) by lia. rewrite Hrun by lia.
      discriminate. }
  destruct (N.eqb ch equals) eqn:Ee.
  { (* an equals sign and its value *)
    apply N.eqb_eq in Ee. subst ch. rewrite (step_equals _ _ Hj).
    set (n := List.length (while_prefix is_value_char (skipn (S j) line))).
    assert (lex_mode_before line (S j) = InValue) as Hin.
    { rewrite (lex_mode_before_S _ _ _ Hj).
      destruct Hstart as [->|[_ Hv]]; [reflexivity|discriminate]. }
    assert (forall d, d <= n -> lex_mode_before line (S j + d) = InValue)
      as Hrun.
    { intros d Hd.
      apply (lex_mode_range line InValue is_value_char (S j)); [|exact Hin|].
      - intros c Hc. unfold is_value_char in Hc.
        apply andb_true_iff in Hc as [Hc Hq].
        apply andb_true_iff in Hc as [Hs Ht].
        apply negb_true_iff in Hs, Ht, Hq.
        cbn [lex_char]. now rewrite Hq, Hs, Ht.
      - intros k Hk. apply (while_prefix_range is_value_char line (S j)).
        fold n. lia. }
    split.
    - unfold token_start.
      destruct (nth_error line (S j + n)) as [c|] eqn:Hc; [|exact I].
      right. split; [apply Hrun; lia|].
      apply (while_prefix_next is_value_char (skipn (S j) line)).
      fold n. now rewrite nth_error_skipn.
    - intros k Hk. left.
      replace k with (S j + (k - S j)) by lia. rewrite Hrun by lia.
      discriminate. }
  (* every other token *)
  assert (plain_char ch = true) as Hplain.
  { apply plain_char_spec. apply N.eqb_neq in Eq, Ee. auto. }
  pose proof (step_plain_token line j ch Hj Hplain) as Htok.
  pose proof (step_advances line j ch) as Hadv.
  assert (lex_mode_before line (S j) = Normal) as Hnext.
  { rewrite (lex_mode_before_S _ _ _ Hj).
    destruct Hstart as [->|[-> Hv]]; [now apply lex_char_plain|].
    unfold is_value_char in Hv. cbn [lex_char]. rewrite Eq in *.
    destruct (N.eqb ch space) eqn:Es; [reflexivity|].
    destruct (N.eqb ch tab) eqn:Et; [reflexivity|]. discriminate. }
  assert (lex_mode_before line (snd (step line j ch)) = Normal) as Hend.
  { replace (snd (step line j ch))
      with (S j + (snd (step line j ch) - S j)) by lia.
    apply (lex_mode_range line Normal plain_char (S j));
      [exact lex_char_plain|exact Hnext|].
    intros k Hk. apply Htok. lia. }
  split.
  - unfold token_start.
    destruct (nth_error line (snd (step line j ch))); [left; exact Hend|exact I].
  - intros k Hk. right. intros Hlt.
    apply N.eqb_neq in Eq, Ee.
    pose proof (step_stops_at_lt line j k ch Hj Eq Ee ltac:(lia) Hlt). lia.
Qed.

(** Wherever the loop stands, an iteration can start. *)
Lemma reaches_token_start (line : jsstring) (j : nat) (out : jsstring) :
  reaches line j out -> token_start line j.
Proof.
  induction 1 as [|j out ch e j' Hr IH Hch Hstep].
  - unfold token_start. destruct (nth_error line 0); [now left|exact I].
  - destruct (step_token_start line j ch Hch IH) as [H _].
    now rewrite Hstep in H.
Qed.

(** The loop stands at a less-than sign exactly when the characters before
    it leave it outside strings and values. *)
Lemma reaches_lt_iff (line : jsstring) (i : nat) :
  nth_error line i = Some lt ->
  (exists pre, reaches line i pre) <-> lex_mode_before line i = Normal.
Proof.
  intros Hi. split.
  - intros [pre Hr]. apply reaches_token_start in Hr.
    unfold token_start in Hr. rewrite Hi in Hr.
    destruct Hr as [?|[_ ?]]; [assumption|discriminate].
  - intros Hmode.
    enough (forall n j pre, reaches line j pre -> j <= i -> i - j <= n ->
                            exists pre', reaches line i pre') as Hgen
      by (apply (Hgen i 0 []); [constructor|lia|lia]).
    induction n as [|n IH]; intros j pre Hr Hle Hn.
    + replace i with j by lia. eauto.
    + destruct (Nat.eq_dec j i) as [->|Hne]; [eauto|].
      assert (j < List.length line) as Hlt.
      { assert (i < List.length line) by (apply nth_error_Some; congruence). lia. }
      destruct (nth_error line j) as [ch|] eqn:Hj;
        [|apply nth_error_None in Hj; lia].
      destruct (step_token_start line j ch Hj (reaches_token_start _ _ _ Hr))
        as [_ Hinside].
      pose proof (step_advances line j ch) as Hadv.
      destruct (step line j ch) as [e j'] eqn:Hstep. cbn [snd] in *.
      assert (j' <= i) as Hj'.
      { destruct (Nat.le_gt_cases j' i) as [?|Hgt]; [assumption|].
        destruct (Hinside i ltac:(lia)); congruence. }
      apply (IH j' (pre ++ e)); [econstructor; eassumption|lia|lia].
Qed.

(** C3, as amended — on a line that is not a comment line, with the three
    characters [<->] at index [i].  Whenever the scanning loop of
    [highlightLine] stands at [i], that iteration emits the single bold
    arrow span for [<->] (not the escaped [<] alone) and the loop continues
    at [i + 3], and the span is part of the output.  The loop stands at
    [i] exactly when the characters before [i] leave it outside a quoted
    string and outside an attribute value (the characters after an equals
    sign up to the next space, tab or double quote); so for every such
    [i] the output has the arrow span there. *)
Theorem bidirectional_arrow_token (line : jsstring) (i : nat) :
  is_comment_line line = false ->
  substring line i (i + 3) = lit "<->" ->
  (forall pre, reaches line i pre ->
     step line i lt = (span T.arrow (lit "<->") true, i + 3)
     /\ fst (step line i lt) <> esc [lt]
     /\ reaches line (i + 3) (pre ++ span T.arrow (lit "<->") true)
     /\ exists post,
          highlightLine line = Some (pre ++ span T.arrow (lit "<->") true ++ post))
  /\ ((exists pre, reaches line i pre) <-> lex_mode_before line i = Normal)
  /\ (lex_mode_before line i = Normal ->
      exists pre post,
        reaches line i pre
        /\ highlightLine line
           = Some (pre ++ span T.arrow (lit "<->") true ++ post)).
Proof.
  intros Hc Hsub.
  pose proof (substring_head _ _ _ _ _ Hsub) as Hi.
  assert (forall pre, reaches line i pre ->
     step line i lt = (span T.arrow (lit "<->") true, i + 3)
     /\ fst (step line i lt) <> esc [lt]
     /\ reaches line (i + 3) (pre ++ span T.arrow (lit "<->") true)
     /\ exists post,
          highlightLine line = Some (pre ++ span T.arrow (lit "<->") true ++ post))
    as Hemit.
  { intros pre Hr.
    pose proof (step_bidirectional_arrow line i Hsub) as Hstep.
    assert (reaches line (i + 3) (pre ++ span T.arrow (lit "<->") true)) as Hr'
      by (econstructor; eassumption).
    split; [assumption|]. split; [rewrite Hstep; vm_compute; discriminate|].
    split; [assumption|].
    pose proof (reaches_scan _ _ _ Hr') as Hscan.
    destruct (scan_enough_fuel (List.length line - (i + 3)) line (i + 3)
                (pre ++ span T.arrow (lit "<->") true)) as [r Hrun]; [lia|].
    destruct (scan_appends _ _ _ _ _ Hrun) as [post ->].
    exists post. unfold highlightLine, is_comment_line in *.
    destruct line as [|c line]; [destruct i; discriminate|].
    rewrite Hc, <- Hscan, Hrun. now rewrite <- app_assoc. }
  split; [exact Hemit|]. split; [now apply reaches_lt_iff|].
  intros Hmode. apply (reaches_lt_iff line i Hi) in Hmode as [pre Hr].
  destruct (Hemit pre Hr) as (_ & _ & _ & post & Hout). eauto.
Qed.

Lemma bidirectional_arrow_token_witness :
  exists pre post,
    highlightLine (lit "x=1 " ++ [dquote] ++ lit "a" ++ [dquote] ++ lit " <-> b")
    = Some (pre ++ span T.arrow (lit "<->") true ++ post).
Proof.
  destruct (bidirectional_arrow_token
              (lit "x=1 " ++ [dquote] ++ lit "a" ++ [dquote] ++ lit " <-> b") 8)
    as (_ & _ & Hnormal).
  - vm_compute. reflexivity.
  - vm_compute. reflexivity.
  - destruct Hnormal as (pre & post & _ & Hout).
    + vm_compute. reflexivity.
    + eauto.
Defined.

(** C3 as stated fails: in [a=<->b] the characters [<->] stand at index 2,
    outside any quoted string (the line has no quote), but the loop is never
    at index 2: the value loop after [=] runs over them, and the output has
    no arrow span at all. *)
Lemma arrow_after_equals_is_value_text :
  let line := lit "a=<->b" in
  substring line 2 5 = lit "<->"
  /\ forallb not_dquote line = true
  /\ highlightLine line
     = Some (span T.prop (lit "a") false ++ span T.plain (lit "=") false
             ++ span T.propVal (lit "<->b") false)
  /\ ~ (exists pre post,
         highlightLine line
         = Some (pre ++ span T.arrow (lit "<->") true ++ post)).
Proof.
  cbv zeta. repeat split; try (vm_compute; reflexivity).
  intros (pre & post & H).
  assert (match highlightLine (lit "a=<->b") with
          | Some out => includes out (span T.arrow (lit "<->") true)
          | None => false
          end = false) as Hno by (vm_compute; reflexivity).
  rewrite H, includes_app in Hno. discriminate.
Qed.

(** *** Escaping *)

Lemma esc_app (a b : jsstring) : esc (a ++ b) = esc a ++ esc b.
Proof. unfold esc, replaceAll. now rewrite !flat_map_app. Qed.

Lemma esc_single (c : N) : esc [c] = esc_char c.
Proof.
  unfold esc, esc_char, replaceAll. simpl.
  destruct (N.eqb c amp) eqn:Ea; [reflexivity|]. simpl.
  destruct (N.eqb c lt) eqn:El; [reflexivity|]. simpl.
  destruct (N.eqb c gt) eqn:Eg; reflexivity.
Qed.

(** The three replacements of [esc] amount to one pass that rewrites every
    ampersand, less-than and greater-than sign and keeps every other
    character. *)
Lemma esc_chars (s : jsstring) : esc s = flat_map esc_char s.
Proof.
  induction s as [|c s IH]; [reflexivity|].
  change (c :: s) with ([c] ++ s). rewrite esc_app, esc_single, IH. reflexivity.
Qed.

Lemma esc_char_cases (c : N) :
  In (esc_char c) entities
  \/ (esc_char c = [c] /\ c <> amp /\ c <> lt /\ c <> gt).
Proof.
  unfold esc_char, entities.
  destruct (N.eqb c amp) eqn:Ea; [simpl; auto|].
  destruct (N.eqb c lt) eqn:El; [simpl; auto|].
  destruct (N.eqb c gt) eqn:Eg; [simpl; auto|].
  right. apply N.eqb_neq in Ea, El, Eg. auto.
Qed.

Lemma only_at_spec (c : N) (k : nat) (m : jsstring) : forall p j,
  only_at c k p m = true -> nth_error m j = Some c -> p + j = k.
Proof.
  induction m as [|x r IH]; intros p j H Hj; [destruct j; discriminate|].
  simpl in H. apply andb_true_iff in H as [Hx Hr].
  destruct j as [|j]; simpl in Hj.
  - injection Hj as ->. rewrite N.eqb_refl in Hx. simpl in Hx.
    apply Nat.eqb_eq in Hx. lia.
  - specialize (IH (S p) j Hr Hj). lia.
Qed.

Lemma markup_shapes : forallb markup_shape markup = true.
Proof. vm_compute. reflexivity. Qed.

Lemma entity_shapes : forallb entity_shape entities = true.
Proof. vm_compute. reflexivity. Qed.

Lemma markup_chars (m : jsstring) (j : nat) (c : N) :
  In m markup -> nth_error m j = Some c ->
  (c = lt -> j = 0) /\ (c = gt -> S j = List.length m) /\ c <> amp.
Proof.
  intros Hm Hj.
  pose proof markup_shapes as Hall. rewrite forallb_forall in Hall.
  specialize (Hall m Hm). unfold markup_shape in Hall.
  apply andb_true_iff in Hall as [Hall _].
  apply andb_true_iff in Hall as [Hall Ha].
  apply andb_true_iff in Hall as [Hl Hg].
  assert (j < List.length m) by (apply nth_error_Some; congruence).
  repeat split.
  - intros ->. pose proof (only_at_spec _ _ _ _ _ Hl Hj). lia.
  - intros ->. pose proof (only_at_spec _ _ _ _ _ Hg Hj). lia.
  - intros ->. pose proof (only_at_spec _ _ _ _ _ Ha Hj). lia.
Qed.

Lemma entity_chars (e : jsstring) (j : nat) (c : N) :
  In e entities -> nth_error e j = Some c ->
  (c = amp -> j = 0) /\ c <> lt /\ c <> gt.
Proof.
  intros He Hj.
  pose proof entity_shapes as Hall. rewrite forallb_forall in Hall.
  specialize (Hall e He). unfold entity_shape in Hall.
  apply andb_true_iff in Hall as [Hall Hg].
  apply andb_true_iff in Hall as [Ha Hl].
  assert (j < List.length e) by (apply nth_error_Some; congruence).
  repeat split.
  - intros ->. pose proof (only_at_spec _ _ _ _ _ Ha Hj). lia.
  - intros ->. pose proof (only_at_spec _ _ _ _ _ Hl Hj). lia.
  - intros ->. pose proof (only_at_spec _ _ _ _ _ Hg Hj). lia.
Qed.

Lemma startsWith_app_l (a b p : jsstring) :
  startsWith a p = true -> startsWith (a ++ b) p = true.
Proof.
  rewrite !startsWith_prefix. intros [r ->]. exists (r ++ b). now rewrite app_assoc.
Qed.

Lemma nth_error_app_cases (a b : jsstring) (p : nat) (c : N) :
  nth_error (a ++ b) p = Some c ->
  (p < List.length a /\ nth_error a p = Some c)
  \/ (List.length a <= p /\ nth_error b (p - List.length a) = Some c).
Proof.
  intros H. destruct (Nat.lt_ge_cases p (List.length a)) as [Hlt|Hge].
  - left. split; [assumption|]. now rewrite nth_error_app1 in H.
  - right. split; [assumption|]. now rewrite nth_error_app2 in H.
Qed.

Lemma skipn_app_r (a b : jsstring) (p : nat) :
  List.length a <= p -> skipn p (a ++ b) = skipn (p - List.length a) b.
Proof.
  intros H. rewrite skipn_app, skipn_all2 by assumption. reflexivity.
Qed.

Lemma skipn_app_l (a b : jsstring) (p : nat) :
  p <= List.length a -> skipn p (a ++ b) = skipn p a ++ b.
Proof.
  intros H. rewrite skipn_app. replace (p - List.length a) with 0 by lia.
  reflexivity.
Qed.

(** Prepending a piece [a] keeps the placement, as long as the special
    characters of [a] itself are placed once [rest] follows. *)
Lemma specials_placed_app (a rest : jsstring) :
  (forall p, p < List.length a -> nth_error a p = Some lt ->
     exists m, In m markup /\ startsWith (skipn p a ++ rest) m = true) ->
  (forall p, p < List.length a -> nth_error a p = Some gt ->
     exists m q, In m markup /\ q + List.length m = S p
                 /\ startsWith (skipn q a ++ rest) m = true) ->
  (forall p, p < List.length a -> nth_error a p = Some amp ->
     exists e, In e entities /\ startsWith (skipn p a ++ rest) e = true) ->
  specials_placed rest -> specials_placed (a ++ rest).
Proof.
  intros Hl Hg Ha (Rl & Rg & Ra). repeat split; intros p Hp;
    apply nth_error_app_cases in Hp as [[Hlt Hp]|[Hge Hp]].
  - destruct (Hl p Hlt Hp) as (m & Hm & Hs). exists m.
    rewrite skipn_app_l by lia. auto.
  - destruct (Rl _ Hp) as (m & Hm & Hs). exists m.
    rewrite skipn_app_r by lia. auto.
  - destruct (Hg p Hlt Hp) as (m & q & Hm & Hq & Hs). exists m, q.
    assert (0 < List.length m).
    { destruct m; [|simpl; lia]. exfalso.
      pose proof markup_shapes as Hall. rewrite forallb_forall in Hall.
      specialize (Hall [] Hm). vm_compute in Hall. discriminate. }
    rewrite skipn_app_l by lia. auto.
  - destruct (Rg _ Hp) as (m & q & Hm & Hq & Hs).
    exists m, (q + List.length a). repeat split; [assumption|lia|].
    rewrite skipn_app_r by lia.
    now replace (q + List.length a - List.length a) with q by lia.
  - destruct (Ha p Hlt Hp) as (e & He & Hs). exists e.
    rewrite skipn_app_l by lia. auto.
  - destruct (Ra _ Hp) as (e & He & Hs). exists e.
    rewrite skipn_app_r by lia. auto.
Qed.


Lemma specials_placed_nil : specials_placed [].
Proof. repeat split; intros [|p] Hp; discriminate. Qed.

Lemma startsWith_self (m rest : jsstring) : startsWith (m ++ rest) m = true.
Proof. apply startsWith_prefix. eauto. Qed.

Lemma specials_placed_entity_or_char (c : N) (rest : jsstring) :
  specials_placed rest -> specials_placed (esc_char c ++ rest).
Proof.
  intros Hrest.
  destruct (esc_char_cases c) as [He|(-> & Ha & Hl & Hg)].
  - apply specials_placed_app; try assumption; intros p Hlt Hp.
    + now destruct (entity_chars _ _ _ He Hp) as (_ & ? & _).
    + now destruct (entity_chars _ _ _ He Hp) as (_ & _ & ?).
    + destruct (entity_chars _ _ _ He Hp) as (H0 & _). rewrite (H0 eq_refl).
      exists (esc_char c). split; [assumption|apply startsWith_self].
  - apply specials_placed_app; try assumption; intros [|p] Hlt Hp;
      simpl in *; try lia; congruence.
Qed.

Lemma specials_placed_esc (t rest : jsstring) :
  specials_placed rest -> specials_placed (esc t ++ rest).
Proof.
  intros Hrest. rewrite esc_chars.
  induction t as [|c t IH]; [assumption|].
  simpl. rewrite <- app_assoc. now apply specials_placed_entity_or_char.
Qed.

Lemma specials_placed_markup (m rest : jsstring) :
  In m markup -> specials_placed rest -> specials_placed (m ++ rest).
Proof.
  intros Hm Hrest.
  apply specials_placed_app; try assumption; intros p Hlt Hp;
    destruct (markup_chars _ _ _ Hm Hp) as (Hl & Hg & Ha).
  - rewrite (Hl eq_refl). exists m. split; [assumption|apply startsWith_self].
  - exists m, 0. repeat split; [assumption|now rewrite <- (Hg eq_refl)|].
    apply startsWith_self.
  - congruence.
Qed.

Lemma escaped_html_placed (out : jsstring) :
  escaped_html out -> specials_placed out.
Proof.
  induction 1 as [|t rest _ IH|m rest Hm _ IH].
  - apply specials_placed_nil.
  - now apply specials_placed_esc.
  - now apply specials_placed_markup.
Qed.

Lemma escaped_html_app (a b : jsstring) :
  escaped_html a -> escaped_html b -> escaped_html (a ++ b).
Proof.
  induction 1 as [|t rest _ IH|m rest Hm _ IH]; intros Hb; simpl.
  - assumption.
  - rewrite <- app_assoc. apply escaped_text. now apply IH.
  - rewrite <- app_assoc. apply escaped_markup; [assumption|now apply IH].
Qed.

Lemma escaped_html_esc (t : jsstring) : escaped_html (esc t).
Proof. rewrite <- (app_nil_r (esc t)). apply escaped_text, escaped_nil. Qed.

Lemma escaped_html_markup (m : jsstring) : In m markup -> escaped_html m.
Proof.
  intros H. rewrite <- (app_nil_r m).
  apply escaped_markup; [assumption|apply escaped_nil].
Qed.

Lemma span_open_markup (color : jsstring) (bold : bool) :
  In color span_colors -> In (span_open color bold) markup.
Proof.
  intros H. unfold markup. rewrite !in_app_iff.
  destruct bold; [right; left|left];
    now apply (in_map (fun c => span_open c _)).
Qed.

Lemma escaped_html_span (color text : jsstring) (bold : bool) :
  In color span_colors -> escaped_html (span color text bold).
Proof.
  intros H. unfold span.
  apply escaped_markup; [now apply span_open_markup|].
  apply escaped_text. apply escaped_html_markup.
  unfold markup. rewrite !in_app_iff. right; right. simpl. auto.
Qed.

(** A character that is none of the three special ones is its own
    escape. *)
Lemma escaped_html_plain_char (c : N) :
  c <> amp -> c <> lt -> c <> gt -> escaped_html [c].
Proof.
  intros Ha Hl Hg.
  replace [c] with (esc [c]); [apply escaped_html_esc|].
  rewrite esc_single. unfold esc_char.
  apply N.eqb_neq in Ha, Hl, Hg. now rewrite Ha, Hl, Hg.
Qed.

Lemma escaped_html_spaces (n : nat) : escaped_html (spaces n).
Proof.
  induction n as [|n IH]; [constructor|].
  change (spaces (S n)) with ([space] ++ spaces n).
  apply escaped_html_app; [|assumption].
  apply escaped_html_plain_char; discriminate.
Qed.

Ltac color_in := unfold span_colors; simpl; tauto.

(** Every iteration emits markup and escaped text only. *)
Lemma step_escaped (line : jsstring) (i : nat) (ch : N) :
  escaped_html (fst (step line i ch)).
Proof.
  step_cases; cbn [fst];
    repeat match goal with
           | |- escaped_html (span _ _ _) => apply escaped_html_span; color_in
           | |- escaped_html (esc _) => apply escaped_html_esc
           | |- escaped_html (_ ++ _) => apply escaped_html_app
           | |- escaped_html [] => constructor
           end.
  all: match goal with
       | H : (N.eqb ?c space || N.eqb ?c tab) = true |- escaped_html [?c] =>
           apply orb_true_iff in H as [H|H]; apply N.eqb_eq in H; subst c;
           apply escaped_html_plain_char; discriminate
       end.
Qed.


Lemma scan_escaped (fuel : nat) : forall (line : jsstring) i out r,
  escaped_html out -> scan fuel line i out = Some r -> escaped_html r.
Proof.
  induction fuel as [|fuel IH]; intros line i out r Hout H; simpl in H;
    destruct (nth_error line i) as [ch|]; try discriminate;
    try (injection H as <-; assumption).
  pose proof (step_escaped line i ch) as He.
  destruct (step line i ch) as [e i']. simpl in He.
  apply (IH _ _ _ _ (escaped_html_app _ _ Hout He) H).
Qed.

Lemma scan_escaped_result (fuel : nat) (line : jsstring) :
  match scan fuel line 0 [] with
  | Some out => escaped_html out
  | None => True
  end.
Proof.
  destruct (scan fuel line 0 []) as [out|] eqn:E; [|exact I].
  apply (scan_escaped _ _ _ _ _ escaped_nil E).
Qed.

Lemma highlightLine_escaped_result (line : jsstring) :
  match highlightLine line with
  | Some out => escaped_html out
  | None => True
  end.
Proof.
  unfold highlightLine. destruct line as [|c line].
  - apply escaped_html_plain_char; discriminate.
  - destruct (startsWith _ _); [|apply scan_escaped_result].
    apply escaped_html_app; [apply escaped_html_spaces|].
    apply escaped_markup; [unfold markup; rewrite !in_app_iff; simpl; auto|].
    apply escaped_text. apply escaped_html_markup.
    unfold markup. rewrite !in_app_iff. simpl. auto.
Qed.

Lemma highlightLine_escaped (line out : jsstring) :
  highlightLine line = Some out -> escaped_html out.
Proof.
  intros H. pose proof (highlightLine_escaped_result line) as He.
  now rewrite H in He.
Qed.

(** Escaped text has no angle bracket, and each of its ampersands opens an
    entity. *)
Lemma esc_no_angle (t : jsstring) : ~ In lt (esc t) /\ ~ In gt (esc t).
Proof.
  enough (forall c, c = lt \/ c = gt -> ~ In c (esc t)) as H by (split; apply H; auto).
  intros c Hc. rewrite esc_chars.
  induction t as [|x t IH]; [intros []|].
  simpl. rewrite in_app_iff. intros [Hin|Hin]; [|now apply IH].
  destruct (esc_char_cases x) as [He|(Heq & _ & Hl & Hg)].
  - apply In_nth_error in Hin as [p Hp].
    destruct (entity_chars _ _ _ He Hp) as (_ & ? & ?). destruct Hc; congruence.
  - rewrite Heq in Hin. destruct Hin as [->|[]]. destruct Hc; congruence.
Qed.

(** *** The output is the line, escaped *)

Lemma renders_app (t1 o1 t2 o2 : jsstring) :
  renders t1 o1 -> renders t2 o2 -> renders (t1 ++ t2) (o1 ++ o2).
Proof.
  intros H1 H2. induction H1 as [|t text out _ IH|m text out Hm _ IH].
  - exact H2.
  - rewrite <- !app_assoc. now apply renders_text.
  - rewrite <- app_assoc. now apply renders_markup.
Qed.

Lemma renders_esc (t : jsstring) : renders t (esc t).
Proof.
  rewrite <- (app_nil_r t) at 1. rewrite <- (app_nil_r (esc t)).
  apply renders_text. constructor.
Qed.

Lemma renders_span (color text : jsstring) (bold : bool) :
  In color span_colors -> renders text (span color text bold).
Proof.
  intros Hc. unfold span. apply renders_markup; [now apply span_open_markup|].
  rewrite <- (app_nil_r text) at 1. apply renders_text.
  rewrite <- (app_nil_r span_close). apply renders_markup; [|constructor].
  unfold markup. rewrite !in_app_iff. simpl. auto.
Qed.

Lemma esc_spaces (n : nat) : esc (spaces n) = spaces n.
Proof.
  rewrite esc_chars. induction n as [|n IH]; [reflexivity|].
  cbn [spaces repeat flat_map]. unfold spaces in IH. now rewrite IH.
Qed.

(** One iteration writes the characters it consumed, escaped, inside its
    markup. *)
Lemma step_renders (line : jsstring) (i : nat) (ch : N) :
  nth_error line i = Some ch ->
  renders (substring line i (snd (step line i ch))) (fst (step line i ch)).
Proof.
  intros Hi. unfold step.
  destruct (N.eqb ch space || N.eqb ch tab) eqn:Ews.
  { cbn [fst snd]. rewrite (substring_one _ _ _ Hi).
    apply orb_true_iff in Ews as [E|E]; apply N.eqb_eq in E; subst ch.
    - exact (renders_esc [space]).
    - exact (renders_esc [tab]). }
  destruct (N.eqb ch dquote) eqn:Eq.
  { cbn [fst snd]. apply renders_span. color_in. }
  destruct (str_eqb (substring line i (i + 3)) (lit "<->")) eqn:E3.
  { cbn [fst snd]. apply str_eqb_eq in E3. rewrite E3.
    apply renders_span. color_in. }
  destruct (str_eqb (substring line i (i + 2)) (lit "->")) eqn:E2.
  { cbn [fst snd]. apply str_eqb_eq in E2. rewrite E2.
    apply renders_span. color_in. }
  destruct (N.eqb ch lbrace || N.eqb ch rbrace) eqn:Eb.
  { cbn [fst snd]. rewrite (substring_one _ _ _ Hi).
    apply renders_span. color_in. }
  destruct (N.eqb ch colon) eqn:Ec.
  { cbn [fst snd]. rewrite (substring_one _ _ _ Hi).
    apply N.eqb_eq in Ec. subst ch. apply renders_span. color_in. }
  destruct (N.eqb ch equals) eqn:Ee.
  { cbn [fst snd]. apply N.eqb_eq in Ee. subst ch.
    rewrite (substring_cons _ _ _ _ Hi), <- while_prefix_firstn.
    change (equals :: while_prefix is_value_char (skipn (S i) line))
      with (lit "=" ++ while_prefix is_value_char (skipn (S i) line)).
    apply renders_app; [apply renders_span; color_in|].
    destruct (while_prefix is_value_char (skipn (S i) line)) as [|v val];
      [constructor|].
    destruct (all_digits (v :: val)); apply renders_span; color_in. }
  destruct (while_prefix is_word_char (skipn i line)) as [|w word] eqn:Ew.
  { cbn [fst snd]. rewrite (substring_one _ _ _ Hi). apply renders_esc. }
  cbn [fst snd]. rewrite substring_ordered by lia.
  replace (i + List.length (w :: word) - i) with (List.length (w :: word)) by lia.
  rewrite <- Ew, <- while_prefix_firstn, Ew.
  repeat match goal with
         | |- context [if ?b then _ else _] => destruct b
         end; apply renders_span; color_in.
Qed.

(** While the loop runs, the output is the part of the line already
    consumed, escaped piece by piece. *)
Lemma reaches_renders (line : jsstring) (i : nat) (out : jsstring) :
  reaches line i out -> renders (firstn i line) out.
Proof.
  induction 1 as [|i out ch e i' Hr IH Hch Hstep].
  - constructor.
  - pose proof (step_renders line i ch Hch) as Hs.
    pose proof (step_advances line i ch) as Ha.
    rewrite Hstep in Hs, Ha. cbn [fst snd] in *.
    rewrite substring_ordered in Hs by lia.
    replace (firstn i' line) with (firstn i line ++ firstn (i' - i) (skipn i line)).
    + now apply renders_app.
    + replace i' with (i + (i' - i)) at 2 by lia. apply take_take_drop.
Qed.

Lemma highlightLine_renders (line out : jsstring) :
  highlightLine line = Some out -> renders (shown_text line) out.
Proof.
  intros Hout. unfold shown_text.
  destruct line as [|c line]; [injection Hout as <-; exact (renders_esc [newline])|].
  destruct (is_comment_line (c :: line)) eqn:Ec.
  - rewrite highlightLine_comment in Hout by assumption.
    match type of Hout with Some ?x = _ => assert (out = x) as -> by congruence end.
    apply renders_app; [rewrite <- esc_spaces at 2; apply renders_esc|].
    apply renders_markup; [unfold markup; rewrite !in_app_iff; simpl; auto|].
    rewrite <- (app_nil_r (trimStart (c :: line))) at 1. apply renders_text.
    rewrite <- (app_nil_r span_close). apply renders_markup; [|constructor].
    unfold markup. rewrite !in_app_iff. simpl. auto.
  - unfold highlightLine, is_comment_line in *. rewrite Ec in Hout.
    destruct (scan_reaches _ _ _ _ _ (reaches_start _) Hout) as (i & Hr & Hi).
    apply reaches_renders in Hr. now rewrite firstn_all2 in Hr.
Qed.

(** C9 — every line is rendered, and the rendered string is the text of the
    line written out from left to right, every piece of it passed through
    [esc], with pieces of the highlighter's own fixed markup in between
    (for a comment line the text is the comment after one space per
    character of indentation; for the empty line it is a line feed).
    [esc] rewrites every ampersand, less-than and greater-than sign into
    its entity and so contains no angle bracket.  Hence every [<] of the
    output opens a piece of the fixed markup, every [>] closes one, and
    every [&] opens one of [&amp;], [&lt;], [&gt;]. *)
Theorem highlightLine_escapes_source (line : jsstring) :
  exists out,
    highlightLine line = Some out
    /\ renders (shown_text line) out
    /\ escaped_html out
    /\ specials_placed out
    /\ (forall t, esc t = flat_map esc_char t
                  /\ ~ In lt (esc t) /\ ~ In gt (esc t)).
Proof.
  destruct (highlightLine_total line) as [out Hout]. exists out.
  pose proof (highlightLine_escaped _ _ Hout) as He.
  split; [assumption|]. split; [now apply highlightLine_renders|].
  split; [assumption|].
  split; [now apply escaped_html_placed|].
  intros t. split; [apply esc_chars|apply esc_no_angle].
Qed.

End Highlighter.

(* ===================================================================== *)
(** ** The diagnostics of the parser ([utils/cubegenDSL]) *)
(* ===================================================================== *)

Module Diagnostics.
Import JS CubegenDSL.

Lemma insert_error_perm (e : ParseError) (es : list ParseError) :
  Permutation (insert_error e es) (e :: es).
Proof.
  induction es as [|e' es IH]; simpl; [reflexivity|].
  destruct (line e <=? line e')%Z; [reflexivity|].
  rewrite IH. apply perm_swap.
Qed.

Lemma order_errors_perm (es : list ParseError) :
  Permutation (order_errors es) es.
Proof.
  induction es as [|e es IH]; simpl; [reflexivity|].
  rewrite insert_error_perm. now constructor.
Qed.

Lemma insert_error_sorted (e : ParseError) (es : list ParseError) :
  StronglySorted line_le es -> StronglySorted line_le (insert_error e es).
Proof.
  induction 1 as [|e' es Hs IH Hall]; simpl.
  - repeat constructor.
  - destruct (line e <=? line e')%Z eqn:E.
    + apply Z.leb_le in E. constructor; [now constructor|].
      constructor; [assumption|].
      eapply List.Forall_impl; [|exact Hall]. unfold line_le. intros; lia.
    + apply Z.leb_gt in E. constructor; [assumption|].
      eapply Permutation_Forall; [symmetry; apply insert_error_perm|].
      constructor; [unfold line_le; lia|assumption].
Qed.

Lemma order_errors_sorted (es : list ParseError) :
  StronglySorted line_le (order_errors es).
Proof.
  induction es as [|e es IH]; simpl; [constructor|].
  now apply insert_error_sorted.
Qed.

Section Parser.

Variable Num : Type.
Variable parseDeclaration : jsstring -> Declaration Num + jsstring.
Variable parseLink : jsstring -> LinkStatement + jsstring.
Variable defaultTitle : jsstring.

Let parse := parseCubeGenDSL Num parseDeclaration parseLink defaultTitle.
Let found := detected Num parseDeclaration parseLink.

(** The returned list is the detected diagnostics, ordered. *)
Lemma parse_errors (code : jsstring) :
  errors (parse code) = order_errors (found code).
Proof.
  unfold parse, found, parseCubeGenDSL, detected.
  destruct (resolve _ _ _) as [ok errs]. simpl.
  destruct (order_errors _); reflexivity.
Qed.

(** The result is a failure exactly when there are diagnostics, and a
    failure carries no document. *)
Lemma parse_exclusive (code : jsstring) :
  (errors (parse code) <> [] -> success (parse code) = false)
  /\ (success (parse code) = false -> data (parse code) = None)
  /\ (errors (parse code) = [] -> success (parse code) = true).
Proof.
  unfold parse, parseCubeGenDSL.
  destruct (resolve _ _ _) as [ok errs].
  destruct (order_errors _); simpl; repeat split; congruence.
Qed.

(** C5 — the error list returned by [parseCubeGenDSL] is in ascending order
    of line number whatever the order of detection was (it holds the
    detected errors, all of them); so errors detected on lines 7, 3 and 10
    come back as 3, 7, 10. *)
Theorem errors_ascending_by_line (code : jsstring) :
  StronglySorted Z.le (List.map line (errors (parse code)))
  /\ Permutation (errors (parse code)) (found code)
  /\ (forall m7 m3 m10,
        List.map line
          (order_errors [ {| line := 7; message := m7 |};
                          {| line := 3; message := m3 |};
                          {| line := 10; message := m10 |} ])
        = [3; 7; 10]%Z).
Proof.
  rewrite parse_errors. split; [|split].
  - pose proof (order_errors_sorted (found code)) as H.
    induction H as [|e es Hs IH Hall]; simpl; constructor; [assumption|].
    apply List.Forall_map. exact Hall.
  - apply order_errors_perm.
  - reflexivity.
Qed.

End Parser.

(** A run of the pipeline: the unknown statement on line 2 is detected
    during the scan, the two unresolved ends of the link on line 1 only
    afterwards; the returned list starts with line 1. *)
Example detection_order_is_not_returned_order :
  let parseLink := fun _ : jsstring =>
    inl {| link_source := lit "a"; link_target := lit "b";
           link_bidirectional := false; link_label := None |} in
  let parseDeclaration := fun _ : jsstring => inr (lit "missing label") in
  let code := lit "a -> b" ++ [newline] ++ lit "oops" in
  List.map line (detected unit parseDeclaration parseLink code) = [2; 1; 1]%Z
  /\ List.map line
       (errors (parseCubeGenDSL unit parseDeclaration parseLink (lit "Untitled") code))
     = [1; 1; 2]%Z.
Proof. vm_compute. split; reflexivity. Qed.

End Diagnostics.

(* ===================================================================== *)
(** ** The Generate handler and the editor's error row *)
(* ===================================================================== *)

Module Generate.
Import JS CubegenDSL CodePlayground.

(** The rows are numbered 1, 2, 3, ... *)
Lemma render_rows_numbers (el : option Z) (lines : list jsstring) : forall idx,
  List.map CodeEditor.lineNum (CodeEditor.render_rows el idx lines)
  = List.map (fun k => (Z.of_nat k + 1)%Z) (seq idx (List.length lines)).
Proof.
  induction lines as [|l lines IH]; intros idx; simpl; [reflexivity|].
  now rewrite IH.
Qed.

(** A row is the error row, and carries the marker, exactly when its
    number is the [errorLine] prop. *)
Lemma render_rows_error (el : option Z) (lines : list jsstring) : forall idx row,
  In row (CodeEditor.render_rows el idx lines) ->
  CodeEditor.isError row = CodeEditor.is_error_row el (CodeEditor.lineNum row)
  /\ CodeEditor.marker row = CodeEditor.isError row.
Proof.
  induction lines as [|l lines IH]; intros idx row; simpl; [intros []|].
  intros [<-|Hin]; [simpl; auto|]. eapply IH; eassumption.
Qed.

Section Page.

Variable DiagramData : Type.
Variable parseCubeGenDSL : jsstring -> ParseResult DiagramData.

Let State := State DiagramData.

(** Whitespace-only code: the handler returns before it calls the parser,
    and nothing but the banner changes. *)
Lemma handleGenerate_blank (st : State) :
  trim (code st) = [] ->
  let st' := handleGenerate parseCubeGenDSL st in
  history st' = history st /\ historyIndex st' = historyIndex st
  /\ selectedIds st' = selectedIds st /\ parseErrors st' = parseErrors st
  /\ error st' = Some PleaseEnterCode.
Proof.
  intros H. unfold handleGenerate. rewrite H. simpl. auto.
Qed.

(** The failure branch of the handler. *)
Lemma handleGenerate_failure (st : State) :
  trim (code st) <> [] ->
  reports_failure (parseCubeGenDSL (code st)) ->
  handleGenerate parseCubeGenDSL st
  = {| code := code st;
       parseErrors := errors (parseCubeGenDSL (code st));
       history := history st; historyIndex := historyIndex st;
       selectedIds := selectedIds st;
       error := Some (SyntaxError
                        (option_map line (head (errors (parseCubeGenDSL (code st)))))
                        (option_map message (head (errors (parseCubeGenDSL (code st))))));
       successMessage := successMessage st |}.
Proof.
  intros Hne Hfail. unfold handleGenerate.
  destruct (trim (code st)) as [|c t]; [congruence|].
  destruct Hfail as [Hf|Hf]; rewrite Hf; [reflexivity|].
  now destruct (success _).
Qed.

(** C1 — when the parse result has a non-empty error list (and the parser
    keeps the contract of section 4.5: errors mean failure), the handler
    hands the line number of the first returned error to the editor as
    [errorLine], and of the rows the editor draws, for any text, the error
    row (red gutter, marker) is exactly the row whose 1-based number is
    that line. *)
Theorem first_error_line_marked (st : State) (e : ParseError)
  (es : list ParseError) :
  trim (code st) <> [] ->
  errors (parseCubeGenDSL (code st)) = e :: es ->
  signals_failure_on_errors (parseCubeGenDSL (code st)) ->
  let st' := handleGenerate parseCubeGenDSL st in
  errorLine st' = Some (line e)
  /\ forall value : jsstring,
       List.map CodeEditor.lineNum (CodeEditor.rows value (errorLine st'))
       = List.map (fun k => (Z.of_nat k + 1)%Z)
           (seq 0 (List.length (split_lines value)))
       /\ forall row, In row (CodeEditor.rows value (errorLine st')) ->
            (CodeEditor.isError row = true <-> CodeEditor.lineNum row = line e)
            /\ (CodeEditor.marker row = true <-> CodeEditor.lineNum row = line e).
Proof.
  intros Hne He Hcontract. cbv zeta.
  assert (reports_failure (parseCubeGenDSL (code st))) as Hfail.
  { left. apply Hcontract. rewrite He. discriminate. }
  rewrite (handleGenerate_failure st Hne Hfail).
  unfold errorLine. cbn [parseErrors]. rewrite He. cbn [head option_map].
  split; [reflexivity|]. intros value. split; [apply render_rows_numbers|].
  intros row Hin. unfold CodeEditor.rows in Hin.
  destruct (render_rows_error _ _ _ _ Hin) as [Herr Hmark].
  rewrite Hmark, Herr. simpl. rewrite Z.eqb_eq. tauto.
Qed.

(** C2 — for every code the handler passes to the parser (it returns early
    on blank code, see [handleGenerate_blank]): when the parser reports
    failure (success false or no data), the handler leaves history, history
    index and selection as they were and stores the whole returned error
    list. *)
Theorem failed_parse_keeps_diagram (st : State) :
  trim (code st) <> [] ->
  reports_failure (parseCubeGenDSL (code st)) ->
  let st' := handleGenerate parseCubeGenDSL st in
  history st' = history st
  /\ historyIndex st' = historyIndex st
  /\ selectedIds st' = selectedIds st
  /\ parseErrors st' = errors (parseCubeGenDSL (code st)).
Proof.
  intros Hne Hfail. cbv zeta.
  rewrite (handleGenerate_failure st Hne Hfail). simpl. auto.
Qed.

End Page.

Lemma first_error_line_marked_witness :
  errorLine (handleGenerate sample_failure sample_state) = Some 2%Z.
Proof.
  apply (first_error_line_marked nat sample_failure sample_state
           {| line := 2; message := lit "unrecognized statement" |}
           [ {| line := 5; message := lit "missing label" |} ]).
  - vm_compute. discriminate.
  - reflexivity.
  - intros _. reflexivity.
Defined.

Lemma failed_parse_keeps_diagram_witness :
  history (handleGenerate sample_failure sample_state) = [Some 5]
  /\ historyIndex (handleGenerate sample_failure sample_state) = 0
  /\ selectedIds (handleGenerate sample_failure sample_state) = [lit "a"]
  /\ parseErrors (handleGenerate sample_failure sample_state)
     = errors (sample_failure (code sample_state)).
Proof.
  apply (failed_parse_keeps_diagram nat sample_failure sample_state).
  - vm_compute. discriminate.
  - left. reflexivity.
Defined.

End Generate.

(* ===================================================================== *)
(** ** The project store ([projectStore.ts]) *)
(* ===================================================================== *)

Module Store.
Import JS ProjectStore.

Section Facts.

Context {DiagramData : Type}.
Variable JSON_stringify : SavedProject DiagramData -> option jsstring.
Variable JSON_parse : jsstring -> option (SavedProject DiagramData).
Variable storage_keys : gmap jsstring jsstring -> list jsstring.
Variable getTime : jsstring -> option Z.

(** C7 — save, then load under the same key: when the entry serialises
    (to a non-empty string, as [JSON.stringify] of an object is) and
    [JSON.parse] reads that string back as the entry, [loadProject] returns
    a project with the saved key, diagram and code, and the time of the save
    as [savedAt]. *)
Theorem save_then_load (now k : jsstring) (d : DiagramData)
  (c : option jsstring) (ls : gmap jsstring jsstring) (raw : jsstring) :
  let entry := {| key := k; diagramData := d; code := c; savedAt := now |} in
  JSON_stringify entry = Some raw ->
  raw <> [] ->
  JSON_parse raw = Some entry ->
  loadProject JSON_parse k (saveProject JSON_stringify now k d c ls)
  = Some entry.
Proof.
  cbv zeta. intros Hs Hne Hp. unfold loadProject, saveProject.
  rewrite Hs, lookup_insert_eq. destruct raw; [congruence|assumption].
Qed.

(** Saving writes one key only. *)
Lemma save_frame (now k : jsstring) (d : DiagramData) (c : option jsstring)
  (ls : gmap jsstring jsstring) (k' : jsstring) :
  k' <> STORAGE_PREFIX ++ k ->
  saveProject JSON_stringify now k d c ls !! k' = ls !! k'.
Proof.
  intros Hne. unfold saveProject.
  destruct (JSON_stringify _); [|reflexivity]. now rewrite lookup_insert_ne.
Qed.

(** The archive key is not the project's own key. *)
Lemma archiveKey_fresh (k now : jsstring) : archiveKey k now <> STORAGE_PREFIX ++ k.
Proof.
  unfold archiveKey. intros H. apply (f_equal (@List.length N)) in H.
  rewrite !length_app in H. simpl in H. lia.
Qed.

Lemma archiveKey_prefix (k now : jsstring) :
  startsWith (archiveKey k now)
    (STORAGE_PREFIX ++ lit "archive:" ++ k ++ lit ":") = true.
Proof.
  apply JSFacts.startsWith_prefix. exists (archive_timestamp now).
  unfold archiveKey. now rewrite <- !app_assoc.
Qed.

(** An entry that parses is listed, provided no entry under the archive
    prefix fails to parse. *)
Lemma collect_archives_In (archivePrefix : jsstring)
  (ls : gmap jsstring jsstring) (k raw : jsstring) (p : SavedProject DiagramData) :
  forall ks,
  (forall k' raw', ls !! k' = Some raw' -> startsWith k' archivePrefix = true ->
                   raw' <> [] -> is_Some (JSON_parse raw')) ->
  In k ks -> startsWith k archivePrefix = true ->
  ls !! k = Some raw -> raw <> [] -> JSON_parse raw = Some p ->
  In {| project := p; storageKey := k |}
     (collect_archives JSON_parse archivePrefix ls ks).
Proof.
  intros ks Hwf Hin Hpre Hk Hne Hp.
  induction ks as [|k0 ks IH]; [destruct Hin|]. simpl.
  destruct Hin as [->|Hin].
  - rewrite Hpre, Hk. destruct raw; [congruence|]. rewrite Hp. now left.
  - specialize (IH Hin).
    destruct (startsWith k0 archivePrefix) eqn:E0; [|assumption].
    destruct (ls !! k0) as [[|x raw0]|] eqn:E1; try assumption.
    destruct (Hwf k0 (x :: raw0) E1 E0 ltac:(discriminate)) as [p0 ->].
    now right.
Qed.

Lemma sort_insert_perm (cmp : ArchivedProject DiagramData -> ArchivedProject DiagramData -> Z)
  (a : ArchivedProject DiagramData) (l : list (ArchivedProject DiagramData)) :
  Permutation (sort_insert cmp a l) (a :: l).
Proof.
  induction l as [|b l IH]; simpl; [reflexivity|].
  destruct (cmp a b <=? 0)%Z; [reflexivity|]. rewrite IH. apply perm_swap.
Qed.

(** Sorting keeps the elements. *)
Lemma sort_perm (cmp : ArchivedProject DiagramData -> ArchivedProject DiagramData -> Z)
  (l : list (ArchivedProject DiagramData)) :
  Permutation (sort cmp l) l.
Proof.
  induction l as [|a l IH]; simpl; [reflexivity|].
  rewrite sort_insert_perm. now constructor.
Qed.

(** C10, as amended — archiving a key that has a saved project, in a store
    whose other archive entries of the key are parseable and whose key
    enumeration misses no key, moves the stored string as it is:
    afterwards [loadProject] finds nothing under the key; the project (the
    same parsed entry, so the same diagram, code and [savedAt]) is in
    [listArchivedProjects] with the timestamped archive key as its storage
    key; the archive key holds the very string the project key held; and
    every other storage key holds what it held. *)
Theorem archive_moves_entry (now k : jsstring) (ls : gmap jsstring jsstring)
  (p : SavedProject DiagramData) :
  loadProject JSON_parse k ls = Some p ->
  (forall k' raw', ls !! k' = Some raw' ->
       startsWith k' (STORAGE_PREFIX ++ lit "archive:" ++ k ++ lit ":") = true ->
       raw' <> [] -> is_Some (JSON_parse raw')) ->
  (forall (m : gmap jsstring jsstring) k', is_Some (m !! k') -> In k' (storage_keys m)) ->
  let ls' := archiveProject now k ls in
  loadProject JSON_parse k ls' = None
  /\ In {| project := p; storageKey := archiveKey k now |}
        (listArchivedProjects JSON_parse storage_keys getTime k ls')
  /\ ls' !! archiveKey k now = ls !! (STORAGE_PREFIX ++ k)
  /\ forall k', k' <> STORAGE_PREFIX ++ k -> k' <> archiveKey k now ->
                ls' !! k' = ls !! k'.
Proof.
  intros Hload Hwf Hkeys. cbv zeta.
  unfold loadProject in Hload.
  destruct (ls !! (STORAGE_PREFIX ++ k)) as [raw|] eqn:Hraw; [|discriminate].
  destruct raw as [|x raw]; [discriminate|].
  pose proof (archiveKey_fresh k now) as Hfresh.
  assert (archiveProject now k ls
          = delete (STORAGE_PREFIX ++ k) (<[archiveKey k now := x :: raw]> ls))
    as -> by (unfold archiveProject; now rewrite Hraw).
  assert (delete (STORAGE_PREFIX ++ k) (<[archiveKey k now := x :: raw]> ls)
            !! archiveKey k now = Some (x :: raw)) as Hnew
    by (rewrite lookup_delete_ne by congruence; apply lookup_insert_eq).
  split; [|split; [|split]].
  - unfold loadProject. now rewrite lookup_delete_eq.
  - unfold listArchivedProjects.
    eapply Permutation_in; [symmetry; apply sort_perm|].
    apply collect_archives_In with (raw := x :: raw);
      try assumption; try discriminate.
    + intros k' raw' Hk' Hpre Hne.
      destruct (decide (k' = STORAGE_PREFIX ++ k)) as [->|Hk1];
        [now rewrite lookup_delete_eq in Hk'|].
      rewrite lookup_delete_ne in Hk' by congruence.
      destruct (decide (k' = archiveKey k now)) as [->|Hk2].
      * rewrite lookup_insert_eq in Hk'. injection Hk' as <-. eauto.
      * rewrite lookup_insert_ne in Hk' by congruence. eauto.
    + apply Hkeys. rewrite Hnew. eauto.
    + apply archiveKey_prefix.
  - exact Hnew.
  - intros k' Hk1 Hk2.
    rewrite lookup_delete_ne by congruence. now rewrite lookup_insert_ne by congruence.
Qed.

(** Nothing to archive: the store is left as it is. *)
Lemma archive_nothing (now k : jsstring) (ls : gmap jsstring jsstring) :
  ls !! (STORAGE_PREFIX ++ k) = None \/ ls !! (STORAGE_PREFIX ++ k) = Some [] ->
  archiveProject now k ls = ls.
Proof.
  intros [H|H]; unfold archiveProject; now rewrite H.
Qed.

End Facts.

Lemma save_then_load_witness :
  loadProject Codec.parse Codec.sample_key
    (saveProject Codec.stringify Codec.sample_now Codec.sample_key
       Codec.sample_diagram Codec.sample_code ∅)
  = Some Codec.sample_entry.
Proof.
  apply (save_then_load Codec.stringify Codec.parse Codec.sample_now
           Codec.sample_key Codec.sample_diagram Codec.sample_code ∅
           Codec.sample_raw).
  - reflexivity.
  - vm_compute. discriminate.
  - vm_compute. reflexivity.
Defined.

(** The enumeration of the keys by [map_to_list] misses no key. *)
Lemma keys_complete (m : gmap jsstring jsstring) (k : jsstring) :
  is_Some (m !! k) -> In k (Codec.keys m).
Proof.
  intros [v Hv]. unfold Codec.keys.
  apply (in_map fst (map_to_list m) (k, v)).
  apply list_elem_of_In. now apply elem_of_map_to_list.
Qed.

Lemma archive_moves_entry_witness :
  loadProject Codec.parse Codec.sample_key
    (archiveProject Codec.sample_now Codec.sample_key Codec.sample_store) = None
  /\ In {| project := Codec.sample_entry;
           storageKey := archiveKey Codec.sample_key Codec.sample_now |}
        (listArchivedProjects Codec.parse Codec.keys (fun _ => None)
           Codec.sample_key
           (archiveProject Codec.sample_now Codec.sample_key Codec.sample_store)).
Proof.
  pose proof (archive_moves_entry Codec.parse Codec.keys (fun _ => None)
                Codec.sample_now Codec.sample_key Codec.sample_store
                Codec.sample_entry) as H.
  cbv zeta in H.
  assert (loadProject Codec.parse Codec.sample_key Codec.sample_store
          = Some Codec.sample_entry) as Hload.
  { unfold loadProject, Codec.sample_store. rewrite lookup_insert_eq.
    vm_compute. reflexivity. }
  destruct (H Hload) as (H1 & H2 & _).
  - intros k' raw' Hk Hpre _. unfold Codec.sample_store in Hk.
    destruct (decide (k' = STORAGE_PREFIX ++ Codec.sample_key)) as [->|Hne].
    + vm_compute in Hpre. discriminate.
    + rewrite lookup_insert_ne, lookup_empty in Hk by congruence. discriminate.
  - apply keys_complete.
  - split; assumption.
Defined.

(** C10 as stated fails.  The store holds the sample project and, under an
    older archive key of the same project, a text that is no JSON.  After
    [archiveProject] the new archive key holds the project's string, but
    [listArchivedProjects] returns nothing: its loop meets the unreadable
    entry first, [JSON.parse] throws, and the one [try] around the whole
    loop ends it before the new archive is read. *)
Lemma archive_hidden_by_unreadable_entry :
  let ls := Codec.sample_unreadable in
  let ls' := archiveProject Codec.sample_now Codec.sample_key ls in
  loadProject Codec.parse Codec.sample_key ls = Some Codec.sample_entry
  /\ loadProject Codec.parse Codec.sample_key ls' = None
  /\ ls' !! archiveKey Codec.sample_key Codec.sample_now = Some Codec.sample_raw
  /\ listArchivedProjects Codec.parse Codec.keys Codec.clock
       Codec.sample_key ls' = [].
Proof.
  cbv zeta. repeat split; vm_compute; reflexivity.
Qed.

End Store.

(* ===================================================================== *)
(** ** The icon lookup ([iconConstants.tsx]) *)
(* ===================================================================== *)

Module Icons.
Import JS IconConstants.

Section Facts.

Context {Element Inherited : Type}.
Variable BASE_ICONS : gmap jsstring (ReactNode Element).
Variable Generic : jsstring.
Variable Object_prototype : gmap jsstring Inherited.

Let lookup_icon := ICONS_get BASE_ICONS Generic Object_prototype.

(** [prop in obj] for a key the object has itself, for a key it inherits
    and for a key it does not have. *)
Lemma has_property_own {V : Type} (own : gmap jsstring V) (prop : jsstring) (v : V) :
  own !! prop = Some v -> has_property Object_prototype own prop = true.
Proof.
  intros H. unfold has_property.
  rewrite bool_decide_eq_true_2 by eauto. reflexivity.
Qed.

Lemma has_property_inherited {V : Type} (own : gmap jsstring V)
  (prop : jsstring) (v : Inherited) :
  Object_prototype !! prop = Some v ->
  has_property Object_prototype own prop = true.
Proof.
  intros H. unfold has_property.
  rewrite (bool_decide_eq_true_2 (is_Some (Object_prototype !! prop))) by eauto.
  apply orb_true_r.
Qed.

Lemma has_property_none {V : Type} (own : gmap jsstring V) (prop : jsstring) :
  own !! prop = None -> Object_prototype !! prop = None ->
  has_property Object_prototype own prop = false.
Proof.
  intros H1 H2. unfold has_property.
  rewrite !bool_decide_eq_false_2; [reflexivity| |];
    rewrite ?H1, ?H2; intros [? ?]; discriminate.
Qed.

(** The lookup itself loads nothing: the flag and the cache are as before;
    at most an import is started. *)
Lemma ICONS_get_state (st : CloudState) (prop : jsstring) :
  CLOUD_ICONS_LOADED (snd (lookup_icon st prop)) = CLOUD_ICONS_LOADED st
  /\ CLOUD_ICONS_CACHE (snd (lookup_icon st prop)) = CLOUD_ICONS_CACHE st.
Proof.
  unfold lookup_icon, ICONS_get, loadCloudIcons.
  destruct (has_property Object_prototype BASE_ICONS prop); simpl; auto.
  destruct (CLOUD_ICONS_LOADED st) eqn:E; simpl;
    [destruct (has_property Object_prototype (CLOUD_ICONS_CACHE st) prop)|];
    simpl; rewrite ?E; auto.
  destruct (cloudIconsLoadPromise st); simpl; auto.
Qed.

(** [ICONS[key]] for any string key, given that the generic icon is in
    [BASE_ICONS].  The lookup is a total function that returns at once with
    a defined value.  For a key that [BASE_ICONS] has itself it is the base
    icon.  For a key that is no base icon but a property every object
    inherits ([toString], [constructor], ...), it is the inherited value,
    which is no icon, and no import is started.  For every other key it is
    the cached cloud icon when the library is loaded and has the key, and
    the generic icon otherwise; a miss before the library is loaded leaves
    the library not loaded, with the import started. *)
Lemma ICONS_lookup_cases (st : CloudState) (key : jsstring)
  (generic : ReactNode Element) :
  BASE_ICONS !! Generic = Some generic ->
  let r := fst (lookup_icon st key) in
  let st' := snd (lookup_icon st key) in
  is_Some r
  /\ (forall icon, BASE_ICONS !! key = Some icon ->
                   r = Some (IconValue icon) /\ st' = st)
  /\ (forall v, BASE_ICONS !! key = None ->
                Object_prototype !! key = Some v ->
                r = Some (InheritedValue v) /\ st' = st)
  /\ (BASE_ICONS !! key = None -> Object_prototype !! key = None ->
      (forall s, CLOUD_ICONS_LOADED st = true ->
                 CLOUD_ICONS_CACHE st !! key = Some s ->
                 r = Some (IconValue (Text s)) /\ st' = st)
      /\ (CLOUD_ICONS_LOADED st = false \/ CLOUD_ICONS_CACHE st !! key = None ->
          r = Some (IconValue generic))
      /\ (CLOUD_ICONS_LOADED st = false ->
          CLOUD_ICONS_LOADED st' = false /\ phase st' = Loading)).
Proof.
  intros Hgen. cbv zeta. unfold lookup_icon, ICONS_get.
  destruct (BASE_ICONS !! key) as [icon|] eqn:Hb.
  - (* the key is in BASE_ICONS itself *)
    rewrite (has_property_own _ _ _ Hb). unfold get_property. rewrite Hb.
    cbn [fst snd].
    split; [eauto|]. split; [intros ? [= <-]; auto|].
    split; intros; discriminate.
  - destruct (Object_prototype !! key) as [v|] eqn:Hp.
    + (* the key is inherited *)
      rewrite (has_property_inherited _ _ _ Hp). unfold get_property.
      rewrite Hb, Hp. cbn [fst snd fmap option_fmap option_map].
      split; [eauto|]. split; [intros; discriminate|].
      split; [intros ? _ [= <-]; auto|intros; discriminate].
    + rewrite (has_property_none _ _ Hb Hp).
      assert (get_property Object_prototype (fun icon => icon) BASE_ICONS Generic
              = Some (IconValue generic)) as Hg
        by (unfold get_property; now rewrite Hgen).
      destruct (CLOUD_ICONS_LOADED st) eqn:Hl;
        [destruct (CLOUD_ICONS_CACHE st !! key) as [s|] eqn:Hc|].
      * (* loaded, and the library has the key *)
        rewrite (has_property_own _ _ _ Hc). cbn [andb fst snd].
        assert (get_property Object_prototype Text (CLOUD_ICONS_CACHE st) key
                = Some (IconValue (Text s))) as ->
          by (unfold get_property; now rewrite Hc).
        split; [eauto|]. split; [intros; discriminate|].
        split; [intros; discriminate|]. intros _ _.
        split; [intros ? _ [= <-]; auto|].
        split; [intros [?|?]; discriminate|intros; discriminate].
      * (* loaded, and the library does not have the key *)
        rewrite (has_property_none _ _ Hc Hp). cbn [andb negb fst snd].
        rewrite Hg.
        split; [eauto|]. split; [intros; discriminate|].
        split; [intros; discriminate|]. intros _ _.
        split; [intros; discriminate|]. split; [auto|intros; discriminate].
      * (* not loaded *)
        cbn [andb negb fst snd]. rewrite Hg.
        split; [eauto|]. split; [intros; discriminate|].
        split; [intros; discriminate|]. intros _ _.
        split; [intros; discriminate|]. split; [auto|].
        intros _. unfold loadCloudIcons, phase. rewrite Hl.
        destruct (cloudIconsLoadPromise st) eqn:E; cbn; rewrite ?Hl, ?E; auto.
Qed.

End Facts.

(** C8 — the lookup of [toString], before any cloud library is loaded.
    [BASE_ICONS] has no icon of that name and the generic icon is there,
    so the lookup should give the generic icon and start the import (as it
    does for [aws-s3]).  But [toString] is a property every object
    inherits, so the test of the first branch holds: what comes back is the
    inherited function, which is no icon, and no import is started. *)
Theorem inherited_key_is_no_icon :
  let lookup_icon := ICONS_get sample_base sample_generic sample_prototype in
  sample_base !! lit "toString" = None
  /\ sample_base !! sample_generic = Some (Node 0)
  /\ has_property sample_prototype sample_base (lit "toString") = true
  /\ lookup_icon initial (lit "toString")
     = (Some (InheritedValue (lit "function toString() { [native code] }")),
        initial)
  /\ fst (lookup_icon initial (lit "toString")) <> Some (IconValue (Node 0))
  /\ fst (lookup_icon initial (lit "aws-s3")) = Some (IconValue (Node 0))
  /\ phase (snd (lookup_icon initial (lit "aws-s3"))) = Loading.
Proof.
  cbv zeta.
  destruct (ICONS_lookup_cases sample_base sample_generic sample_prototype
              initial (lit "toString") (Node 0) eq_refl)
    as (_ & _ & Hinh & _).
  destruct (Hinh (lit "function toString() { [native code] }") eq_refl eq_refl)
    as [Hr Hst].
  destruct (ICONS_lookup_cases sample_base sample_generic sample_prototype
              initial (lit "aws-s3") (Node 0) eq_refl)
    as (_ & _ & _ & Hmiss).
  destruct (Hmiss eq_refl eq_refl) as (_ & Hgen & Hload).
  split; [reflexivity|]. split; [reflexivity|]. split; [reflexivity|].
  split; [rewrite (surjective_pairing (ICONS_get _ _ _ _ _)); now rewrite Hr, Hst|].
  split; [rewrite Hr; discriminate|].
  split; [apply Hgen; now left|apply Hload; reflexivity].
Qed.

End Icons.

(* ===================================================================== *)
(** ** The editor component: what the mirror shows, the cursor, the Tab key *)
(* ===================================================================== *)

Module EditorViewFacts.
Import JS CodeEditor EditorView JSFacts Highlighter.

(** A piece of the highlighter's markup shows nothing. *)
Lemma textContent_markup (m rest : jsstring) :
  In m markup -> textContent (m ++ rest) = textContent rest.
Proof.
  unfold markup, span_colors. cbn [List.map app]. intros Hm.
  repeat (destruct Hm as [<-|Hm]; [vm_compute; reflexivity|]).
  destruct Hm.
Qed.

Lemma textContent_esc_char (c : N) (rest : jsstring) :
  textContent (esc_char c ++ rest) = c :: textContent rest.
Proof.
  unfold esc_char.
  destruct (N.eqb c amp) eqn:Ea; [apply N.eqb_eq in Ea; subst; reflexivity|].
  destruct (N.eqb c lt) eqn:El; [apply N.eqb_eq in El; subst; reflexivity|].
  destruct (N.eqb c gt) eqn:Eg; [apply N.eqb_eq in Eg; subst; reflexivity|].
  unfold textContent. cbn [app html_text]. now rewrite El, Ea.
Qed.

(** Escaped text shows the text. *)
Lemma textContent_esc (t rest : jsstring) :
  textContent (esc t ++ rest) = t ++ textContent rest.
Proof.
  rewrite esc_chars. induction t as [|c t IH]; [reflexivity|].
  cbn [flat_map]. rewrite <- app_assoc, textContent_esc_char, IH. reflexivity.
Qed.

Lemma textContent_app (a b : jsstring) :
  escaped_html a -> textContent (a ++ b) = textContent a ++ textContent b.
Proof.
  induction 1 as [|t rest _ IH|m rest Hm _ IH].
  - reflexivity.
  - rewrite <- app_assoc, !textContent_esc, IH. now rewrite app_assoc.
  - rewrite <- app_assoc, (textContent_markup m (rest ++ b)) by assumption.
    rewrite (textContent_markup m rest) by assumption. exact IH.
Qed.

Lemma textContent_span (color text : jsstring) (bold : bool) :
  In color span_colors -> textContent (span color text bold) = text.
Proof.
  intros Hc. unfold span.
  rewrite textContent_markup by now apply span_open_markup.
  rewrite textContent_esc, <- (app_nil_r span_close), textContent_markup.
  - apply app_nil_r.
  - unfold markup. rewrite !in_app_iff. simpl. auto.
Qed.

Ltac in_colors := unfold span_colors; simpl; tauto.

(** One iteration shows exactly the characters it consumed. *)
Lemma step_textContent (line : jsstring) (i : nat) (ch : N) :
  nth_error line i = Some ch ->
  textContent (fst (step line i ch)) = substring line i (snd (step line i ch)).
Proof.
  intros Hi. unfold step.
  destruct (N.eqb ch space || N.eqb ch tab) eqn:Ews.
  { cbn [fst snd]. rewrite (substring_one _ _ _ Hi).
    apply orb_true_iff in Ews as [E|E]; apply N.eqb_eq in E; subst ch; reflexivity. }
  destruct (N.eqb ch dquote) eqn:Eq.
  { cbn [fst snd]. now rewrite textContent_span by in_colors. }
  destruct (str_eqb (substring line i (i + 3)) (lit "<->")) eqn:E3.
  { cbn [fst snd]. rewrite textContent_span by in_colors.
    symmetry. now apply str_eqb_eq. }
  destruct (str_eqb (substring line i (i + 2)) (lit "->")) eqn:E2.
  { cbn [fst snd]. rewrite textContent_span by in_colors.
    symmetry. now apply str_eqb_eq. }
  destruct (N.eqb ch lbrace || N.eqb ch rbrace) eqn:Eb.
  { cbn [fst snd]. rewrite textContent_span by in_colors.
    symmetry. now apply substring_one. }
  destruct (N.eqb ch colon) eqn:Ec.
  { cbn [fst snd]. rewrite textContent_span by in_colors.
    apply N.eqb_eq in Ec. subst ch. symmetry. now apply substring_one. }
  destruct (N.eqb ch equals) eqn:Ee.
  { cbn [fst snd]. apply N.eqb_eq in Ee. subst ch.
    rewrite (substring_cons _ _ _ _ Hi), <- while_prefix_firstn.
    rewrite textContent_app by (apply escaped_html_span; in_colors).
    rewrite textContent_span by in_colors.
    destruct (while_prefix is_value_char (skipn (S i) line)) as [|v val]; [reflexivity|].
    destruct (all_digits (v :: val)); now rewrite textContent_span by in_colors. }
  destruct (while_prefix is_word_char (skipn i line)) as [|w word] eqn:Ew.
  { cbn [fst snd]. rewrite (substring_one _ _ _ Hi).
    rewrite <- (app_nil_r (esc [ch])), textContent_esc. reflexivity. }
  cbn [fst snd]. rewrite substring_ordered by lia.
  replace (i + List.length (w :: word) - i) with (List.length (w :: word)) by lia.
  rewrite <- Ew, <- while_prefix_firstn, Ew.
  repeat match goal with
         | |- context [if ?b then _ else _] => destruct b
         end; now rewrite textContent_span by in_colors.
Qed.

(** While the loop runs, the output shows the part of the line already
    consumed, and is made of markup and escaped text. *)
Lemma reaches_textContent (line : jsstring) (i : nat) (out : jsstring) :
  reaches line i out ->
  escaped_html out /\ textContent out = firstn i line.
Proof.
  induction 1 as [|i out ch e i' Hr [IHe IHt] Hch Hstep].
  - split; [constructor|reflexivity].
  - pose proof (step_escaped line i ch) as He.
    pose proof (step_textContent line i ch Hch) as Ht.
    pose proof (step_advances line i ch) as Ha.
    rewrite Hstep in He, Ht, Ha. cbn [fst snd] in *.
    split; [now apply escaped_html_app|].
    rewrite textContent_app, IHt, Ht by assumption.
    rewrite substring_ordered by lia.
    replace i' with (i + (i' - i)) at 2 by lia. apply take_take_drop.
Qed.

(** X1 — the mirror shows the text of the line: with the tags taken away
    and the entities read back, the output of [highlightLine] for a line
    that is not a comment is the line itself, character for character; for
    a comment line it is one space per leading whitespace character followed
    by the comment; for the empty line it is a line feed. *)
Theorem highlightLine_shows_the_line (line : jsstring) :
  exists out,
    highlightLine line = Some out
    /\ textContent out
       = match line with
         | [] => [newline]
         | _ =>
             if is_comment_line line
             then spaces (List.length line - List.length (trimStart line))
                  ++ trimStart line
             else line
         end.
Proof.
  destruct (highlightLine_total line) as [out Hout]. exists out.
  split; [assumption|].
  destruct line as [|c line]; [injection Hout as <-; reflexivity|].
  destruct (is_comment_line (c :: line)) eqn:Ec.
  - rewrite highlightLine_comment in Hout by assumption.
    match type of Hout with Some ?x = _ => assert (out = x) as -> by congruence end.
    rewrite textContent_app by apply escaped_html_spaces.
    rewrite textContent_markup
      by (unfold markup; rewrite !in_app_iff; simpl; auto).
    rewrite textContent_esc, <- (app_nil_r span_close), textContent_markup
      by (unfold markup; rewrite !in_app_iff; simpl; auto).
    rewrite app_nil_r. f_equal.
    generalize (List.length (c :: line) - List.length (trimStart (c :: line))).
    intros n. induction n as [|n IH]; [reflexivity|].
    change (spaces (S n)) with (esc_char space ++ spaces n).
    now rewrite textContent_esc_char, IH.
  - unfold highlightLine, is_comment_line in *. rewrite Ec in Hout.
    destruct (scan_reaches _ _ _ _ _ (reaches_start _) Hout) as (i & Hr & Hi).
    destruct (reaches_textContent _ _ _ Hr) as [_ ->].
    now apply firstn_all2.
Qed.

(** *** Lines and the cursor *)

Lemma split_lines_aux_cur (s : jsstring) : forall cur,
  split_lines_aux cur s
  = match split_lines s with
    | h :: t => (rev cur ++ h) :: t
    | [] => []
    end.
Proof.
  unfold split_lines. induction s as [|x s IH]; intros cur; cbn [split_lines_aux].
  - cbn [rev app]. now rewrite app_nil_r.
  - destruct (N.eqb x newline).
    + cbn [rev app]. now rewrite app_nil_r.
    + rewrite (IH (x :: cur)), (IH [x]).
      destruct (split_lines_aux [] s) as [|h t]; [reflexivity|].
      cbn [rev app]. now rewrite <- app_assoc.
Qed.

(** [split('\\n')], one character at a time. *)
Lemma split_lines_cons (x : N) (s : jsstring) :
  split_lines (x :: s)
  = if N.eqb x newline then [] :: split_lines s
    else match split_lines s with
         | h :: t => (x :: h) :: t
         | [] => []
         end.
Proof.
  unfold split_lines at 1. cbn [split_lines_aux].
  destruct (N.eqb x newline); [reflexivity|].
  rewrite split_lines_aux_cur. reflexivity.
Qed.

Lemma split_lines_nonempty (s : jsstring) : split_lines s <> [].
Proof.
  induction s as [|x s IH]; [discriminate|]. rewrite split_lines_cons.
  destruct (N.eqb x newline); [discriminate|].
  destruct (split_lines s); [congruence|discriminate].
Qed.

Lemma lineCount_positive (s : jsstring) : 1 <= lineCount s.
Proof.
  unfold lineCount. pose proof (split_lines_nonempty s).
  destruct (split_lines s); [congruence|simpl; lia].
Qed.

Lemma lineCount_cons (x : N) (s : jsstring) :
  lineCount (x :: s) = if N.eqb x newline then S (lineCount s) else lineCount s.
Proof.
  unfold lineCount. rewrite split_lines_cons.
  destruct (N.eqb x newline); [reflexivity|].
  pose proof (split_lines_nonempty s). destruct (split_lines s); [congruence|reflexivity].
Qed.

(** A longer prefix has at least as many lines. *)
Lemma lineCount_firstn_mono (s : jsstring) : forall n m,
  n <= m -> lineCount (firstn n s) <= lineCount (firstn m s).
Proof.
  induction s as [|x s IH]; intros n m Hnm.
  - now rewrite !firstn_nil.
  - destruct n as [|n]; [apply lineCount_positive|].
    destruct m as [|m]; [lia|]. cbn [firstn]. rewrite !lineCount_cons.
    specialize (IH n m ltac:(lia)). destruct (N.eqb x newline); lia.
Qed.

(** X2 — the line number [updateActiveLine] computes, for the text it
    closes over: for every cursor position it lies between 1 and the number
    of lines of that text, it is 1 at the start of the text and the last
    line at its end, and it does not decrease when the cursor moves right.
    On a click the callback is the one of the current render, so the
    active line is one of the rows drawn.  After the Tab key the callback
    is the one of the render in which the key was pressed: the line is
    computed on the text before the key, and can be larger than the number
    of rows of the new text. *)
Theorem activeLine_in_range (value : jsstring) :
  (forall pos, 1 <= updateActiveLine value pos <= lineCount value)
  /\ updateActiveLine value 0 = 1
  /\ (forall pos, List.length value <= pos ->
        updateActiveLine value pos = lineCount value)
  /\ (forall pos pos', pos <= pos' ->
        updateActiveLine value pos <= updateActiveLine value pos')
  /\ (forall start stop,
        1 <= activeLineAfterTab value start stop <= lineCount value)
  /\ (exists text start stop,
        start <= stop <= List.length text
        /\ lineCount (fst (handleTab text start stop))
           < activeLineAfterTab text start stop).
Proof.
  assert (forall pos, updateActiveLine value pos = lineCount (firstn pos value)) as Hu.
  { intros pos. unfold updateActiveLine, lineCount.
    rewrite substring_ordered by lia. now rewrite Nat.sub_0_r. }
  assert (forall pos, 1 <= updateActiveLine value pos <= lineCount value) as Hrange.
  { intros pos. rewrite Hu. split; [apply lineCount_positive|].
    rewrite <- (firstn_all value) at 2.
    destruct (Nat.le_gt_cases pos (List.length value)).
    + now apply lineCount_firstn_mono.
    + rewrite !firstn_all2 by lia. lia. }
  split; [exact Hrange|]. split; [now rewrite Hu|].
  split; [intros pos Hpos; now rewrite Hu, firstn_all2|].
  split; [intros pos pos' Hle; rewrite !Hu; now apply lineCount_firstn_mono|].
  split; [intros start stop; apply Hrange|].
  exists (lit "ab" ++ [newline] ++ lit "cd" ++ [newline] ++ lit "ef"), 1, 7.
  vm_compute. lia.
Qed.

Lemma currentLine_cons (x : N) (s : jsstring) :
  currentLine (x :: s)
  = if negb (N.eqb x newline) && Nat.eqb (lineCount s) 1
    then x :: currentLine s else currentLine s.
Proof.
  unfold currentLine, lineCount. rewrite split_lines_cons.
  pose proof (split_lines_nonempty s) as Hne.
  destruct (split_lines s) as [|h [|h' t]]; [congruence| |];
    destruct (N.eqb x newline); reflexivity.
Qed.

Lemma currentLine_single (s : jsstring) : lineCount s = 1 -> currentLine s = s.
Proof.
  induction s as [|x s IH]; [reflexivity|]. rewrite lineCount_cons, currentLine_cons.
  pose proof (lineCount_positive s).
  destruct (N.eqb x newline); [lia|]. intros H1. rewrite H1. cbn. now rewrite IH.
Qed.

(** Where [lastIndexOf] finds the last line feed. *)
Lemma last_index_newline (s : jsstring) : forall idx acc,
  last_index newline s idx acc
  = if Nat.eqb (lineCount s) 1 then acc
    else (idx + Z.of_nat (List.length s)
          - Z.of_nat (List.length (currentLine s)) - 1)%Z.
Proof.
  induction s as [|x s IH]; intros idx acc; [reflexivity|].
  cbn [last_index]. rewrite IH, lineCount_cons, currentLine_cons.
  pose proof (lineCount_positive s) as Hp.
  destruct (N.eqb x newline) eqn:Ex; cbn [negb andb].
  - destruct (Nat.eqb (lineCount s) 1) eqn:E1.
    + apply Nat.eqb_eq in E1. rewrite (currentLine_single _ E1).
      replace (S (lineCount s) =? 1) with false
        by (symmetry; apply Nat.eqb_neq; lia).
      cbn [List.length]. lia.
    + replace (S (lineCount s) =? 1) with false
        by (symmetry; apply Nat.eqb_neq; lia).
      cbn [List.length]. lia.
  - destruct (Nat.eqb (lineCount s) 1) eqn:E1; [reflexivity|].
    cbn [List.length]. lia.
Qed.

(** [split('\\n')] of a text cut in two: the last line of the first part
    and the first line of the second are one line. *)
Lemma split_lines_app (a b : jsstring) :
  split_lines (a ++ b)
  = removelast (split_lines a)
    ++ (currentLine a ++ hd [] (split_lines b)) :: tl (split_lines b).
Proof.
  unfold currentLine. induction a as [|x a IH].
  - change (split_lines []) with [@nil N]. cbn [removelast List.last app].
    pose proof (split_lines_nonempty b). now destruct (split_lines b).
  - cbn [app]. rewrite !split_lines_cons, IH.
    pose proof (split_lines_nonempty a) as Hne.
    destruct (N.eqb x newline).
    + destruct (split_lines a) as [|h t]; [congruence|reflexivity].
    + destruct (split_lines a) as [|h [|h' t]]; [congruence| |]; reflexivity.
Qed.

Lemma lineCount_app (a b : jsstring) :
  lineCount (a ++ b) + 1 = lineCount a + lineCount b.
Proof.
  unfold lineCount. rewrite split_lines_app, length_app.
  pose proof (split_lines_nonempty a) as Ha.
  pose proof (split_lines_nonempty b) as Hb.
  destruct (split_lines b) as [|hb tb]; [congruence|].
  destruct (exists_last Ha) as (ta & ha & ->).
  rewrite removelast_last, length_app. simpl. lia.
Qed.

Lemma currentLine_app_single (a b : jsstring) :
  lineCount b = 1 -> currentLine (a ++ b) = currentLine a ++ b.
Proof.
  intros Hb. pose proof (currentLine_single b Hb) as Hc.
  unfold currentLine, lineCount in *. rewrite split_lines_app.
  destruct (split_lines b) as [|hb [|hb' tb]]; try discriminate.
  cbn in Hc. subst hb. cbn [hd tl]. now rewrite last_last.
Qed.

Lemma lineCount_spaces (b : jsstring) : lineCount (lit "    " ++ b) = lineCount b.
Proof.
  change (lit "    ") with [space; space; space; space]. cbn [app].
  now rewrite !lineCount_cons.
Qed.

Lemma substring_from_start (v : jsstring) (p : nat) :
  substring v 0 p = firstn p v.
Proof. rewrite substring_ordered by lia. now rewrite Nat.sub_0_r. Qed.

Lemma cursorColumn_after_start (value : jsstring) (pos : nat) :
  1 <= pos <= List.length value ->
  cursorColumn value pos
  = (1 + Z.of_nat (List.length (currentLine (firstn pos value))))%Z.
Proof.
  intros Hpos. unfold cursorColumn, lastIndexOf. cbv zeta.
  replace (Z.to_nat (Z.min (Z.max (Z.of_nat pos - 1) 0)
                       (Z.of_nat (List.length value) - 1) + 1)) with pos by lia.
  rewrite last_index_newline, length_firstn, Nat.min_l by lia.
  destruct (Nat.eqb (lineCount (firstn pos value)) 1) eqn:E1; [|lia].
  apply Nat.eqb_eq in E1. rewrite (currentLine_single _ E1), length_firstn. lia.
Qed.

(** X3 — the column of the status bar.  For a text and a cursor position
    inside it, the column computed is one more than the number of
    characters between the last line feed before the cursor and the
    cursor, and the line number [updateActiveLine] computes for the same
    text and position is the number of the row that begins with those
    characters; except that with the cursor at the very start of a text
    whose first character is a line feed the column is 0.  (The two are
    shown together after a click; after a key press the line number shown
    was computed on the text before the key.) *)
Theorem cursor_column (value : jsstring) (pos : nat) :
  pos <= List.length value ->
  cursorColumn value pos
  = (if Nat.eqb pos 0 && startsWith value [newline] then 0
     else 1 + Z.of_nat (List.length (currentLine (firstn pos value))))%Z
  /\ exists rest,
       nth_error (split_lines value) (updateActiveLine value pos - 1)
       = Some (currentLine (firstn pos value) ++ rest).
Proof.
  intros Hpos. split.
  - destruct pos as [|pos]; [|now rewrite cursorColumn_after_start by lia].
    destruct value as [|x value]; [reflexivity|].
    unfold cursorColumn, lastIndexOf. cbv zeta.
    replace (Z.to_nat (Z.min (Z.max (Z.of_nat 0 - 1) 0)
                         (Z.of_nat (List.length (x :: value)) - 1) + 1)) with 1
      by (cbn [List.length]; lia).
    cbn. destruct (N.eqb x newline); reflexivity.
  - unfold updateActiveLine. rewrite substring_from_start.
    assert (split_lines value
            = split_lines (firstn pos value ++ skipn pos value)) as ->
      by now rewrite firstn_skipn.
    rewrite split_lines_app.
    exists (hd [] (split_lines (skipn pos value))).
    unfold currentLine.
    destruct (exists_last (split_lines_nonempty (firstn pos value))) as (t & h & ->).
    rewrite removelast_last, last_last, length_app. cbn [List.length].
    rewrite nth_error_app2 by lia.
    replace (List.length t + 1 - 1 - List.length t) with 0 by lia. reflexivity.
Qed.

Lemma cursor_column_witness :
  cursorColumn (lit "ab" ++ [newline] ++ lit "cd") 4 = 2%Z.
Proof.
  apply (cursor_column (lit "ab" ++ [newline] ++ lit "cd") 4).
  cbn. lia.
Defined.

Lemma lineCount_skipn_mono (s : jsstring) (n m : nat) :
  n <= m -> lineCount (skipn m s) <= lineCount (skipn n s).
Proof.
  intros Hnm.
  assert (skipn m s = skipn (m - n) (skipn n s)) as ->
    by (rewrite skipn_skipn; f_equal; lia).
  pose proof (lineCount_app (firstn (m - n) (skipn n s))
                (skipn (m - n) (skipn n s))) as H.
  rewrite firstn_skipn in H.
  pose proof (lineCount_positive (firstn (m - n) (skipn n s))). lia.
Qed.

(** X4 — the Tab key, for a selection inside the text: the selection is
    replaced by four spaces, what was before and after it stays, and the
    cursor is put right behind the spaces; it stays on its line, four
    columns further right, and the text does not get more lines. *)
Theorem tab_inserts_four_spaces (value : jsstring) (start stop : nat) :
  start <= stop <= List.length value ->
  let value' := fst (handleTab value start stop) in
  let cursor' := snd (handleTab value start stop) in
  value' = firstn start value ++ lit "    " ++ skipn stop value
  /\ firstn cursor' value' = firstn start value ++ lit "    "
  /\ skipn cursor' value' = skipn stop value
  /\ updateActiveLine value' cursor' = updateActiveLine value start
  /\ cursorColumn value' cursor'
     = (1 + Z.of_nat (List.length (currentLine (firstn start value))) + 4)%Z
  /\ lineCount value' <= lineCount value.
Proof.
  intros Hsel. cbv zeta. unfold handleTab. cbn [fst snd].
  rewrite substring_from_start, substring_ordered by lia.
  rewrite (firstn_all2 (skipn stop value)) by (rewrite length_skipn; lia).
  assert (List.length (firstn start value ++ lit "    ") = start + 4) as Hlen
    by (rewrite length_app, length_firstn; cbn; lia).
  assert (firstn (start + 4)
            (firstn start value ++ lit "    " ++ skipn stop value)
          = firstn start value ++ lit "    ") as Hbefore.
  { rewrite app_assoc, firstn_app, Hlen, Nat.sub_diag, firstn_O, app_nil_r.
    apply firstn_all2. lia. }
  split; [reflexivity|]. split; [exact Hbefore|]. split.
  { rewrite app_assoc, skipn_app, Hlen, Nat.sub_diag.
    rewrite skipn_all2 by lia. reflexivity. }
  assert (forall v p, updateActiveLine v p = lineCount (firstn p v)) as Hu.
  { intros v p. unfold updateActiveLine, lineCount.
    now rewrite substring_from_start. }
  split; [|split].
  - rewrite !Hu, Hbefore.
    pose proof (lineCount_app (firstn start value) (lit "    ")) as H.
    change (lineCount (lit "    ")) with 1 in H. lia.
  - rewrite cursorColumn_after_start
      by (rewrite !length_app, length_firstn, length_skipn; cbn; lia).
    rewrite Hbefore, currentLine_app_single by reflexivity.
    rewrite length_app. cbn [List.length lit]. cbn. lia.
  - pose proof (lineCount_app (firstn start value) (lit "    " ++ skipn stop value)) as H1.
    rewrite lineCount_spaces in H1.
    pose proof (lineCount_app (firstn start value) (skipn start value)) as H2.
    rewrite firstn_skipn in H2.
    pose proof (lineCount_skipn_mono value start stop ltac:(lia)). lia.
Qed.

Lemma tab_inserts_four_spaces_witness :
  fst (handleTab (lit "node a") 4 6) = lit "node" ++ lit "    ".
Proof.
  destruct (tab_inserts_four_spaces (lit "node a") 4 6) as (H & _).
  - cbn. lia.
  - rewrite H. reflexivity.
Defined.

Lemma render_rows_length (el : option Z) (lines : list jsstring) : forall idx,
  List.length (render_rows el idx lines) = List.length lines.
Proof.
  induction lines as [|l lines IH]; intros idx; cbn; [reflexivity|].
  now rewrite IH.
Qed.

(** X5 — the two layers have the same height: the mirror draws one row per
    line of the text, then empty rows up to fifteen, each 24 high, which is
    the minimum height of the textarea; and there is always at least one
    row. *)
Theorem mirror_matches_textarea (value : jsstring) (errorLine : option Z) :
  List.length (rows value errorLine) = lineCount value
  /\ 1 <= lineCount value
  /\ List.length (rows value errorLine) + padRows value
     = Nat.max (lineCount value) 15
  /\ mirrorMinHeight value errorLine = textareaMinHeight value.
Proof.
  assert (List.length (rows value errorLine) = lineCount value) as Hrows
    by apply render_rows_length.
  unfold mirrorMinHeight, textareaMinHeight, padRows. rewrite Hrows.
  pose proof (lineCount_positive value).
  destruct (lineCount value <? 15) eqn:E;
    [apply Nat.ltb_lt in E|apply Nat.ltb_ge in E]; repeat split; lia.
Qed.

End EditorViewFacts.

(* ===================================================================== *)
(** ** The page: undo, redo, generate, resume and new project *)
(* ===================================================================== *)

Module PageFacts.
Import JS CubegenDSL CodePlayground PageHandlers.

Section Facts.

Context {DiagramData : Type}.
Variable nodeCount : DiagramData -> nat.

Let State := State DiagramData.

Lemma array_set_in_range {A : Type} (hole : A) (l : list A) (i : nat) (x : A) :
  i < List.length l ->
  array_set hole l i x = <[i:=x]> l.
Proof.
  intros H. unfold array_set. now rewrite (proj2 (Nat.ltb_lt _ _) H).
Qed.

Lemma nth_error_lookup {A : Type} (l : list A) (i : nat) :
  nth_error l i = l !! i.
Proof.
  revert i. induction l as [|x l IH]; intros [|i]; cbn; auto.
Qed.

Lemma array_set_length {A : Type} (hole : A) (l : list A) (i : nat) (x : A) :
  List.length (array_set hole l i x) = Nat.max (List.length l) (S i).
Proof.
  unfold array_set. destruct (i <? List.length l) eqn:E.
  - apply Nat.ltb_lt in E. rewrite length_insert. lia.
  - apply Nat.ltb_ge in E. rewrite !length_app, repeat_length. simpl. lia.
Qed.

(** X6 — [history[historyIndex]] is always an entry of the history: the
    index is in range when the page mounts, after New Project, after
    loading an archived project and after Generate, and every update, undo
    and redo keeps it in range. *)
Theorem history_index_in_range (st : State) :
  index_in_range st ->
  (forall d fromHistory, index_in_range (handleDiagramUpdate d fromHistory st))
  /\ index_in_range (handleUndo st)
  /\ index_in_range (handleRedo st)
  /\ (forall parse, index_in_range (handleGenerate parse st))
  /\ (forall saved, index_in_range (state (mount nodeCount saved)))
  /\ (forall now (p : Page DiagramData) ls,
        index_in_range (state (fst (handleNewProject now p ls))))
  /\ (forall a (p : Page DiagramData),
        index_in_range (state (handleLoadArchived nodeCount a p)))
  /\ exists d, nth_error (history st) (historyIndex st) = Some d
               /\ diagramData st = d.
Proof.
  unfold index_in_range. intros Hin. repeat split.
  - intros d [|]; unfold handleDiagramUpdate; cbn.
    + rewrite array_set_length. lia.
    + rewrite length_app, length_firstn. cbn. lia.
  - unfold handleUndo. destruct (0 <? historyIndex st); cbn; lia.
  - unfold handleRedo.
    destruct (historyIndex st <? List.length (history st) - 1) eqn:E; cbn;
      [apply Nat.ltb_lt in E|]; lia.
  - intros parse. unfold handleGenerate.
    destruct (trim (code st)); [assumption|].
    destruct (success _); [destruct (data _)|]; cbn; lia.
  - intros [s|]; cbn; lia.
  - intros; cbn; lia.
  - intros; cbn; lia.
  - unfold diagramData.
    destruct (nth_error (history st) (historyIndex st)) as [d|] eqn:E; [eauto|].
    apply nth_error_None in E. lia.
Qed.

(** X7 — a new diagram is a new undo step: the update puts it after the
    current entry and drops the redo entries; the entries up to the current
    one stay; undo shows the diagram from before and redo the new one
    again. *)
Theorem update_then_undo (st : State) (d : DiagramData) :
  index_in_range st ->
  let st1 := handleDiagramUpdate d false st in
  history st1 = firstn (historyIndex st + 1) (history st) ++ [Some d]
  /\ historyIndex st1 = historyIndex st + 1
  /\ diagramData st1 = Some d
  /\ canUndo st1 = true /\ canRedo st1 = false
  /\ diagramData (handleUndo st1) = diagramData st
  /\ diagramData (handleRedo (handleUndo st1)) = Some d.
Proof.
  unfold index_in_range. intros Hin. cbv zeta.
  assert (List.length (firstn (historyIndex st + 1) (history st))
          = historyIndex st + 1) as Hlen by (rewrite length_firstn; lia).
  unfold handleDiagramUpdate, handleUndo, handleRedo, canUndo, canRedo, diagramData.
  cbn [history historyIndex with_history]. rewrite Hlen.
  replace (0 <? historyIndex st + 1) with true by (symmetry; apply Nat.ltb_lt; lia).
  cbn [history historyIndex with_history].
  rewrite !length_app, Hlen. cbn [List.length].
  replace (historyIndex st + 1 - 1) with (historyIndex st) by lia.
  replace (historyIndex st + 1 <? historyIndex st + 1 + 1 - 1) with false
    by (symmetry; apply Nat.ltb_ge; lia).
  replace (historyIndex st <? historyIndex st + 1 + 1 - 1) with true
    by (symmetry; apply Nat.ltb_lt; lia).
  cbn [history historyIndex with_history].
  assert (nth_error (firstn (historyIndex st + 1) (history st) ++ [Some d])
            (historyIndex st + 1) = Some (Some d)) as Hnew.
  { rewrite nth_error_app2 by lia. rewrite Hlen, Nat.sub_diag. reflexivity. }
  assert (nth_error (firstn (historyIndex st + 1) (history st) ++ [Some d])
            (historyIndex st) = nth_error (history st) (historyIndex st)) as Hold.
  { rewrite nth_error_app1 by lia. rewrite nth_error_firstn.
    now replace (historyIndex st <? historyIndex st + 1) with true
      by (symmetry; apply Nat.ltb_lt; lia). }
  rewrite Hnew, Hold. repeat split; reflexivity.
Qed.

(** X8 — undo and redo undo each other, and stop at the ends: with an
    earlier entry, undo then redo is back at the same entry of the same
    history; with a later entry, redo then undo is; at the first entry undo
    changes nothing, at the last redo changes nothing. *)
Theorem undo_redo_inverse (st : State) :
  index_in_range st ->
  (canUndo st = true ->
     history (handleRedo (handleUndo st)) = history st
     /\ historyIndex (handleRedo (handleUndo st)) = historyIndex st
     /\ historyIndex (handleUndo st) + 1 = historyIndex st)
  /\ (canRedo st = true ->
     history (handleUndo (handleRedo st)) = history st
     /\ historyIndex (handleUndo (handleRedo st)) = historyIndex st
     /\ historyIndex (handleRedo st) = historyIndex st + 1)
  /\ (canUndo st = false -> handleUndo st = st /\ historyIndex st = 0)
  /\ (canRedo st = false ->
     handleRedo st = st /\ historyIndex st + 1 = List.length (history st)).
Proof.
  unfold index_in_range, canUndo, canRedo, handleUndo, handleRedo.
  intros Hin. split; [|split; [|split]]; intros H; rewrite H;
    cbn [history historyIndex with_history].
  - apply Nat.ltb_lt in H.
    replace (historyIndex st - 1 <? List.length (history st) - 1) with true
      by (symmetry; apply Nat.ltb_lt; lia).
    cbn [history historyIndex with_history]. repeat split; lia.
  - apply Nat.ltb_lt in H.
    replace (0 <? historyIndex st + 1) with true
      by (symmetry; apply Nat.ltb_lt; lia).
    cbn [history historyIndex with_history]. repeat split; lia.
  - apply Nat.ltb_ge in H. split; [reflexivity|lia].
  - apply Nat.ltb_ge in H. split; [reflexivity|lia].
Qed.

(** X9 — an update in place (a property edit) is no undo step: the history
    keeps its length and the index its value, the current entry becomes the
    new diagram, every other entry stays, and what undo and redo can do is
    unchanged. *)
Theorem update_in_place (st : State) (d : DiagramData) :
  index_in_range st ->
  let st1 := handleDiagramUpdate d true st in
  List.length (history st1) = List.length (history st)
  /\ historyIndex st1 = historyIndex st
  /\ diagramData st1 = Some d
  /\ (forall i, i <> historyIndex st ->
        nth_error (history st1) i = nth_error (history st) i)
  /\ canUndo st1 = canUndo st /\ canRedo st1 = canRedo st
  /\ selectedIds st1 = selectedIds st.
Proof.
  unfold index_in_range. intros Hin. cbv zeta.
  unfold handleDiagramUpdate, canUndo, canRedo, diagramData.
  cbn [history historyIndex selectedIds with_history].
  rewrite array_set_in_range by assumption. rewrite length_insert.
  repeat split.
  - now rewrite nth_error_lookup, list_lookup_insert_eq.
  - intros i Hi. now rewrite !nth_error_lookup, list_lookup_insert_ne.
Qed.


(** X10 — a successful Generate starts the history over: with a result that
    has [success] and [data], the history is that one diagram, nothing is
    selected, there is nothing to undo or redo, the list of errors is empty
    and the editor marks no row. *)
Theorem generate_success_resets (parse : jsstring -> ParseResult DiagramData)
  (st : State) (d : DiagramData) :
  trim (code st) <> [] ->
  success (parse (code st)) = true ->
  data (parse (code st)) = Some d ->
  let st' := handleGenerate parse st in
  history st' = [Some d] /\ historyIndex st' = 0 /\ diagramData st' = Some d
  /\ selectedIds st' = [] /\ parseErrors st' = [] /\ error st' = None
  /\ canUndo st' = false /\ canRedo st' = false
  /\ errorLine st' = None
  /\ forall value row, In row (CodeEditor.rows value (errorLine st')) ->
       CodeEditor.isError row = false /\ CodeEditor.marker row = false.
Proof.
  intros Hne Hs Hd. cbv zeta. unfold handleGenerate.
  destruct (trim (code st)) as [|c t]; [congruence|]. rewrite Hs, Hd.
  repeat (split; [reflexivity|]).
  intros value row Hin. unfold CodeEditor.rows in Hin.
  destruct (Generate.render_rows_error _ _ _ _ Hin) as [He Hm].
  rewrite Hm, He. split; reflexivity.
Qed.

End Facts.

Lemma history_index_in_range_witness :
  index_in_range (handleUndo (handleDiagramUpdate 7 false sample_state)).
Proof.
  assert (index_in_range sample_state) as H0 by (cbv; lia).
  destruct (history_index_in_range (fun _ => 0) sample_state H0) as (Hu & _).
  destruct (history_index_in_range (fun _ => 0) _ (Hu 7 false)) as (_ & H & _).
  exact H.
Defined.

Lemma update_then_undo_witness :
  diagramData (handleUndo (handleDiagramUpdate 7 false sample_state)) = Some 5.
Proof.
  destruct (update_then_undo sample_state 7) as (_ & _ & _ & _ & _ & H & _).
  - cbv; lia.
  - exact H.
Defined.

Lemma undo_redo_inverse_witness :
  handleUndo sample_state = sample_state.
Proof.
  destruct (undo_redo_inverse sample_state) as (_ & _ & H & _).
  - cbv; lia.
  - now destruct (H eq_refl).
Defined.

Lemma update_in_place_witness :
  diagramData (handleDiagramUpdate 7 true sample_state) = Some 7.
Proof.
  destruct (update_in_place sample_state 7) as (_ & _ & H & _).
  - cbv; lia.
  - exact H.
Defined.

Lemma generate_success_resets_witness :
  history (handleGenerate
             (fun _ => {| success := true; data := Some 9; errors := [] |})
             sample_state) = [Some 9].
Proof.
  apply (generate_success_resets
           (fun _ => {| success := true; data := Some 9; errors := [] |})
           sample_state 9).
  - vm_compute. discriminate.
  - reflexivity.
  - reflexivity.
Defined.

End PageFacts.

(* ===================================================================== *)
(** ** The project store: deleting, listing, the disk copy *)
(* ===================================================================== *)

Module StoreOpsFacts.
Import JS ProjectStore StoreOps.

Section Facts.

Context {DiagramData : Type}.
Variable JSON_stringify : SavedProject DiagramData -> option jsstring.
Variable JSON_parse : jsstring -> option (SavedProject DiagramData).
Variable storage_keys : gmap jsstring jsstring -> list jsstring.
Variable getTime : jsstring -> option Z.

Let load := loadProject JSON_parse.
Let save := saveProject JSON_stringify.
Let archives := listArchivedProjects JSON_parse storage_keys getTime.

(** X11 — deleting a project: afterwards nothing loads under the key,
    whatever was saved there before (also right after a save); every other
    storage key keeps its value; and deleting twice, or deleting a key that
    holds nothing, changes nothing more. *)
Theorem delete_then_load (k : jsstring) (ls : gmap jsstring jsstring) :
  load k (deleteProject k ls) = None
  /\ (forall now d c, load k (deleteProject k (save now k d c ls)) = None)
  /\ (forall k', k' <> STORAGE_PREFIX ++ k -> deleteProject k ls !! k' = ls !! k')
  /\ deleteProject k (deleteProject k ls) = deleteProject k ls
  /\ (ls !! (STORAGE_PREFIX ++ k) = None -> deleteProject k ls = ls).
Proof.
  unfold load, loadProject, deleteProject. repeat split.
  - now rewrite lookup_delete_eq.
  - intros. now rewrite lookup_delete_eq.
  - intros k' Hk. now rewrite lookup_delete_ne.
  - apply delete_delete_eq.
  - apply delete_id.
Qed.

(** The listed archives are entries of the store. *)
Lemma collect_archives_sound (archivePrefix : jsstring)
  (ls : gmap jsstring jsstring) (a : ArchivedProject DiagramData) : forall ks,
  In a (collect_archives JSON_parse archivePrefix ls ks) ->
  In (storageKey a) ks
  /\ startsWith (storageKey a) archivePrefix = true
  /\ exists raw, ls !! storageKey a = Some raw /\ raw <> []
                 /\ JSON_parse raw = Some (project a).
Proof.
  induction ks as [|k ks IH]; cbn [collect_archives]; [intros []|].
  assert (In a (collect_archives JSON_parse archivePrefix ls ks) ->
          In (storageKey a) (k :: ks)
          /\ startsWith (storageKey a) archivePrefix = true
          /\ exists raw, ls !! storageKey a = Some raw /\ raw <> []
                         /\ JSON_parse raw = Some (project a)) as IH'.
  { intros H. destruct (IH H) as (? & ? & ?). repeat split; auto. now right. }
  destruct (startsWith k archivePrefix) eqn:Ep; [|exact IH'].
  destruct (ls !! k) as [[|x raw]|] eqn:Ek; try exact IH'.
  destruct (JSON_parse (x :: raw)) as [p|] eqn:Eparse; [|intros []].
  intros [<-|H]; [|now apply IH']. cbn.
  split; [now left|]. split; [assumption|].
  exists (x :: raw). split; [assumption|]. split; [discriminate|assumption].
Qed.

Lemma collect_archives_keys (archivePrefix : jsstring)
  (ls : gmap jsstring jsstring) : forall ks,
  List.NoDup ks ->
  List.NoDup (List.map storageKey (collect_archives JSON_parse archivePrefix ls ks)).
Proof.
  induction ks as [|k ks IH]; intros Hnd; cbn [collect_archives];
    [constructor|].
  apply List.NoDup_cons_iff in Hnd as [Hk Hnd]. specialize (IH Hnd).
  destruct (startsWith k archivePrefix); [|exact IH].
  destruct (ls !! k) as [[|x raw]|]; try exact IH.
  destruct (JSON_parse (x :: raw)) as [p|]; [|constructor].
  cbn. constructor; [|exact IH].
  intros Hin. apply in_map_iff in Hin as (a & Ha & Hin).
  apply collect_archives_sound in Hin as (Hin & _). cbn in Ha. congruence.
Qed.

(** A listed archive is an entry of the store, under the archive prefix. *)
Lemma listed_archive_entry (k : jsstring) (ls : gmap jsstring jsstring)
  (a : ArchivedProject DiagramData) :
  In a (archives k ls) ->
  startsWith (storageKey a)
    (STORAGE_PREFIX ++ lit "archive:" ++ k ++ lit ":") = true
  /\ exists raw, ls !! storageKey a = Some raw /\ raw <> []
                 /\ JSON_parse raw = Some (project a).
Proof.
  unfold archives, listArchivedProjects. intros Hin.
  apply (Permutation_in _ (Store.sort_perm _ _)) in Hin.
  now apply collect_archives_sound in Hin as (_ & ? & ?).
Qed.

(** X12 — what [listArchivedProjects] lists is in the store: every listed
    project sits under a storage key that begins with the archive prefix of
    the playground key, the store holds a non-empty string there, and the
    project is what [JSON.parse] makes of that string; and when the browser
    enumerates each key once, no storage key is listed twice. *)
Theorem listed_archives_are_stored (k : jsstring) (ls : gmap jsstring jsstring) :
  (forall a, In a (archives k ls) ->
     startsWith (storageKey a)
       (STORAGE_PREFIX ++ lit "archive:" ++ k ++ lit ":") = true
     /\ exists raw, ls !! storageKey a = Some raw /\ raw <> []
                    /\ JSON_parse raw = Some (project a))
  /\ (List.NoDup (storage_keys ls) -> List.NoDup (List.map storageKey (archives k ls))).
Proof.
  unfold archives, listArchivedProjects. split.
  - intros a Hin.
    apply (Permutation_in _ (Store.sort_perm _ _)) in Hin.
    now apply collect_archives_sound in Hin as (_ & ? & ?).
  - intros Hnd.
    eapply Permutation_NoDup;
      [apply Permutation_map; symmetry; apply Store.sort_perm|].
    now apply collect_archives_keys.
Qed.

Lemma sort_insert_sorted (a : ArchivedProject DiagramData)
  (l : list (ArchivedProject DiagramData)) :
  is_Some (getTime (savedAt (project a))) ->
  Forall (fun b => is_Some (getTime (savedAt (project b)))) l ->
  StronglySorted (fun x y => (saved_time getTime y <= saved_time getTime x)%Z) l ->
  StronglySorted (fun x y => (saved_time getTime y <= saved_time getTime x)%Z)
    (sort_insert (newest_first getTime) a l).
Proof.
  intros [ta Ha] Hall Hs.
  induction Hs as [|b l Hs IH Hb]; cbn [sort_insert].
  - repeat constructor.
  - apply Forall_cons_iff in Hall as [[tb Hb'] Hall].
    assert (newest_first getTime a b = (tb - ta)%Z) as ->
      by (unfold newest_first; now rewrite Hb', Ha).
    destruct (tb - ta <=? 0)%Z eqn:E.
    + apply Z.leb_le in E. constructor; [now constructor|].
      constructor; [unfold saved_time; rewrite Ha, Hb'; lia|].
      eapply List.Forall_impl; [|exact Hb]. cbn. intros c Hc.
      unfold saved_time in *. rewrite Ha, Hb' in *. lia.
    + apply Z.leb_gt in E. constructor; [now apply IH|].
      eapply Permutation_Forall; [symmetry; apply Store.sort_insert_perm|].
      constructor; [unfold saved_time; rewrite Ha, Hb'; lia|exact Hb].
Qed.

(** X13 — newest first: when the save time of every archived project that
    is read is a valid date, the list [listArchivedProjects] returns is in
    order of non-increasing save time. *)
Theorem archives_newest_first (k : jsstring) (ls : gmap jsstring jsstring) :
  (forall sk raw p, ls !! sk = Some raw -> JSON_parse raw = Some p ->
                    is_Some (getTime (savedAt p))) ->
  StronglySorted (fun x y => (saved_time getTime y <= saved_time getTime x)%Z)
    (archives k ls).
Proof.
  intros Hdates. unfold archives, listArchivedProjects.
  set (prefix := STORAGE_PREFIX ++ lit "archive:" ++ k ++ lit ":").
  assert (Forall (fun b => is_Some (getTime (savedAt (project b))))
            (collect_archives JSON_parse prefix ls (storage_keys ls))) as Hall.
  { apply List.Forall_forall. intros a Ha.
    apply collect_archives_sound in Ha as (_ & _ & raw & Hraw & _ & Hp). eauto. }
  induction Hall as [|a l Ha Hall IH]; [constructor|].
  cbn [sort fold_right]. apply sort_insert_sorted; [assumption| |exact IH].
  eapply Permutation_Forall; [symmetry; apply Store.sort_perm|exact Hall].
Qed.


(** X14 — deleting an archive: afterwards the storage key holds nothing
    and no listed archive has it; every other storage key holds what it
    held, so a project stored under another key loads as before; and, when
    every archive entry of the key parses and the enumeration misses no
    key, every other archive that was listed is still listed. *)
Theorem delete_archive_removes_it (k sk : jsstring)
  (ls : gmap jsstring jsstring) :
  let ls' := deleteArchivedProject sk ls in
  ls' !! sk = None
  /\ (forall a, In a (archives k ls') -> storageKey a <> sk)
  /\ (forall sk', sk' <> sk -> ls' !! sk' = ls !! sk')
  /\ (forall k', STORAGE_PREFIX ++ k' <> sk -> load k' ls' = load k' ls)
  /\ ((forall k' raw', ls !! k' = Some raw' ->
         startsWith k' (STORAGE_PREFIX ++ lit "archive:" ++ k ++ lit ":") = true ->
         raw' <> [] -> is_Some (JSON_parse raw')) ->
      (forall (m : gmap jsstring jsstring) k',
         is_Some (m !! k') -> In k' (storage_keys m)) ->
      forall a, In a (archives k ls) -> storageKey a <> sk ->
                In a (archives k ls')).
Proof.
  cbv zeta. unfold deleteArchivedProject.
  split; [apply lookup_delete_eq|]. split; [|split; [|split]].
  - intros a Ha Heq.
    apply listed_archive_entry in Ha as (_ & raw & Hraw & _).
    rewrite Heq, lookup_delete_eq in Hraw. discriminate.
  - intros sk' Hne. now rewrite lookup_delete_ne by congruence.
  - intros k' Hk'. unfold load, loadProject.
    now rewrite lookup_delete_ne by congruence.
  - intros Hwf Hkeys a Ha Hne.
    apply listed_archive_entry in Ha as (Hpre & raw & Hraw & Hnon & Hp).
    unfold archives, listArchivedProjects.
    eapply Permutation_in; [symmetry; apply Store.sort_perm|].
    destruct a as [p key0]. cbn in *.
    apply Store.collect_archives_In with (raw := raw); try assumption.
    + intros k' raw' Hk' Hpre' Hne'.
      destruct (decide (k' = sk)) as [->|Hd];
        [now rewrite lookup_delete_eq in Hk'|].
      rewrite lookup_delete_ne in Hk' by congruence. eauto.
    + apply Hkeys. rewrite lookup_delete_ne by congruence. eauto.
    + now rewrite lookup_delete_ne by congruence.
Qed.

(** Every readable entry under the prefix is listed by [listProjects]. *)
Lemma collect_projects_In (ls : gmap jsstring jsstring) (k raw : jsstring)
  (p : SavedProject DiagramData) : forall ks,
  (forall k' raw', ls !! k' = Some raw' -> startsWith k' STORAGE_PREFIX = true ->
                   raw' <> [] -> is_Some (JSON_parse raw')) ->
  In k ks -> startsWith k STORAGE_PREFIX = true ->
  ls !! k = Some raw -> raw <> [] -> JSON_parse raw = Some p ->
  In p (collect_projects JSON_parse ls ks).
Proof.
  intros ks Hwf Hin Hpre Hk Hne Hp.
  induction ks as [|k0 ks IH]; [destruct Hin|]. cbn [collect_projects].
  destruct Hin as [->|Hin].
  - rewrite Hpre, Hk. destruct raw; [congruence|]. rewrite Hp. now left.
  - specialize (IH Hin).
    destruct (startsWith k0 STORAGE_PREFIX) eqn:E0; [|assumption].
    destruct (ls !! k0) as [[|x raw0]|] eqn:E1; try assumption.
    destruct (Hwf k0 (x :: raw0) E1 E0 ltac:(discriminate)) as [p0 ->].
    now right.
Qed.

Lemma archiveKey_storage_prefix (k now : jsstring) :
  startsWith (archiveKey k now) STORAGE_PREFIX = true.
Proof.
  apply JSFacts.startsWith_prefix. unfold archiveKey. eauto.
Qed.

(** X15 — [listProjects] lists archives too: the storage keys of archives
    begin with the prefix of all projects, so after [archiveProject] the
    archived project is still in [listProjects], and [persistAllToDisk]
    writes it to disk under the key it was saved with (when every entry
    under the prefix parses, the entry serialises, and the enumeration
    misses no key). *)
Theorem archives_are_listed_as_projects (now k : jsstring)
  (ls : gmap jsstring jsstring) (p : SavedProject DiagramData) (s : jsstring) :
  load k ls = Some p ->
  (forall k' raw', ls !! k' = Some raw' -> startsWith k' STORAGE_PREFIX = true ->
       raw' <> [] -> is_Some (JSON_parse raw')) ->
  (forall (m : gmap jsstring jsstring) k', is_Some (m !! k') -> In k' (storage_keys m)) ->
  JSON_stringify p = Some s ->
  let ls' := archiveProject now k ls in
  load k ls' = None
  /\ In p (listProjects JSON_parse storage_keys ls')
  /\ In (key p, s) (persistAllToDisk JSON_stringify JSON_parse storage_keys true ls').
Proof.
  intros Hload Hwf Hkeys Hs. cbv zeta.
  unfold load, loadProject in *.
  destruct (ls !! (STORAGE_PREFIX ++ k)) as [raw|] eqn:Hraw; [|discriminate].
  destruct raw as [|x raw]; [discriminate|].
  pose proof (Store.archiveKey_fresh k now) as Hfresh.
  assert (archiveProject now k ls
          = delete (STORAGE_PREFIX ++ k) (<[archiveKey k now := x :: raw]> ls))
    as -> by (unfold archiveProject; now rewrite Hraw).
  assert (In p (listProjects JSON_parse storage_keys
                  (delete (STORAGE_PREFIX ++ k)
                     (<[archiveKey k now := x :: raw]> ls)))) as Hlisted.
  { unfold listProjects.
    apply collect_projects_In with (k := archiveKey k now) (raw := x :: raw);
      try assumption; try discriminate.
    - intros k' raw' Hk' Hpre Hne.
      destruct (decide (k' = STORAGE_PREFIX ++ k)) as [->|Hk1];
        [now rewrite lookup_delete_eq in Hk'|].
      rewrite lookup_delete_ne in Hk' by congruence.
      destruct (decide (k' = archiveKey k now)) as [->|Hk2].
      + rewrite lookup_insert_eq in Hk'. injection Hk' as <-. eauto.
      + rewrite lookup_insert_ne in Hk' by congruence. eauto.
    - apply Hkeys. rewrite lookup_delete_ne by congruence.
      rewrite lookup_insert_eq. eauto.
    - apply archiveKey_storage_prefix.
    - rewrite lookup_delete_ne by congruence. apply lookup_insert_eq. }
  split; [now rewrite lookup_delete_eq|]. split; [exact Hlisted|].
  unfold persistAllToDisk. apply in_flat_map. exists p.
  split; [exact Hlisted|]. rewrite Hs. now left.
Qed.

(** X16 — archiving is done once: a second [archiveProject] of the same
    key, at any later time, finds nothing under the key and leaves the store
    as the first left it. *)
Theorem archive_twice (now now' k : jsstring) (ls : gmap jsstring jsstring) :
  archiveProject now' k (archiveProject now k ls) = archiveProject now k ls
  /\ load k (archiveProject now k ls) = None.
Proof.
  assert (archiveProject now k ls !! (STORAGE_PREFIX ++ k) = None
          \/ archiveProject now k ls !! (STORAGE_PREFIX ++ k) = Some []) as H.
  { unfold archiveProject.
    destruct (ls !! (STORAGE_PREFIX ++ k)) as [[|x raw]|] eqn:E; auto.
    left. apply lookup_delete_eq. }
  split.
  - now apply Store.archive_nothing.
  - unfold load, loadProject. destruct H as [-> | ->]; reflexivity.
Qed.

(** X17 — the disk copy.  [loadFromDisk] changes no storage key but the
    project's own.  When it resolves to a project, that project is what
    [loadProject] returns afterwards (given that it survives
    serialisation).  A local project is kept, with the store as it was,
    unless the disk copy was saved strictly later and is returned.  When
    it resolves to null the store is as it was, but for one case: the disk
    text is the JSON literal [null] and there is no local project; then
    the text [null] is written under the project's key. *)
Theorem disk_copy_wins_only_if_newer (parses_to_null : jsstring -> bool)
  (bridge : option (jsstring -> option jsstring)) (k : jsstring)
  (ls : gmap jsstring jsstring) :
  let run := loadFromDisk JSON_stringify JSON_parse getTime parses_to_null
               bridge k ls in
  let result := fst run in
  let ls' := snd run in
  (forall k', k' <> STORAGE_PREFIX ++ k -> ls' !! k' = ls !! k')
  /\ (forall p, result = Some p ->
        (forall s, JSON_stringify p = Some s ->
                   s <> [] /\ JSON_parse s = Some p) ->
        load k ls' = Some p)
  /\ (forall p l, result = Some p -> load k ls = Some l ->
        (p = l /\ ls' = ls) \/ saved_later getTime p l = true)
  /\ (forall l, load k ls = Some l ->
        ls' = ls
        \/ exists p, result = Some p /\ saved_later getTime p l = true)
  /\ (result = None ->
        ls' = ls
        \/ (load k ls = None
            /\ ls' = <[STORAGE_PREFIX ++ k := lit "null"]> ls
            /\ exists read raw, bridge = Some read /\ read k = Some raw
                                /\ parses_to_null raw = true)).
Proof.
  cbv zeta. unfold loadFromDisk.
  destruct bridge as [read|];
    [|cbn [fst snd]; repeat split; intros; try congruence; auto].
  destruct (read k) as [[|x raw]|] eqn:Eread;
    try solve [cbn [fst snd]; repeat split; intros; try congruence; auto].
  fold load.
  destruct (parses_to_null (x :: raw)) eqn:Enull.
  { (* the disk text is the literal null *)
    destruct (load k ls) as [l|] eqn:El; cbn [fst snd].
    - split; [reflexivity|]. split; [discriminate|]. split; [discriminate|].
      split; auto.
    - split; [intros; now rewrite lookup_insert_ne|].
      split; [discriminate|]. split; [discriminate|].
      split; [discriminate|]. intros _. right.
      split; [reflexivity|]. split; [reflexivity|]. eauto. }
  destruct (JSON_parse (x :: raw)) as [disk|];
    [|cbn [fst snd]; repeat split; intros; try congruence; auto].
  set (take_disk := match JSON_stringify disk with
                    | Some s => (Some disk, <[STORAGE_PREFIX ++ k := s]> ls)
                    | None => (None, ls)
                    end).
  assert ((fst take_disk = None -> snd take_disk = ls)
          /\ (forall k', k' <> STORAGE_PREFIX ++ k -> snd take_disk !! k' = ls !! k')
          /\ (forall p, fst take_disk = Some p ->
                (forall s, JSON_stringify p = Some s ->
                           s <> [] /\ JSON_parse s = Some p) ->
                load k (snd take_disk) = Some p)
          /\ (forall p, fst take_disk = Some p -> p = disk)
          /\ (snd take_disk = ls \/ fst take_disk = Some disk))
    as (T1 & T2 & T3 & T4 & T5).
  { subst take_disk. destruct (JSON_stringify disk) as [s|] eqn:Es; cbn.
    - split; [discriminate|]. split; [intros; now rewrite lookup_insert_ne|].
      split; [|split; [congruence|auto]].
      intros p [= <-] Hrt. destruct (Hrt s Es) as [Hne Hp].
      unfold load, loadProject. rewrite lookup_insert_eq.
      destruct s; [congruence|assumption].
    - repeat split; intros; try congruence. auto. }
  destruct (load k ls) as [l|] eqn:El.
  - destruct (saved_later getTime disk l) eqn:Enew.
    + split; [exact T2|]. split; [exact T3|]. split.
      { intros p l' Hp [= <-]. right. now rewrite (T4 p Hp). }
      split; [|intros H; left; now apply T1].
      intros l' [= <-]. destruct T5 as [?|?]; [now left|right; eauto].
    + cbn. split; [reflexivity|].
      split; [intros p [= <-] _; exact El|]. split.
      { intros p l' [= <-] [= <-]. now left. }
      split; [auto|discriminate].
  - split; [exact T2|]. split; [exact T3|]. split; [discriminate|].
    split; [discriminate|]. intros H. left. now apply T1.
Qed.

End Facts.

(** The sample store has one entry, under the project key. *)
Lemma sample_store_parses (k' raw' : jsstring) :
  Codec.sample_store !! k' = Some raw' -> is_Some (Codec.parse raw').
Proof.
  intros Hk. unfold Codec.sample_store in Hk.
  destruct (decide (k' = STORAGE_PREFIX ++ Codec.sample_key)) as [->|Hne].
  - rewrite lookup_insert_eq in Hk. injection Hk as <-. vm_compute. eauto.
  - rewrite lookup_insert_ne, lookup_empty in Hk by congruence. discriminate.
Qed.

Lemma sample_store_loads :
  loadProject Codec.parse Codec.sample_key Codec.sample_store
  = Some Codec.sample_entry.
Proof.
  unfold loadProject, Codec.sample_store. rewrite lookup_insert_eq.
  vm_compute. reflexivity.
Qed.

(** A test that holds of every entry of a store holds of each. *)
Lemma store_forallb (P : jsstring -> jsstring -> bool)
  (ls : gmap jsstring jsstring) :
  forallb (fun kv => P (fst kv) (snd kv)) (map_to_list ls) = true ->
  forall k v, ls !! k = Some v -> P k v = true.
Proof.
  intros H k v Hk. rewrite forallb_forall in H.
  apply (H (k, v)). apply list_elem_of_In. now apply elem_of_map_to_list.
Qed.

(** Every entry of the store with the two archives parses. *)
Lemma sample_archives_parse (k' raw' : jsstring) :
  Codec.sample_archives !! k' = Some raw' -> is_Some (Codec.parse raw').
Proof.
  intros Hk.
  pose proof (store_forallb
                (fun _ raw => match Codec.parse raw with
                              | Some _ => true
                              | None => false
                              end)
                Codec.sample_archives ltac:(vm_compute; reflexivity)
                k' raw' Hk) as H.
  cbv beta in H. destruct (Codec.parse raw'); [eauto|discriminate].
Qed.

(** The two archives, enumerated oldest first, are listed newest first. *)
Lemma archives_newest_first_witness :
  let keys := fun m : gmap jsstring jsstring => rev (Codec.keys m) in
  List.map (fun a => savedAt (project a))
    (collect_archives Codec.parse
       (STORAGE_PREFIX ++ lit "archive:" ++ Codec.sample_key ++ lit ":")
       Codec.sample_archives (keys Codec.sample_archives))
  = [Codec.sample_now; Codec.sample_later]
  /\ List.map (fun a => savedAt (project a))
       (listArchivedProjects Codec.parse keys Codec.clock
          Codec.sample_key Codec.sample_archives)
     = [Codec.sample_later; Codec.sample_now]
  /\ StronglySorted
       (fun x y => (saved_time Codec.clock y <= saved_time Codec.clock x)%Z)
       (listArchivedProjects Codec.parse keys Codec.clock
          Codec.sample_key Codec.sample_archives).
Proof.
  cbv zeta. split; [vm_compute; reflexivity|].
  split; [vm_compute; reflexivity|].
  apply (archives_newest_first Codec.parse
           (fun m : gmap jsstring jsstring => rev (Codec.keys m)) Codec.clock
           Codec.sample_key Codec.sample_archives).
  intros sk raw p _ _. unfold Codec.clock. eauto.
Defined.

Lemma delete_archive_removes_it_witness :
  let older := archiveKey Codec.sample_key Codec.sample_now in
  let later := archiveKey Codec.sample_key Codec.sample_later in
  let ls' := deleteArchivedProject older Codec.sample_archives in
  Codec.sample_archives !! older = Some Codec.sample_raw
  /\ In {| project := Codec.sample_entry; storageKey := older |}
        (listArchivedProjects Codec.parse Codec.keys Codec.clock
           Codec.sample_key Codec.sample_archives)
  /\ ls' !! older = None
  /\ (forall a, In a (listArchivedProjects Codec.parse Codec.keys Codec.clock
                        Codec.sample_key ls') -> storageKey a <> older)
  /\ In {| project := Codec.sample_later_entry; storageKey := later |}
        (listArchivedProjects Codec.parse Codec.keys Codec.clock
           Codec.sample_key ls').
Proof.
  cbv zeta.
  destruct (delete_archive_removes_it Codec.parse Codec.keys Codec.clock
              Codec.sample_key (archiveKey Codec.sample_key Codec.sample_now)
              Codec.sample_archives) as (Hgone & Hnot & _ & _ & Hkept).
  split; [vm_compute; reflexivity|].
  split; [vm_compute; right; left; reflexivity|].
  split; [exact Hgone|]. split; [exact Hnot|].
  apply Hkept.
  - intros k' raw' Hk _ _. exact (sample_archives_parse k' raw' Hk).
  - apply Store.keys_complete.
  - vm_compute. left. reflexivity.
  - vm_compute. discriminate.
Defined.

(** A disk file that holds the text [null], and no local project. *)
Lemma disk_copy_wins_only_if_newer_witness :
  let run := loadFromDisk Codec.stringify Codec.parse Codec.clock
               (str_eqb (lit "null")) (Some (fun _ => Some (lit "null")))
               Codec.sample_key ∅ in
  fst run = None
  /\ snd run !! (STORAGE_PREFIX ++ Codec.sample_key) = Some (lit "null")
  /\ forall k', k' <> STORAGE_PREFIX ++ Codec.sample_key -> snd run !! k' = None.
Proof.
  cbv zeta.
  destruct (disk_copy_wins_only_if_newer Codec.stringify Codec.parse Codec.clock
              (str_eqb (lit "null")) (Some (fun _ => Some (lit "null")))
              Codec.sample_key ∅) as (Hframe & _).
  split; [vm_compute; reflexivity|]. split; [vm_compute; reflexivity|].
  intros k' Hk'. rewrite (Hframe k' Hk'). apply lookup_empty.
Defined.

Lemma archives_are_listed_as_projects_witness :
  In Codec.sample_entry
    (listProjects Codec.parse Codec.keys
       (archiveProject Codec.sample_now Codec.sample_key Codec.sample_store)).
Proof.
  destruct (archives_are_listed_as_projects Codec.stringify Codec.parse
              Codec.keys Codec.sample_now Codec.sample_key Codec.sample_store
              Codec.sample_entry Codec.sample_raw) as (_ & H & _).
  - apply sample_store_loads.
  - intros k' raw' Hk _ _. exact (sample_store_parses k' raw' Hk).
  - apply Store.keys_complete.
  - reflexivity.
  - exact H.
Defined.

End StoreOpsFacts.

(* ===================================================================== *)
(** ** The page and the store together: resume and new project *)
(* ===================================================================== *)

Module ResumeFacts.
Import JS CubegenDSL CodePlayground PageHandlers ProjectStore.

Section Facts.

Context {DiagramData : Type}.
Variable nodeCount : DiagramData -> nat.
Variable JSON_stringify : SavedProject DiagramData -> option jsstring.
Variable JSON_parse : jsstring -> option (SavedProject DiagramData).

(** X18 — what was saved comes back when the page mounts: after a save of
    a diagram with non-empty code under the page's key (the entry surviving
    serialisation), the page starts with that code and that diagram; it asks
    whether to resume exactly when the diagram has nodes, and until the user
    has answered nothing is auto-saved; after Resume the auto-save is given
    the very diagram and code that were loaded. *)
Theorem mount_restores_saved_project (now : jsstring) (d : DiagramData)
  (c : N) (cs : jsstring) (ls : gmap jsstring jsstring) (raw : jsstring) :
  let entry := {| key := CODE_PROJECT_KEY; diagramData := d;
                  code := Some (c :: cs); savedAt := now |} in
  JSON_stringify entry = Some raw ->
  raw <> [] ->
  JSON_parse raw = Some entry ->
  let ls' := saveProject JSON_stringify now CODE_PROJECT_KEY d (Some (c :: cs)) ls in
  let page := mount nodeCount (loadProject JSON_parse CODE_PROJECT_KEY ls') in
  CodePlayground.code (state page) = c :: cs
  /\ PageHandlers.diagramData (state page) = Some d
  /\ showResumeModal page = (0 <? nodeCount d)
  /\ hasChosen page = negb (0 <? nodeCount d)
  /\ (showResumeModal page = true -> autoSaveArguments page = None)
  /\ autoSaveArguments (handleResume page) = Some (d, Some (c :: cs)).
Proof.
  cbv zeta. intros Hs Hne Hp.
  assert (loadProject JSON_parse CODE_PROJECT_KEY
            (saveProject JSON_stringify now CODE_PROJECT_KEY d (Some (c :: cs)) ls)
          = Some {| key := CODE_PROJECT_KEY; diagramData := d;
                    code := Some (c :: cs); savedAt := now |}) as ->.
  { unfold loadProject, saveProject. rewrite Hs, lookup_insert_eq.
    destruct raw; [congruence|assumption]. }
  unfold mount, autoSaveArguments, handleResume, PageHandlers.diagramData.
  cbn. repeat split.
  intros H. now rewrite H.
Qed.

(** X19 — New Project starts clean: whatever the store held, afterwards
    nothing loads under the page's key, the auto-save has nothing to save,
    and a page mounting on that store starts without a resume question, in
    the same state as the page is in now: the example code and no diagram.
    Only the project key and the new archive key of the store can have
    changed. *)
Theorem new_project_starts_clean (now : jsstring) (p : Page DiagramData)
  (ls : gmap jsstring jsstring) :
  let p' := fst (handleNewProject now p ls) in
  let ls' := snd (handleNewProject now p ls) in
  let fresh := mount nodeCount (loadProject JSON_parse CODE_PROJECT_KEY ls') in
  loadProject JSON_parse CODE_PROJECT_KEY ls' = None
  /\ autoSaveArguments p' = None
  /\ showResumeModal fresh = false /\ hasChosen fresh = true
  /\ isPlaygroundMode fresh = isPlaygroundMode p'
  /\ CodePlayground.code (state fresh) = CodePlayground.code (state p')
  /\ CodePlayground.code (state p') = EXAMPLE_CODE
  /\ history (state fresh) = history (state p')
  /\ PageHandlers.diagramData (state p') = None
  /\ parseErrors (state p') = []
  /\ (forall k', k' <> STORAGE_PREFIX ++ CODE_PROJECT_KEY ->
                 k' <> archiveKey CODE_PROJECT_KEY now ->
                 ls' !! k' = ls !! k').
Proof.
  cbv zeta. unfold handleNewProject. cbn [fst snd].
  assert (loadProject JSON_parse CODE_PROJECT_KEY
            (archiveProject now CODE_PROJECT_KEY ls) = None) as Hnone.
  { unfold loadProject, archiveProject.
    destruct (ls !! (STORAGE_PREFIX ++ CODE_PROJECT_KEY)) as [[|x raw]|] eqn:E;
      rewrite ?E; try reflexivity.
    now rewrite lookup_delete_eq. }
  rewrite Hnone. repeat (split; [reflexivity|]).
  intros k' H1 H2. unfold archiveProject.
  destruct (ls !! (STORAGE_PREFIX ++ CODE_PROJECT_KEY)) as [[|x raw]|];
    try reflexivity.
  rewrite lookup_delete_ne by congruence. now rewrite lookup_insert_ne by congruence.
Qed.

End Facts.

Lemma mount_restores_saved_project_witness :
  CodePlayground.code
    (state (mount (fun d : jsstring => List.length d)
              (loadProject Codec.parse CODE_PROJECT_KEY
                 (saveProject Codec.stringify Codec.sample_now CODE_PROJECT_KEY
                    Codec.sample_diagram (Some (lit "node a: x")) ∅))))
  = lit "node a: x".
Proof.
  apply (mount_restores_saved_project (fun d : jsstring => List.length d)
           Codec.stringify Codec.parse Codec.sample_now Codec.sample_diagram
           110%N (lit "ode a: x") ∅ Codec.sample_raw).
  - reflexivity.
  - vm_compute. discriminate.
  - vm_compute. reflexivity.
Defined.

End ResumeFacts.

(* ===================================================================== *)
(** ** The icon proxy: membership, enumeration, loading *)
(* ===================================================================== *)

Module IconProxyFacts.
Import JS IconConstants IconProxy JSFacts.

Lemma existsb_str_eqb (x : jsstring) (seen : list jsstring) :
  existsb (str_eqb x) seen = true <-> In x seen.
Proof.
  rewrite existsb_exists. split.
  - intros (y & Hy & He). apply str_eqb_eq in He. now subst.
  - intros H. exists x. split; [assumption|now apply str_eqb_eq].
Qed.

Lemma dedup_from_In (l : list jsstring) : forall seen x,
  In x (dedup_from seen l) <-> In x l /\ ~ In x seen.
Proof.
  induction l as [|y l IH]; intros seen x; cbn [dedup_from].
  - cbn. tauto.
  - destruct (existsb (str_eqb y) seen) eqn:E.
    + apply existsb_str_eqb in E. rewrite IH. cbn. split.
      * intros [? ?]; auto.
      * intros [[->|?] ?]; [contradiction|auto].
    + assert (~ In y seen) as Hy
        by (intros H; apply existsb_str_eqb in H; congruence).
      cbn. rewrite IH. cbn. split.
      * intros [->|[? ?]]; auto.
      * intros [[->|?] ?]; auto.
        destruct (decide (y = x)) as [->|Hne]; auto.
        right. split; [assumption|]. intros [?|?]; auto.
Qed.

Lemma dedup_from_NoDup (l : list jsstring) : forall seen,
  List.NoDup (dedup_from seen l).
Proof.
  induction l as [|y l IH]; intros seen; cbn [dedup_from]; [constructor|].
  destruct (existsb (str_eqb y) seen); [apply IH|].
  constructor; [|apply IH].
  rewrite dedup_from_In. cbn. tauto.
Qed.

(** Keys that are distinct and not yet seen are all kept, in place. *)
Lemma dedup_from_prefix (a b : list jsstring) : forall seen,
  List.NoDup a -> (forall x, In x a -> ~ In x seen) ->
  dedup_from seen (a ++ b) = a ++ dedup_from (rev a ++ seen) b.
Proof.
  induction a as [|y a IH]; intros seen Hnd Hseen; [reflexivity|].
  apply List.NoDup_cons_iff in Hnd as [Hy Hnd]. cbn [app dedup_from].
  replace (existsb (str_eqb y) seen) with false.
  - rewrite IH; [|assumption|].
    + cbn [rev]. now rewrite <- app_assoc.
    + intros x Hx [<-|Hin]; [contradiction|].
      apply (Hseen x); [now right|assumption].
  - symmetry. apply not_true_is_false. intros H.
    apply existsb_str_eqb in H. apply (Hseen y); [now left|assumption].
Qed.

Section Facts.

Context {Element Inherited : Type}.
Variable BASE_ICONS : gmap jsstring (ReactNode Element).
Variable Generic : jsstring.
Variable Object_prototype : gmap jsstring Inherited.
Variable base_keys : list jsstring.
Variable object_keys : gmap jsstring jsstring -> list jsstring.

Let get := ICONS_get BASE_ICONS Generic Object_prototype.
Let has := ICONS_has BASE_ICONS Object_prototype.
Let ownKeys := ICONS_ownKeys base_keys object_keys.

(** [prop in obj]: the object has the key itself or inherits it. *)
Lemma has_property_spec {V : Type} (own : gmap jsstring V) (prop : jsstring) :
  has_property Object_prototype own prop = true
  <-> is_Some (own !! prop) \/ is_Some (Object_prototype !! prop).
Proof.
  unfold has_property. now rewrite orb_true_iff, !bool_decide_eq_true.
Qed.

Lemma has_property_false {V : Type} (own : gmap jsstring V) (prop : jsstring) :
  has_property Object_prototype own prop = false
  <-> own !! prop = None /\ Object_prototype !! prop = None.
Proof.
  unfold has_property.
  rewrite orb_false_iff, !bool_decide_eq_false, <- !eq_None_not_Some.
  reflexivity.
Qed.

(** X20 — [in] and the lookup agree.  The proxy reports a key as present
    when [BASE_ICONS] has it, when every object inherits it, or when the
    loaded cloud library has it.  Such a key is looked up as the object's
    own value for it: the base icon, else the inherited value (no icon),
    else the cloud icon; the value is defined and no import is started.  A
    key reported as absent is looked up as [BASE_ICONS[IconType.Generic]].
    A property descriptor is given for exactly the keys reported as
    present. *)
Theorem has_agrees_with_get (st : CloudState) (prop : jsstring) :
  (has st prop = true
   <-> is_Some (BASE_ICONS !! prop) \/ is_Some (Object_prototype !! prop)
       \/ (CLOUD_ICONS_LOADED st = true
           /\ is_Some (CLOUD_ICONS_CACHE st !! prop)))
  /\ (has st prop = true ->
     is_Some (fst (get st prop))
     /\ fst (get st prop)
        = match BASE_ICONS !! prop, Object_prototype !! prop with
          | Some icon, _ => Some (IconValue icon)
          | None, Some v => Some (InheritedValue v)
          | None, None =>
              (fun s => IconValue (Text s)) <$> CLOUD_ICONS_CACHE st !! prop
          end
     /\ snd (get st prop) = st)
  /\ (has st prop = false ->
      fst (get st prop)
      = get_property Object_prototype (fun icon => icon) BASE_ICONS Generic)
  /\ (is_Some (ICONS_getOwnPropertyDescriptor BASE_ICONS Object_prototype st prop)
      <-> has st prop = true).
Proof.
  clear ownKeys base_keys object_keys. split.
  { unfold has, ICONS_has.
    rewrite orb_true_iff, andb_true_iff, !has_property_spec. tauto. }
  unfold has, get, ICONS_has, ICONS_get, ICONS_getOwnPropertyDescriptor.
  destruct (has_property Object_prototype BASE_ICONS prop) eqn:Hb.
  - cbn [orb fst snd]. split; [|split; [discriminate|split; eauto]].
    intros _. apply has_property_spec in Hb. unfold get_property.
    destruct (BASE_ICONS !! prop) as [icon|]; [eauto|].
    destruct (Object_prototype !! prop) as [v|]; [cbn; eauto|].
    destruct Hb as [[? ?]|[? ?]]; discriminate.
  - apply has_property_false in Hb as [Hb Hp]. cbn [orb].
    destruct (CLOUD_ICONS_LOADED st
              && has_property Object_prototype (CLOUD_ICONS_CACHE st) prop)
      eqn:Hc; cbn [fst snd].
    + split; [|split; [discriminate|split; eauto]].
      intros _. apply andb_true_iff in Hc as [_ Hc].
      apply has_property_spec in Hc. unfold get_property. rewrite Hb, Hp.
      destruct (CLOUD_ICONS_CACHE st !! prop) as [s|]; [cbn; eauto|].
      destruct Hc as [[? ?]|[? ?]]; congruence.
    + split; [discriminate|]. split; [reflexivity|].
      split; [intros [? ?]; discriminate|discriminate].
Qed.

(** X21 — enumeration and membership.  [Object.keys] gives the keys an
    object has itself, each once.  Every key the proxy enumerates is a key
    it reports as present; a key it reports as present is enumerated unless
    it is only inherited ([toString] is present and not enumerated); no key
    is enumerated twice; and the base keys come first, in their own order,
    before and after the cloud library is loaded. *)
Theorem ownKeys_agrees_with_has (st : CloudState) :
  (forall k, In k base_keys <-> is_Some (BASE_ICONS !! k)) ->
  (forall (m : gmap jsstring jsstring) k,
      In k (object_keys m) <-> is_Some (m !! k)) ->
  List.NoDup base_keys ->
  (forall k, In k (ownKeys st) -> has st k = true)
  /\ (forall k, has st k = true ->
                In k (ownKeys st) \/ is_Some (Object_prototype !! k))
  /\ (forall k, is_Some (Object_prototype !! k) -> has st k = true)
  /\ List.NoDup (ownKeys st)
  /\ firstn (List.length base_keys) (ownKeys st) = base_keys.
Proof.
  clear get Generic. intros Hbase Hobj Hnd.
  assert (forall k, In k (ownKeys st)
                    <-> is_Some (BASE_ICONS !! k)
                        \/ (CLOUD_ICONS_LOADED st = true
                            /\ is_Some (CLOUD_ICONS_CACHE st !! k))) as Hown.
  { intros k. unfold ownKeys, ICONS_ownKeys.
    destruct (CLOUD_ICONS_LOADED st).
    - unfold dedup. rewrite dedup_from_In, in_app_iff, Hbase, Hobj. cbn. tauto.
    - rewrite Hbase. split; [auto|]. intros [?|[? _]]; [assumption|discriminate]. }
  assert (forall k, has st k = true
                    <-> is_Some (BASE_ICONS !! k) \/ is_Some (Object_prototype !! k)
                        \/ (CLOUD_ICONS_LOADED st = true
                            /\ is_Some (CLOUD_ICONS_CACHE st !! k))) as Hhas.
  { intros k. unfold has, ICONS_has.
    rewrite orb_true_iff, andb_true_iff, !has_property_spec. tauto. }
  split; [intros k; rewrite Hown, Hhas; tauto|].
  split; [intros k; rewrite Hown, Hhas; tauto|].
  split; [intros k; rewrite Hhas; tauto|].
  unfold ownKeys, ICONS_ownKeys.
  destruct (CLOUD_ICONS_LOADED st).
  - split; [apply dedup_from_NoDup|].
    unfold dedup. rewrite dedup_from_prefix by auto.
    rewrite firstn_app, Nat.sub_diag, firstn_O, app_nil_r.
    now apply firstn_all2.
  - split; [assumption|now apply firstn_all2].
Qed.

(** X22 — the cloud library is imported once.  From the first state, a
    lookup of a key that is not in [BASE_ICONS] (it is no base icon and is
    not inherited) gives [BASE_ICONS[IconType.Generic]] and starts the
    import; while it is under way, and once it has settled, neither lookups
    nor [loadCloudIcons] change the state again, so no second import is
    started, also after a failed one.  After the import delivered a
    library, such a key is looked up in it: its icon, or the generic one;
    after a failed import it is the generic one. *)
Theorem cloud_library_loaded_once (key : jsstring) :
  has_property Object_prototype BASE_ICONS key = false ->
  let generic := get_property Object_prototype (fun icon => icon) BASE_ICONS Generic in
  let st1 := snd (get initial key) in
  fst (get initial key) = generic
  /\ phase st1 = Loading
  /\ loadCloudIcons st1 = st1
  /\ (forall k, snd (get st1 k) = st1)
  /\ (forall lib,
        let st2 := import_settled (Some lib) st1 in
        phase st2 = Loaded
        /\ loadCloudIcons st2 = st2
        /\ (forall k, snd (get st2 k) = st2)
        /\ (forall s, lib !! key = Some s ->
                      fst (get st2 key) = Some (IconValue (Text s)))
        /\ (lib !! key = None -> fst (get st2 key) = generic))
  /\ (let st3 := import_settled None st1 in
      phase st3 = Loaded
      /\ loadCloudIcons st3 = st3
      /\ (forall k, snd (get st3 k) = st3)
      /\ fst (get st3 key) = generic).
Proof.
  intros Hb. cbv zeta.
  assert (forall st k, CLOUD_ICONS_LOADED st = true \/ cloudIconsLoadPromise st = true ->
                       snd (get st k) = st) as Hstable.
  { intros st k Hst. unfold get, ICONS_get, loadCloudIcons.
    destruct (has_property Object_prototype BASE_ICONS k); cbn; try reflexivity.
    destruct (CLOUD_ICONS_LOADED st) eqn:E1; cbn;
      [destruct (has_property Object_prototype (CLOUD_ICONS_CACHE st) k)|];
      cbn; rewrite ?E1; try reflexivity.
    destruct (cloudIconsLoadPromise st) eqn:E2; cbn; try reflexivity.
    destruct Hst; congruence. }
  assert (snd (get initial key)
          = {| CLOUD_ICONS_LOADED := false; CLOUD_ICONS_CACHE := ∅;
               cloudIconsLoadPromise := true |}) as Hst1.
  { unfold get, ICONS_get. rewrite Hb. reflexivity. }
  rewrite Hst1.
  split; [unfold get, ICONS_get; now rewrite Hb|].
  split; [reflexivity|]. split; [reflexivity|].
  split; [intros k; apply Hstable; now right|].
  pose proof Hb as Hb'. apply has_property_false in Hb' as [Hown Hp].
  split.
  - intros lib. cbn [import_settled cloudIconsLoadPromise].
    split; [reflexivity|]. split; [reflexivity|].
    split; [intros k; apply Hstable; now left|].
    unfold get, ICONS_get. rewrite Hb.
    cbn [CLOUD_ICONS_LOADED CLOUD_ICONS_CACHE andb].
    split.
    + intros s Hs.
      assert (has_property Object_prototype lib key = true) as ->
        by (apply has_property_spec; eauto).
      cbn [fst]. unfold get_property. now rewrite Hs.
    + intros Hs.
      assert (has_property Object_prototype lib key = false) as ->
        by (now apply has_property_false).
      reflexivity.
  - cbn [import_settled cloudIconsLoadPromise CLOUD_ICONS_CACHE].
    split; [reflexivity|]. split; [reflexivity|].
    split; [intros k; apply Hstable; now left|].
    unfold get, ICONS_get. rewrite Hb.
    cbn [CLOUD_ICONS_LOADED CLOUD_ICONS_CACHE andb].
    assert (has_property Object_prototype (∅ : gmap jsstring jsstring) key = false) as ->
      by (apply has_property_false; split; [apply lookup_empty|assumption]).
    reflexivity.
Qed.

End Facts.

(** [Object.keys] as the keys of the map, in the order [map_to_list] gives
    them. *)
Lemma map_keys_spec {V : Type} (m : gmap jsstring V) (k : jsstring) :
  In k (List.map fst (map_to_list m)) <-> is_Some (m !! k).
Proof.
  split.
  - intros Hin. apply in_map_iff in Hin as ([k' v] & <- & Hin).
    apply list_elem_of_In, elem_of_map_to_list in Hin. cbn. eauto.
  - intros [v Hv]. apply (in_map fst (map_to_list m) (k, v)).
    apply list_elem_of_In. now apply elem_of_map_to_list.
Qed.

Lemma has_agrees_with_get_witness :
  ICONS_has sample_base sample_prototype initial (lit "toString") = true
  /\ fst (ICONS_get sample_base sample_generic sample_prototype initial
            (lit "toString"))
     = Some (InheritedValue (lit "function toString() { [native code] }"))
  /\ ICONS_has sample_base sample_prototype initial (lit "aws-s3") = false.
Proof.
  destruct (has_agrees_with_get sample_base sample_generic sample_prototype
              initial (lit "toString")) as (Hhas & Hget & _).
  destruct (has_agrees_with_get sample_base sample_generic sample_prototype
              initial (lit "aws-s3")) as (Hmiss & _).
  assert (ICONS_has sample_base sample_prototype initial (lit "toString") = true)
    as Hpresent.
  { apply Hhas. right. left. vm_compute. eauto. }
  split; [exact Hpresent|]. split.
  - destruct (Hget Hpresent) as (_ & -> & _). vm_compute. reflexivity.
  - vm_compute. reflexivity.
Defined.

Lemma ownKeys_agrees_with_has_witness :
  let st := sample_loaded in
  let keys := ICONS_ownKeys (List.map fst (map_to_list sample_base))
                (fun m => List.map fst (map_to_list m)) st in
  In (lit "aws-s3") keys
  /\ ICONS_has sample_base sample_prototype st (lit "aws-s3") = true
  /\ ICONS_has sample_base sample_prototype st (lit "toString") = true
  /\ ~ In (lit "toString") keys
  /\ List.NoDup keys.
Proof.
  cbv zeta.
  destruct (ownKeys_agrees_with_has sample_base sample_prototype
              (List.map fst (map_to_list sample_base))
              (fun m => List.map fst (map_to_list m)) sample_loaded)
    as (Hin & Hhas & Hinh & Hnd & _).
  - intros k. apply map_keys_spec.
  - intros m k. apply map_keys_spec.
  - apply NoDup_ListNoDup, NoDup_fst_map_to_list.
  - assert (ICONS_has sample_base sample_prototype sample_loaded (lit "aws-s3")
            = true) as Hs3 by (vm_compute; reflexivity).
    split.
    { destruct (Hhas _ Hs3) as [H|[v Hv]]; [exact H|].
      vm_compute in Hv. discriminate. }
    split; [exact Hs3|].
    split; [apply Hinh; vm_compute; eauto|].
    split; [|exact Hnd].
    vm_compute. intros [H|[H|[]]]; discriminate.
Defined.

Lemma cloud_library_loaded_once_witness :
  phase (snd (ICONS_get sample_base sample_generic sample_prototype
                initial (lit "aws-s3")))
  = Loading
  /\ fst (ICONS_get sample_base sample_generic sample_prototype
            initial (lit "aws-s3"))
     = Some (IconValue (Node 0)).
Proof.
  destruct (cloud_library_loaded_once sample_base sample_generic
              sample_prototype (lit "aws-s3")) as (Hfst & Hph & _).
  - vm_compute. reflexivity.
  - split; [exact Hph|]. rewrite Hfst. vm_compute. reflexivity.
Defined.

End IconProxyFacts.
